(** * Trading console: scoring, sizing, outcome and KPI engine

    A shallow embedding of the numeric core of the trading console
    (src/Page.tsx, the shadcn "ops console"; src/unnamed/part_001, the
    cost- and side-aware "TradingConsole"; src/pages/index.tsx, the
    score-only page) together with the properties its specification
    states about it.

    Number model.  In the modules [Page] and [Console] a JavaScript
    [number] is an exact rational [Q]: [NaN] and rounding error are
    outside that model, and the one infinite value the code produces on
    purpose ([Infinity] for a ratio with an empty loss side) is a
    constructor of [num].  Equality of rationals is [Qeq] ([==]).
    Timestamps and checklist weights, which the code only ever adds and
    compares as integers, are [Z].

    The two sizers are embedded a second time, in [Console64] and
    [Page64], over IEEE 754 double precision ([F64]): they test the sign
    of a rounded sum and take whole parts of rounded quotients, so that
    what they return depends on the rounding.  The properties of the
    sizers are stated of these.

    Strings are their UTF-8 bytes. *)

From Stdlib Require Import QArith Qabs Qround Qminmax Qpower ZArith List Sorted Permutation Lia Lqa Bool Ascii String.
From Stdlib Require Import PrimFloat FloatOps SpecFloat.
From stdpp Require Import gmap strings.
Import ListNotations.

Local Open Scope Q_scope.

(** ** JavaScript primitives used by the engine *)

Module JS.

(** [!x] on a number: only zero is falsy (there is no [NaN] here). *)
Definition falsy (x : Q) : bool := Qeq_bool x 0.
Definition truthy (x : Q) : bool := negb (falsy x).

(** [x || d] on numbers. *)
Definition or_else (x d : Q) : Q := if truthy x then x else d.

(** [a < b], [a <= b], [a === b] on numbers. *)
Definition ltb (a b : Q) : bool := negb (Qle_bool b a).
Definition leb (a b : Q) : bool := Qle_bool a b.
Definition eqb (a b : Q) : bool := Qeq_bool a b.

Definition Math_floor (x : Q) : Q := inject_Z (Qfloor x).
(** [Math.round] rounds half up: floor (x + 1/2). *)
Definition Math_round (x : Q) : Z := Qfloor (x + (1 # 2)).
Definition Math_max (a b : Q) : Q := Qmax a b.
Definition Math_abs (x : Q) : Q := Qabs x.

(** A number that may be [Infinity]. *)
Inductive num : Type :=
| Fin (q : Q)
| Infinity.

(** [Array.prototype.forEach] with the element index, threading the
    variables the callback mutates as an explicit state. *)
Fixpoint forEach {A S : Type} (f : S -> A -> nat -> S) (l : list A) (idx : nat) (s : S) : S :=
  match l with
  | [] => s
  | x :: l' => forEach f l' (Datatypes.S idx) (f s x idx)
  end.

(** [Array.prototype.sort(cmp)]: the sort is stable, so the result is
    fixed by the comparator; elements are inserted from the right,
    each one in front of the first element it does not follow. *)
Fixpoint sort_insert {A : Type} (cmp : A -> A -> Z) (x : A) (l : list A) : list A :=
  match l with
  | [] => [x]
  | y :: l' => if (cmp x y <=? 0)%Z then x :: y :: l' else y :: sort_insert cmp x l'
  end.

Fixpoint Array_sort {A : Type} (cmp : A -> A -> Z) (l : list A) : list A :=
  match l with
  | [] => []
  | x :: l' => sort_insert cmp x (Array_sort cmp l')
  end.

(** [xs.length] as a number. *)
Definition len {A : Type} (l : list A) : Q := inject_Z (Z.of_nat (length l)).

(** Strings are their UTF-8 bytes.  The code points removed by
    [String.prototype.trim] (WhiteSpace and LineTerminator of
    ECMAScript), each as its UTF-8 bytes: U+0009 to
    U+000D, U+0020, U+00A0, U+1680, U+2000 to U+200A, U+2028, U+2029,
    U+202F, U+205F, U+3000 and U+FEFF. *)
Definition white_space : list (list ascii) :=
  map (map ascii_of_nat)
      [ [9]; [10]; [11]; [12]; [13]; [32];
        [194; 160];
        [225; 154; 128];
        [226; 128; 128]; [226; 128; 129]; [226; 128; 130]; [226; 128; 131];
        [226; 128; 132]; [226; 128; 133]; [226; 128; 134]; [226; 128; 135];
        [226; 128; 136]; [226; 128; 137]; [226; 128; 138];
        [226; 128; 168]; [226; 128; 169]; [226; 128; 175];
        [226; 129; 159];
        [227; 128; 128];
        [239; 187; 191] ]%nat.

(** [l] without its prefix [w], when it has it. *)
Fixpoint strip_prefix (w l : list ascii) : option (list ascii) :=
  match w, l with
  | [], _ => Some l
  | c :: w', d :: l' => if Ascii.eqb c d then strip_prefix w' l' else None
  | _ :: _, [] => None
  end.

(** [l] without its first character, when that is one of [ws]. *)
Fixpoint strip_any (ws : list (list ascii)) (l : list ascii) : option (list ascii) :=
  match ws with
  | [] => None
  | w :: ws' =>
      match strip_prefix w l with
      | Some r => Some r
      | None => strip_any ws' l
      end
  end.

(** Dropping leading characters of [ws]; [fuel] bounds their number. *)
Fixpoint drop_leading (ws : list (list ascii)) (fuel : nat) (l : list ascii) : list ascii :=
  match fuel with
  | O => l
  | S n =>
      match strip_any ws l with
      | Some r => drop_leading ws n r
      | None => l
      end
  end.

Definition trim_start (s : string) : string :=
  let l := list_ascii_of_string s in
  string_of_list_ascii (drop_leading white_space (length l) l).

(** Trailing white space is leading white space of the reversed bytes. *)
Definition trim_end (s : string) : string :=
  let l := rev (list_ascii_of_string s) in
  string_of_list_ascii (rev (drop_leading (map (@rev ascii) white_space) (length l) l)).

Definition trim (s : string) : string := trim_end (trim_start s).

(** [!s] on a string: only the empty string is falsy. *)
Definition str_falsy (s : string) : bool :=
  match s with EmptyString => true | _ => false end.

End JS.

Import JS.

(** ** Shared vocabulary *)

Inductive ModelType : Type := trend | rebound.
Inductive Status : Type := open | closed.
Inductive Side : Type := long | short.
Inductive Timeframe : Type := mid | swing.

(** A checklist item: [{ key, label, weight }] ([{ k, t, w }] in the
    console variants, with the same contents). *)
Record Item : Type := { key : string; label : string; weight : Z }.

(** [Record<string, boolean>]: a missing key reads as [undefined]. *)
Abbreviation Checklist := (gmap string bool).

(** [checklist[k] ? ... : ...] *)
Definition checked (c : Checklist) (k : string) : bool :=
  match c !! k with
  | Some b => b
  | None => false
  end.

Definition TREND_ITEMS : list Item :=
  [ {| key := "maBull"; label := "均线多头（5>10>20）"; weight := 20 |};
    {| key := "aboveMA20"; label := "股价站上MA20"; weight := 15 |};
    {| key := "weeklyUp"; label := "周线趋势向上"; weight := 15 |};
    {| key := "breakout"; label := "平台/箱体突破"; weight := 15 |};
    {| key := "breakoutVol"; label := "突破放量"; weight := 15 |};
    {| key := "pullbackVol"; label := "回调缩量"; weight := 10 |};
    {| key := "momentumOk"; label := "动能健康（MACD/RSI）"; weight := 10 |} ].

Definition REBOUND_ITEMS : list Item :=
  [ {| key := "drawdown30"; label := "跌幅>30%"; weight := 20 |};
    {| key := "support"; label := "接近历史支撑区"; weight := 20 |};
    {| key := "valueOk"; label := "估值安全（PE/PB合理）"; weight := 10 |};
    {| key := "stopK"; label := "止跌K线（长下影/反包）"; weight := 20 |};
    {| key := "firstVolUp"; label := "首次放量阳线/反转量"; weight := 15 |};
    {| key := "macdTurn"; label := "MACD低位金叉/底背离"; weight := 15 |} ].

Definition items_of (model : ModelType) : list Item :=
  match model with
  | trend => TREND_ITEMS
  | rebound => REBOUND_ITEMS
  end.

(** [items.reduce((s, x) => s + x.w, 0)] *)
Definition total_weight (items : list Item) : Z :=
  fold_left (fun s it => (s + weight it)%Z) items 0%Z.

(** [items.reduce((s, x) => s + (c[x.k] ? x.w : 0), 0)] *)
Definition got_weight (items : list Item) (c : Checklist) : Z :=
  fold_left (fun s it => (s + (if checked c (key it) then weight it else 0))%Z) items 0%Z.

(** [makeChecklist]: every key of the model set to [false]. *)
Definition makeChecklist (model : ModelType) : Checklist :=
  fold_left (fun o it => <[key it := false]> o) (items_of model) ∅.

(** [score] of src/unnamed/part_001 and src/pages/index.tsx. *)
Definition score (model : ModelType) (c : Checklist) : Z :=
  let items := items_of model in
  let total := total_weight items in
  let got := got_weight items c in
  Math_round (inject_Z got / inject_Z total * 100).

(** [clamp] and [scoreChecklist] of src/Page.tsx; the rounded value is
    an integer, so the clamp is taken on [Z]. *)
Definition clamp (n lo hi : Z) : Z := Z.max lo (Z.min hi n).

Definition scoreChecklist (model : ModelType) (c : Checklist) : Z :=
  let items := items_of model in
  let total := total_weight items in
  let got := got_weight items c in
  let pct := if (total =? 0)%Z then 0%Z else Math_round (inject_Z got / inject_Z total * 100) in
  clamp pct 0 100.

(** [toggleCheck] of the new-trade form: [{ ...c, [key]: !c[key] }]. *)
Definition toggleCheck (k : string) (c : Checklist) : Checklist :=
  <[k := negb (checked c k)]> c.

(** [verdict]: the label is kept as its tone. *)
Inductive Tone : Type := good | warn | bad.

Definition verdict (model : ModelType) (s : Z) : Tone :=
  match model with
  | trend => if (80 <=? s)%Z then good else if (70 <=? s)%Z then warn else bad
  | rebound => if (75 <=? s)%Z then good else if (65 <=? s)%Z then warn else bad
  end.

(** ** src/Page.tsx: the simple, long-only console *)

Module Page.

(** The trade object.  A draft is the same object without [id],
    [createdAt] and [updatedAt], and with the two manual-override
    flags, which [addTrade] copies into the stored trade. *)
Record Trade : Type := {
  id : option string;
  createdAt : option Z;
  updatedAt : option Z;
  symbol : string;
  name : string;
  industry : string;
  model : ModelType;
  timeframe : Timeframe;
  priceNow : Q;
  entry : Q;
  stop : Q;
  target : Q;
  positionPct : Q;
  sizeShares : Q;
  tscore : Z;
  checklist : Checklist;
  status : Status;
  exit : Q;
  pnl : Q;
  rMultiple : Q;
  tags : list string;
  notes : string;
  manualShares : bool;
  manualPct : bool
}.

Record Settings : Type := {
  equity : Q;
  maxRiskPct : Q;
  lotSize : Q;
  defaultTimeframe : Timeframe;
  defaultModel : ModelType;
  currency : string
}.

(** *** Risk and sizing *)

Record RiskPosition : Type := {
  riskPerShare : Q;
  riskMoney : Q;
  shares : Q;
  positionMoney : Q;
  rp_positionPct : Q
}.

Definition zeroRiskPosition : RiskPosition :=
  {| riskPerShare := 0; riskMoney := 0; shares := 0; positionMoney := 0; rp_positionPct := 0 |}.

(** [calcRiskPosition] in exact arithmetic, as the trade log uses it;
    [Page64.calcRiskPosition] is the same code on doubles. *)
Definition calcRiskPosition (equity maxRiskPct entry stop priceNow lotSize : Q) : RiskPosition :=
  let e := equity in
  let r := maxRiskPct / 100 in
  let en := or_else entry priceNow in
  let st := stop in
  let ls := or_else lotSize 1 in
  if falsy e || falsy r || falsy en || falsy st || leb en 0 || leb st 0 then zeroRiskPosition
  else
    let riskPerShare := Math_abs (en - st) in
    if eqb riskPerShare 0 then zeroRiskPosition
    else
      let riskMoney := e * r in
      let shares := Math_floor ((riskMoney / riskPerShare) / ls) * ls in
      let shares := Math_max 0 shares in
      let positionMoney := shares * en in
      let positionPct := if ltb 0 e then (positionMoney / e) * 100 else 0 in
      {| riskPerShare := riskPerShare; riskMoney := riskMoney; shares := shares;
         positionMoney := positionMoney; rp_positionPct := positionPct |}.

(** *** Outcome *)

Definition calcRMultiple (trade : Trade) : Q :=
  let entry := entry trade in
  let stop := stop trade in
  let exit := exit trade in
  let size := sizeShares trade in
  if falsy entry || falsy stop || falsy exit || falsy size then 0
  else
    let riskPerShare := Math_abs (entry - stop) in
    if eqb riskPerShare 0 then 0
    else
      let pnlPerShare := exit - entry in
      pnlPerShare / riskPerShare.

Definition calcPnL (trade : Trade) : Q :=
  let entry := entry trade in
  let exit := exit trade in
  let size := sizeShares trade in
  if falsy entry || falsy exit || falsy size then 0
  else (exit - entry) * size.

(** *** Data helpers *)

Definition makeBlankTrade (settings : Settings) : Trade :=
  let model := defaultModel settings in
  {| id := None; createdAt := None; updatedAt := None;
     symbol := ""; name := ""; industry := "";
     model := model; timeframe := defaultTimeframe settings;
     priceNow := 0; entry := 0; stop := 0; target := 0;
     positionPct := 0; sizeShares := 0; tscore := 0;
     checklist := makeChecklist model;
     status := open; exit := 0; pnl := 0; rMultiple := 0;
     tags := []; notes := "";
     manualShares := false; manualPct := false |}.

(** [x || d] on an optional timestamp. *)
Definition stamp_or (x : option Z) (d : Z) : Z :=
  match x with
  | Some z => if (z =? 0)%Z then d else z
  | None => d
  end.

(** [normalizeTrade]; [now] is the value of [Date.now()].  Fields that
    are already of their type are kept ([Number(x || 0)] is [x]). *)
Definition normalizeTrade (now : Z) (t : Trade) : Trade :=
  let model := model t in
  let checklist := checklist t in
  {| id := id t;
     createdAt := Some (stamp_or (createdAt t) now);
     updatedAt := Some (stamp_or (updatedAt t) now);
     symbol := trim (symbol t); name := trim (name t); industry := trim (industry t);
     model := model; timeframe := timeframe t;
     priceNow := or_else (priceNow t) 0; entry := or_else (entry t) 0;
     stop := or_else (stop t) 0; target := or_else (target t) 0;
     positionPct := or_else (positionPct t) 0; sizeShares := or_else (sizeShares t) 0;
     tscore := if (tscore t =? 0)%Z then scoreChecklist model checklist else tscore t;
     checklist := checklist;
     status := status t;
     exit := or_else (exit t) 0; pnl := or_else (pnl t) 0; rMultiple := or_else (rMultiple t) 0;
     tags := tags t; notes := notes t;
     manualShares := manualShares t; manualPct := manualPct t |}.

(** *** KPIs *)

Record Point : Type := { pt_i : nat; pt_equity : Q }.

Record KPIs : Type := {
  closedCount : nat;
  winRate : Q;
  realizedPnl : Q;
  avgWin : Q;
  avgLoss : Q;
  winLossRatio : num;
  profitFactor : num;
  avgR : Q;
  equityCurve : list Point;
  maxDrawdownPct : Q
}.

Definition is_closed (s : Status) : bool :=
  match s with closed => true | open => false end.

(** The filter and sort that select the closed trades, oldest close
    first. *)
Definition closedOf (trades : list Trade) : list Trade :=
  Array_sort (fun a b => (stamp_or (updatedAt a) 0 - stamp_or (updatedAt b) 0)%Z)
    (List.filter (fun t => is_closed (status t) && ltb 0 (exit t) && ltb 0 (entry t) && ltb 0 (sizeShares t))
            trades).

Definition winsOf (closed : list Trade) : list Trade :=
  List.filter (fun t => ltb 0 (pnl t)) closed.

Definition lossesOf (closed : list Trade) : list Trade :=
  List.filter (fun t => ltb (pnl t) 0) closed.

(** [l.reduce((s, t) => s + Number(t.pnl || 0), 0)] *)
Definition sumPnl (l : list Trade) : Q :=
  fold_left (fun s t => s + or_else (pnl t) 0) l 0.

Definition sumR (l : list Trade) : Q :=
  fold_left (fun s t => s + or_else (rMultiple t) 0) l 0.

Definition grossWin (closed : list Trade) : Q := sumPnl (winsOf closed).
Definition grossLossAbs (closed : list Trade) : Q := Math_abs (sumPnl (lossesOf closed)).

(** The variables the equity walk mutates. *)
Record Walk : Type := {
  w_eq : Q;
  w_peak : Q;
  w_maxDD : Q;
  w_curve : list Point
}.

Definition walkStep (s : Walk) (t : Trade) (idx : nat) : Walk :=
  let eq := w_eq s + or_else (pnl t) 0 in
  let peak := Math_max (w_peak s) eq in
  let dd := if ltb 0 peak then (peak - eq) / peak else 0 in
  let maxDD := Math_max (w_maxDD s) dd in
  {| w_eq := eq; w_peak := peak; w_maxDD := maxDD;
     w_curve := w_curve s ++ [ {| pt_i := idx + 1; pt_equity := eq |} ] |}.

Definition walkInit (startingEquity : Q) : Walk :=
  let eq := or_else startingEquity 0 in
  {| w_eq := eq; w_peak := eq; w_maxDD := 0;
     w_curve := [ {| pt_i := 0; pt_equity := eq |} ] |}.

Definition computeKPIs (trades : list Trade) (startingEquity : Q) : KPIs :=
  let closed := closedOf trades in
  let wins := winsOf closed in
  let losses := lossesOf closed in
  let realizedPnl := sumPnl closed in
  let winRate := if falsy (len closed) then 0 else len wins / len closed in
  let avgWin := if falsy (len wins) then 0 else sumPnl wins / len wins in
  let avgLoss := if falsy (len losses) then 0 else sumPnl losses / len losses in
  let winLossRatio :=
    if eqb avgLoss 0 then (if ltb 0 avgWin then Infinity else Fin 0)
    else Fin (Math_abs (avgWin / avgLoss)) in
  let grossWin := grossWin closed in
  let grossLossAbs := grossLossAbs closed in
  let profitFactor :=
    if eqb grossLossAbs 0 then (if ltb 0 grossWin then Infinity else Fin 0)
    else Fin (grossWin / grossLossAbs) in
  let avgR := if falsy (len closed) then 0 else sumR closed / len closed in
  let w := forEach walkStep closed 0%nat (walkInit startingEquity) in
  {| closedCount := length closed;
     winRate := winRate;
     realizedPnl := realizedPnl;
     avgWin := avgWin;
     avgLoss := avgLoss;
     winLossRatio := winLossRatio;
     profitFactor := profitFactor;
     avgR := avgR;
     equityCurve := w_curve w;
     maxDrawdownPct := w_maxDD w |}.

(** *** The application state and its mutations *)

Inductive Tab : Type := dashboard | new | trades_tab | settings_tab.

Record App : Type := {
  settings : Settings;
  trades : list Trade;
  activeTab : Tab;
  draft : Trade;
  alerts : list string
}.

Definition alert (msg : string) (a : App) : App :=
  {| settings := settings a; trades := trades a; activeTab := activeTab a;
     draft := draft a; alerts := alerts a ++ [msg] |}.

(** [addTrade]; [uid] and [now] are the values of [uid()] and
    [Date.now()]. *)
Definition addTrade (uid : string) (now : Z) (a : App) : App :=
  let draft := draft a in
  if str_falsy (trim (symbol draft)) then alert "请先填写股票代码/标的。" a
  else if falsy (stop draft) || leb (stop draft) 0 then alert "止损价必填（无止损不允许下单）。" a
  else
    let t := normalizeTrade now draft in
    let trade :=
      {| id := Some uid; createdAt := Some now; updatedAt := Some now;
         symbol := symbol t; name := name t; industry := industry t;
         model := model t; timeframe := timeframe t;
         priceNow := priceNow t; entry := entry t; stop := stop t; target := target t;
         positionPct := positionPct t; sizeShares := sizeShares t; tscore := tscore t;
         checklist := checklist t;
         status := open; exit := 0; pnl := 0; rMultiple := 0;
         tags := tags t; notes := notes t;
         manualShares := manualShares t; manualPct := manualPct t |} in
    {| settings := settings a;
       trades := trade :: trades a;
       activeTab := trades_tab;
       draft := makeBlankTrade (settings a);
       alerts := alerts a |}.

(** [{ ...t, status: "closed", exit: ep }] *)
Definition withExit (t : Trade) (ep : Q) : Trade :=
  {| id := id t; createdAt := createdAt t; updatedAt := updatedAt t;
     symbol := symbol t; name := name t; industry := industry t;
     model := model t; timeframe := timeframe t;
     priceNow := priceNow t; entry := entry t; stop := stop t; target := target t;
     positionPct := positionPct t; sizeShares := sizeShares t; tscore := tscore t;
     checklist := checklist t;
     status := closed; exit := ep; pnl := pnl t; rMultiple := rMultiple t;
     tags := tags t; notes := notes t;
     manualShares := manualShares t; manualPct := manualPct t |}.

(** [{ ...updated, pnl, rMultiple: r, updatedAt: Date.now() }] *)
Definition withOutcome (t : Trade) (p r : Q) (now : Z) : Trade :=
  {| id := id t; createdAt := createdAt t; updatedAt := Some now;
     symbol := symbol t; name := name t; industry := industry t;
     model := model t; timeframe := timeframe t;
     priceNow := priceNow t; entry := entry t; stop := stop t; target := target t;
     positionPct := positionPct t; sizeShares := sizeShares t; tscore := tscore t;
     checklist := checklist t;
     status := status t; exit := exit t; pnl := p; rMultiple := r;
     tags := tags t; notes := notes t;
     manualShares := manualShares t; manualPct := manualPct t |}.

(** [t.id !== id] *)
Definition id_differs (t : Trade) (i : string) : bool :=
  match id t with
  | Some j => negb (String.eqb j i)
  | None => true
  end.

Definition closeTrade (i : string) (exitPrice : Q) (now : Z) (a : App) : App :=
  let ep := exitPrice in
  if falsy ep || leb ep 0 then alert "请输入有效的平仓价。" a
  else
    let trades2 :=
      map (fun t =>
             if id_differs t i then t
             else
               let updated := withExit t ep in
               let p := calcPnL updated in
               let r := calcRMultiple updated in
               withOutcome updated p r now)
          (trades a) in
    {| settings := settings a; trades := trades2; activeTab := activeTab a;
       draft := draft a; alerts := alerts a |}.

(** [setField], for the numeric fields of the plan, and
    [setSharesManual] of the new-trade form. *)
Definition setPlan (sym : string) (en st : Q) (t : Trade) : Trade :=
  {| id := id t; createdAt := createdAt t; updatedAt := updatedAt t;
     symbol := sym; name := name t; industry := industry t;
     model := model t; timeframe := timeframe t;
     priceNow := priceNow t; entry := en; stop := st; target := target t;
     positionPct := positionPct t; sizeShares := sizeShares t; tscore := tscore t;
     checklist := checklist t;
     status := status t; exit := exit t; pnl := pnl t; rMultiple := rMultiple t;
     tags := tags t; notes := notes t;
     manualShares := manualShares t; manualPct := manualPct t |}.

Definition setSharesManual (v : Q) (t : Trade) : Trade :=
  {| id := id t; createdAt := createdAt t; updatedAt := updatedAt t;
     symbol := symbol t; name := name t; industry := industry t;
     model := model t; timeframe := timeframe t;
     priceNow := priceNow t; entry := entry t; stop := stop t; target := target t;
     positionPct := positionPct t; sizeShares := v; tscore := tscore t;
     checklist := checklist t;
     status := status t; exit := exit t; pnl := pnl t; rMultiple := rMultiple t;
     tags := tags t; notes := notes t;
     manualShares := true; manualPct := manualPct t |}.

Definition setDraft (f : Trade -> Trade) (a : App) : App :=
  {| settings := settings a; trades := trades a; activeTab := activeTab a;
     draft := f (draft a); alerts := alerts a |}.

(** The initial store of the component, for given settings. *)
Definition initApp (s : Settings) : App :=
  {| settings := s; trades := []; activeTab := dashboard;
     draft := makeBlankTrade s; alerts := [] |}.

Definition defaultSettings : Settings :=
  {| equity := 100000; maxRiskPct := 1; lotSize := 100;
     defaultTimeframe := mid; defaultModel := trend; currency := "CNY" |}.

(** *** Editing the draft *)

(** [setModel] of the new-trade form: the checklist restarts blank. *)
Definition setModel (m : ModelType) (t : Trade) : Trade :=
  {| id := id t; createdAt := createdAt t; updatedAt := updatedAt t; symbol := symbol t;
     name := name t; industry := industry t; model := m; timeframe := timeframe t;
     priceNow := priceNow t; entry := entry t; stop := stop t; target := target t;
     positionPct := positionPct t; sizeShares := sizeShares t; tscore := tscore t;
     checklist := makeChecklist m; status := status t; exit := exit t; pnl := pnl t;
     rMultiple := rMultiple t; tags := tags t; notes := notes t;
     manualShares := manualShares t; manualPct := manualPct t |}.

(** *** Deleting and editing stored trades *)

(** [deleteTrade]; [confirmed] is the answer given to [confirm]. *)
Definition deleteTrade (confirmed : bool) (i : string) (a : App) : App :=
  if negb confirmed then a
  else
    {| settings := settings a;
       trades := List.filter (fun t => id_differs t i) (trades a);
       activeTab := activeTab a; draft := draft a; alerts := alerts a |}.

(** A patch object: the keys it holds. *)
Record Patch : Type := {
  p_id : option string;
  p_createdAt : option Z;
  p_updatedAt : option Z;
  p_symbol : option string;
  p_name : option string;
  p_industry : option string;
  p_model : option ModelType;
  p_timeframe : option Timeframe;
  p_priceNow : option Q;
  p_entry : option Q;
  p_stop : option Q;
  p_target : option Q;
  p_positionPct : option Q;
  p_sizeShares : option Q;
  p_score : option Z;
  p_checklist : option Checklist;
  p_status : option Status;
  p_exit : option Q;
  p_pnl : option Q;
  p_rMultiple : option Q;
  p_tags : option (list string);
  p_notes : option string;
  p_manualShares : option bool;
  p_manualPct : option bool
}.

Definition patched {A : Type} (o : option A) (x : A) : A :=
  match o with
  | Some v => v
  | None => x
  end.

Definition patchedOpt {A : Type} (o : option A) (x : option A) : option A :=
  match o with
  | Some v => Some v
  | None => x
  end.

(** [{ ...t, ...patch }] *)
Definition applyPatch (t : Trade) (p : Patch) : Trade :=
  {| id := patchedOpt (p_id p) (id t);
     createdAt := patchedOpt (p_createdAt p) (createdAt t);
     updatedAt := patchedOpt (p_updatedAt p) (updatedAt t);
     symbol := patched (p_symbol p) (symbol t);
     name := patched (p_name p) (name t);
     industry := patched (p_industry p) (industry t);
     model := patched (p_model p) (model t);
     timeframe := patched (p_timeframe p) (timeframe t);
     priceNow := patched (p_priceNow p) (priceNow t);
     entry := patched (p_entry p) (entry t);
     stop := patched (p_stop p) (stop t);
     target := patched (p_target p) (target t);
     positionPct := patched (p_positionPct p) (positionPct t);
     sizeShares := patched (p_sizeShares p) (sizeShares t);
     tscore := patched (p_score p) (tscore t);
     checklist := patched (p_checklist p) (checklist t);
     status := patched (p_status p) (status t);
     exit := patched (p_exit p) (exit t);
     pnl := patched (p_pnl p) (pnl t);
     rMultiple := patched (p_rMultiple p) (rMultiple t);
     tags := patched (p_tags p) (tags t);
     notes := patched (p_notes p) (notes t);
     manualShares := patched (p_manualShares p) (manualShares t);
     manualPct := patched (p_manualPct p) (manualPct t) |}.

(** [{ ...t, updatedAt: Date.now() }] *)
Definition withUpdatedAt (t : Trade) (now : Z) : Trade :=
  {| id := id t; createdAt := createdAt t; updatedAt := Some now; symbol := symbol t;
     name := name t; industry := industry t; model := model t; timeframe := timeframe t;
     priceNow := priceNow t; entry := entry t; stop := stop t; target := target t;
     positionPct := positionPct t; sizeShares := sizeShares t; tscore := tscore t;
     checklist := checklist t; status := status t; exit := exit t; pnl := pnl t;
     rMultiple := rMultiple t; tags := tags t; notes := notes t;
     manualShares := manualShares t; manualPct := manualPct t |}.

(** [{ ...merged, pnl, rMultiple: r }] *)
Definition withPnlR (t : Trade) (p r : Q) : Trade :=
  {| id := id t; createdAt := createdAt t; updatedAt := updatedAt t; symbol := symbol t;
     name := name t; industry := industry t; model := model t; timeframe := timeframe t;
     priceNow := priceNow t; entry := entry t; stop := stop t; target := target t;
     positionPct := positionPct t; sizeShares := sizeShares t; tscore := tscore t;
     checklist := checklist t; status := status t; exit := exit t; pnl := p;
     rMultiple := r; tags := tags t; notes := notes t; manualShares := manualShares t;
     manualPct := manualPct t |}.

Definition updateTrade (i : string) (patch : Patch) (now : Z) (a : App) : App :=
  let trades2 :=
    map (fun t =>
           if id_differs t i then t
           else
             let merged := normalizeTrade now (withUpdatedAt (applyPatch t patch) now) in
             if is_closed (status merged) && truthy (exit merged) then
               let p := calcPnL merged in
               let r := calcRMultiple merged in
               withPnlR merged p r
             else merged)
        (trades a) in
  {| settings := settings a; trades := trades2; activeTab := activeTab a;
     draft := draft a; alerts := alerts a |}.

(** *** Settings, export and import *)

Record SettingsPatch : Type := {
  sp_equity : option Q;
  sp_maxRiskPct : option Q;
  sp_lotSize : option Q;
  sp_defaultTimeframe : option Timeframe;
  sp_defaultModel : option ModelType;
  sp_currency : option string
}.

(** [{ ...settings, ...patch }] *)
Definition mergeSettings (s : Settings) (p : SettingsPatch) : Settings :=
  {| equity := patched (sp_equity p) (equity s);
     maxRiskPct := patched (sp_maxRiskPct p) (maxRiskPct s);
     lotSize := patched (sp_lotSize p) (lotSize s);
     defaultTimeframe := patched (sp_defaultTimeframe p) (defaultTimeframe s);
     defaultModel := patched (sp_defaultModel p) (defaultModel s);
     currency := patched (sp_currency p) (currency s) |}.

Definition updateSettings (patch : SettingsPatch) (a : App) : App :=
  {| settings := mergeSettings (settings a) patch; trades := trades a;
     activeTab := activeTab a; draft := draft a; alerts := alerts a |}.

(** The object a backup file holds once parsed: [settings] and
    [trades] may each be missing (or, for [trades], not an array). *)
Record Payload : Type := {
  data_settings : option SettingsPatch;
  data_trades : option (list Trade)
}.

(** [exportJSON]: the store as written to the file; the JSON text
    itself is not modelled. *)
Definition exportJSON (a : App) : Payload :=
  {| data_settings :=
       Some {| sp_equity := Some (equity (settings a));
               sp_maxRiskPct := Some (maxRiskPct (settings a));
               sp_lotSize := Some (lotSize (settings a));
               sp_defaultTimeframe := Some (defaultTimeframe (settings a));
               sp_defaultModel := Some (defaultModel (settings a));
               sp_currency := Some (currency (settings a)) |};
     data_trades := Some (trades a) |}.

Definition importOk : string :=
  "导入成功。" ++ String "010" "建议你检查一下设置与交易记录是否正确。".

(** [importJSON], from the parsed file on: [data] is [None] when the
    text does not parse to an object. *)
Definition importJSON (now : Z) (data : option Payload) (a : App) : App :=
  match data with
  | Some d =>
      match data_settings d, data_trades d with
      | Some sp, Some ts =>
          let trades2 :=
            Array_sort (fun x y => (stamp_or (createdAt y) 0 - stamp_or (createdAt x) 0)%Z)
                       (map (normalizeTrade now) ts) in
          alert importOk
                {| settings := mergeSettings (settings a) sp; trades := trades2;
                   activeTab := activeTab a; draft := draft a; alerts := alerts a |}
      | _, _ => alert "导入失败：文件格式不正确。" a
      end
  | None => alert "导入失败：文件格式不正确。" a
  end.

(** *** Dashboard series *)

(** [modelPie]: closed trades counted by model, as (trend, rebound). *)
Definition modelPie (trades : list Trade) : nat * nat :=
  let t := List.filter (fun x => is_closed (status x)) trades in
  fold_left (fun acc x =>
               match model x with
               | trend => (S (fst acc), snd acc)
               | rebound => (fst acc, S (snd acc))
               end)
            t (0%nat, 0%nat).

(** [xs.map((x, i) => f(x, i))] *)
Fixpoint mapi {A B : Type} (f : A -> nat -> B) (l : list A) (i : nat) : list B :=
  match l with
  | [] => []
  | x :: l' => f x i :: mapi f l' (S i)
  end.

(** [rBars]: the R of every closed trade, oldest close first. *)
Definition rBars (trades : list Trade) : list (nat * Q) :=
  let t :=
    Array_sort (fun a b => (stamp_or (updatedAt a) 0 - stamp_or (updatedAt b) 0)%Z)
               (List.filter (fun x => is_closed (status x)) trades) in
  mapi (fun x i => ((i + 1)%nat, or_else (rMultiple x) 0)) t 0%nat.

(** *** Sessions *)

(** One user action on the store. *)
Inductive step : App -> App -> Prop :=
| step_setDraft (f : Trade -> Trade) (a : App) : step a (setDraft f a)
| step_updateSettings (p : SettingsPatch) (a : App) : step a (updateSettings p a)
| step_addTrade (uid : string) (now : Z) (a : App) : step a (addTrade uid now a)
| step_closeTrade (i : string) (ep : Q) (now : Z) (a : App) : step a (closeTrade i ep now a)
| step_updateTrade (i : string) (p : Patch) (now : Z) (a : App) :
    step a (updateTrade i p now a)
| step_deleteTrade (c : bool) (i : string) (a : App) : step a (deleteTrade c i a).

(** The states a session reaches from the initial store. *)
Inductive reachable (s : Settings) : App -> Prop :=
| reach_init : reachable s (initApp s)
| reach_step (a b : App) : reachable s a -> step a b -> reachable s b.

(** The stored outcome of a closed trade agrees with its prices. *)
Definition inSync (t : Trade) : Prop :=
  status t = closed -> truthy (exit t) = true ->
  pnl t = calcPnL t /\ rMultiple t = calcRMultiple t.

End Page.

(** ** src/unnamed/part_001: the cost- and side-aware console *)

Module Console.

Record Settings : Type := {
  s_equity : Q;
  s_maxRiskPct : Q;
  s_lotSize : Q;
  s_feePct : Q;
  s_exitFeePct : Q;
  s_slippage : Q
}.

Record Draft : Type := {
  d_symbol : string;
  d_name : string;
  d_industry : string;
  d_model : ModelType;
  d_timeframe : Timeframe;
  d_side : Side;
  d_entry : Q;
  d_stop : Q;
  d_target : Q;
  d_feePct : Q;
  d_exitFeePct : Q;
  d_slippage : Q;
  d_checklist : Checklist;
  d_tags : list string;
  d_notes : string
}.

Record Trade : Type := {
  t_side : Side;
  t_feePct : Q;
  t_exitFeePct : Q;
  t_slippage : Q;
  t_id : string;
  t_createdAt : Z;
  t_updatedAt : Z;
  t_symbol : string;
  t_name : string;
  t_industry : string;
  t_model : ModelType;
  t_timeframe : Timeframe;
  t_entry : Q;
  t_stop : Q;
  t_target : option Q;
  t_equity : Q;
  t_maxRiskPct : Q;
  t_lotSize : Q;
  t_size : Q;
  t_positionPct : Q;
  t_score : Z;
  t_checklist : Checklist;
  t_tags : list string;
  t_status : Status;
  t_exit : option Q;
  t_pnl : option Q;
  t_r : option Q;
  t_notes : string
}.

(** *** Sizing *)

Record Sizing : Type := { riskPer : Q; riskMoney : Q; size : Q; posPct : Q }.

(** [calcSizing] in exact arithmetic, as the trade log uses it;
    [Console64.calcSizing] is the same code on doubles. *)
Definition calcSizing (equity maxRiskPct entry stop lotSize : Q) (side : Side)
           (feePct exitFeePct slippage : Q) : Sizing :=
  let e := or_else entry 0 in
  let s := or_else stop 0 in
  let lot := Math_max 1 (or_else lotSize 1) in
  let fee := or_else feePct 0 in
  let exitFee := or_else exitFeePct 0 in
  let slip := or_else slippage 0 in
  let priceRisk := match side with long => e - s | short => s - e end in
  let costRisk := e * (fee / 100) + s * (fee / 100) + s * (exitFee / 100) + 2 * slip in
  let riskPer := Math_max 0 (priceRisk + costRisk) in
  let riskMoney := equity * (maxRiskPct / 100) in
  let rawSize := if ltb 0 riskPer then Math_floor (riskMoney / riskPer) else 0 in
  let size := Math_floor (rawSize / lot) * lot in
  let posPct := if ltb 0 equity then (size * e) / equity * 100 else 0 in
  {| riskPer := riskPer; riskMoney := riskMoney; size := size; posPct := posPct |}.

(** *** Outcome *)

Definition calcCosts (entry exit size feePct exitFeePct slippage : Q) : Q :=
  let notionalEntry := entry * size in
  let notionalExit := exit * size in
  let fee := (notionalEntry + notionalExit) * (feePct / 100) in
  let exitFee := notionalExit * (exitFeePct / 100) in
  let slip := Math_abs slippage * size * 2 in
  fee + exitFee + slip.

Definition calcPnL (entry exit size : Q) (side : Side) (feePct exitFeePct slippage : Q) : Q :=
  if falsy entry || falsy exit || falsy size then 0
  else
    let gross := match side with long => (exit - entry) * size | short => (entry - exit) * size end in
    let costs := calcCosts entry exit size feePct exitFeePct slippage in
    gross - costs.

Definition calcR (entry stop exit : Q) (side : Side) (feePct exitFeePct slippage : Q) : Q :=
  let riskPer := match side with long => entry - stop | short => stop - entry end in
  if falsy riskPer || leb riskPer 0 then 0
  else
    let pnl := calcPnL entry exit 1 side feePct exitFeePct slippage in
    pnl / riskPer.

(** *** The application state and its mutations *)

Inductive Tab : Type := dashboard | new | log | settings_tab.

Record App : Type := {
  settings : Settings;
  trades : list Trade;
  tab : Tab;
  draft : Draft;
  alerts : list string
}.

Definition alert (msg : string) (a : App) : App :=
  {| settings := settings a; trades := trades a; tab := tab a;
     draft := draft a; alerts := alerts a ++ [msg] |}.

Definition blankDraft (settings : Settings) : Draft :=
  {| d_symbol := ""; d_name := ""; d_industry := "";
     d_model := trend; d_timeframe := mid; d_side := long;
     d_entry := 0; d_stop := 0; d_target := 0;
     d_feePct := s_feePct settings; d_exitFeePct := s_exitFeePct settings;
     d_slippage := s_slippage settings;
     d_checklist := makeChecklist trend; d_tags := []; d_notes := "" |}.

(** The memoised [sizing] of the component. *)
Definition sizing (a : App) : Sizing :=
  calcSizing (s_equity (settings a)) (s_maxRiskPct (settings a))
             (d_entry (draft a)) (d_stop (draft a)) (s_lotSize (settings a))
             (d_side (draft a)) (d_feePct (draft a)) (d_exitFeePct (draft a))
             (d_slippage (draft a)).

Definition is_short (s : Side) : bool := match s with short => true | long => false end.
Definition is_long (s : Side) : bool := match s with long => true | short => false end.

(** [addTrade]; [uid] and [now] are the values of [uid()] and
    [Date.now()]. *)
Definition addTrade (uid : string) (now : Z) (a : App) : App :=
  let draft := draft a in
  if str_falsy (trim (d_symbol draft)) then alert "请填写股票代码/标的。" a
  else if falsy (d_stop draft) || leb (d_stop draft) 0 then alert "止损价必填（无止损不允许下单）。" a
  else if falsy (d_entry draft) || leb (d_entry draft) 0 then alert "入场价必填。" a
  else if is_short (d_side draft) && leb (d_stop draft) (d_entry draft)
       then alert "做空时止损一般应高于入场价（stop > entry）。" a
  else if is_long (d_side draft) && leb (d_entry draft) (d_stop draft)
       then alert "做多时止损一般应低于入场价（stop < entry）。" a
  else
    let t :=
      {| t_id := uid; t_createdAt := now; t_updatedAt := now;
         t_symbol := trim (d_symbol draft);
         t_name := trim (d_name draft);
         t_industry := trim (d_industry draft);
         t_model := d_model draft; t_timeframe := d_timeframe draft;
         t_side := d_side draft;
         t_feePct := d_feePct draft; t_exitFeePct := d_exitFeePct draft;
         t_slippage := d_slippage draft;
         t_entry := d_entry draft; t_stop := d_stop draft;
         t_target := if truthy (d_target draft) then Some (d_target draft) else None;
         t_equity := s_equity (settings a);
         t_maxRiskPct := s_maxRiskPct (settings a);
         t_lotSize := s_lotSize (settings a);
         t_size := size (sizing a);
         t_positionPct := posPct (sizing a);
         t_score := score (d_model draft) (d_checklist draft);
         t_checklist := d_checklist draft;
         t_tags := d_tags draft;
         t_notes := d_notes draft;
         t_status := open;
         t_exit := None; t_pnl := None; t_r := None |} in
    {| settings := settings a;
       trades := t :: trades a;
       tab := log;
       draft := blankDraft (settings a);
       alerts := alerts a |}.

(** *** KPIs *)

Record KPI : Type := {
  closedCount : nat;
  winRate : Q;
  profitFactor : num;
  avgR : Q;
  grossWin : Q;
  grossLossAbs : Q
}.

(** [x || 0] on an optional number. *)
Definition num_or0 (x : option Q) : Q :=
  match x with
  | Some q => or_else q 0
  | None => 0
  end.

Definition is_closed (s : Status) : bool :=
  match s with closed => true | open => false end.

Definition is_number (x : option Q) : bool :=
  match x with Some _ => true | None => false end.

Definition sumPnl (l : list Trade) : Q :=
  fold_left (fun s t => s + num_or0 (t_pnl t)) l 0.

Definition sumR (l : list Trade) : Q :=
  fold_left (fun s t => s + num_or0 (t_r t)) l 0.

Definition kpi (trades : list Trade) : KPI :=
  let closed := List.filter (fun t => is_closed (t_status t) && is_number (t_pnl t)) trades in
  let wins := List.filter (fun t => ltb 0 (num_or0 (t_pnl t))) closed in
  let losses := List.filter (fun t => ltb (num_or0 (t_pnl t)) 0) closed in
  let winRate := if falsy (len closed) then 0 else len wins / len closed in
  let grossWin := sumPnl wins in
  let grossLossAbs := Math_abs (sumPnl losses) in
  let profitFactor :=
    if eqb grossLossAbs 0 then (if ltb 0 grossWin then Infinity else Fin 0)
    else Fin (grossWin / grossLossAbs) in
  let avgR := if falsy (len closed) then 0 else sumR closed / len closed in
  {| closedCount := length closed; winRate := winRate; profitFactor := profitFactor;
     avgR := avgR; grossWin := grossWin; grossLossAbs := grossLossAbs |}.

(** *** Editing the draft and the settings *)

(** The model selector of the form: the checklist restarts blank. *)
Definition setModel (m : ModelType) (d : Draft) : Draft :=
  {| d_symbol := d_symbol d; d_name := d_name d; d_industry := d_industry d; d_model := m;
     d_timeframe := d_timeframe d; d_side := d_side d; d_entry := d_entry d;
     d_stop := d_stop d; d_target := d_target d; d_feePct := d_feePct d;
     d_exitFeePct := d_exitFeePct d; d_slippage := d_slippage d;
     d_checklist := makeChecklist m; d_tags := d_tags d; d_notes := d_notes d |}.

Definition setDraft (f : Draft -> Draft) (a : App) : App :=
  {| settings := settings a; trades := trades a; tab := tab a;
     draft := f (draft a); alerts := alerts a |}.

Definition setSettings (f : Settings -> Settings) (a : App) : App :=
  {| settings := f (settings a); trades := trades a; tab := tab a;
     draft := draft a; alerts := alerts a |}.

Definition resetDraft (a : App) : App :=
  {| settings := settings a; trades := trades a; tab := tab a;
     draft := blankDraft (settings a); alerts := alerts a |}.

(** *** Deleting and closing stored trades *)

(** [delTrade]; [confirmed] is the answer given to [confirm]. *)
Definition delTrade (confirmed : bool) (i : string) (a : App) : App :=
  if negb confirmed then a
  else
    {| settings := settings a;
       trades := List.filter (fun t => negb (String.eqb (t_id t) i)) (trades a);
       tab := tab a; draft := draft a; alerts := alerts a |}.

(** [{ ...t, status: "closed", exit, pnl, r, updatedAt: Date.now() }] *)
Definition closed_at (t : Trade) (ex p r : Q) (now : Z) : Trade :=
  {| t_side := t_side t; t_feePct := t_feePct t; t_exitFeePct := t_exitFeePct t;
     t_slippage := t_slippage t; t_id := t_id t; t_createdAt := t_createdAt t;
     t_updatedAt := now; t_symbol := t_symbol t; t_name := t_name t;
     t_industry := t_industry t; t_model := t_model t; t_timeframe := t_timeframe t;
     t_entry := t_entry t; t_stop := t_stop t; t_target := t_target t;
     t_equity := t_equity t; t_maxRiskPct := t_maxRiskPct t; t_lotSize := t_lotSize t;
     t_size := t_size t; t_positionPct := t_positionPct t; t_score := t_score t;
     t_checklist := t_checklist t; t_tags := t_tags t; t_status := closed;
     t_exit := Some ex; t_pnl := Some p; t_r := Some r; t_notes := t_notes t |}.

(** [closeTrade]; [exitStr] is the number read from the prompt, [None]
    when the prompt is cancelled or left empty. *)
Definition closeTrade (i : string) (exitStr : option Q) (now : Z) (a : App) : App :=
  match exitStr with
  | None => a
  | Some ex =>
      if falsy ex || leb ex 0 then alert "平仓价无效。" a
      else
        let trades2 :=
          map (fun t =>
                 if negb (String.eqb (t_id t) i) then t
                 else
                   let p := calcPnL (t_entry t) ex (t_size t) (t_side t)
                                    (t_feePct t) (t_exitFeePct t) (t_slippage t) in
                   let r := calcR (t_entry t) (t_stop t) ex (t_side t)
                                  (t_feePct t) (t_exitFeePct t) (t_slippage t) in
                   closed_at t ex p r now)
              (trades a) in
        {| settings := settings a; trades := trades2; tab := tab a;
           draft := draft a; alerts := alerts a |}
  end.

(** *** Sessions *)

(** One user action on the console. *)
Inductive step : App -> App -> Prop :=
| step_setDraft (f : Draft -> Draft) (a : App) : step a (setDraft f a)
| step_setSettings (f : Settings -> Settings) (a : App) : step a (setSettings f a)
| step_resetDraft (a : App) : step a (resetDraft a)
| step_addTrade (uid : string) (now : Z) (a : App) : step a (addTrade uid now a)
| step_closeTrade (i : string) (ex : option Q) (now : Z) (a : App) :
    step a (closeTrade i ex now a)
| step_delTrade (c : bool) (i : string) (a : App) : step a (delTrade c i a).

(** The states a session reaches from an empty log. *)
Inductive reachable : App -> Prop :=
| reach_init (s : Settings) (d : Draft) (tb : Tab) :
    reachable {| settings := s; trades := []; tab := tb; draft := d; alerts := [] |}
| reach_step (a b : App) : reachable a -> step a b -> reachable b.

(** What [addTrade] checks and records about a trade. *)
Definition wellFormed (t : Trade) : Prop :=
  0 < t_entry t /\ 0 < t_stop t /\
  match t_side t with
  | long => t_stop t < t_entry t
  | short => t_entry t < t_stop t
  end /\
  t_size t = size (calcSizing (t_equity t) (t_maxRiskPct t) (t_entry t) (t_stop t)
                              (t_lotSize t) (t_side t) (t_feePct t) (t_exitFeePct t)
                              (t_slippage t)).

(** What [closeTrade] records: nothing while the trade is open; the
    exit price and the PnL and R computed from it once it is closed. *)
Definition outcomeRecorded (t : Trade) : Prop :=
  match t_status t with
  | open => t_exit t = None /\ t_pnl t = None /\ t_r t = None
  | closed =>
      exists ex : Q,
        0 < ex /\ t_exit t = Some ex /\
        t_pnl t = Some (calcPnL (t_entry t) ex (t_size t) (t_side t)
                                (t_feePct t) (t_exitFeePct t) (t_slippage t)) /\
        t_r t = Some (calcR (t_entry t) (t_stop t) ex (t_side t)
                            (t_feePct t) (t_exitFeePct t) (t_slippage t))
  end.

(** What holds of every trade the console stores. *)
Definition stored (t : Trade) : Prop := wellFormed t /\ outcomeRecorded t.

End Console.

(** ** IEEE 754 double precision

    The sizers divide, take whole parts of quotients and test
    [riskPer > 0] on numbers that are themselves results of roundings, so
    that one unit in the last place can decide a branch or a lot count.
    For them a [number] is modelled as the binary64 value the engine
    computes with: a rational that the format represents, [Infinity],
    [-Infinity] or [NaN], every arithmetic operation being the exact one
    followed by [round], the rounding to the nearest representable number,
    ties to the even significand.  The sign of a zero is not tracked: the
    sizers never divide by a zero, which is the only way they could
    observe it. *)

Module F64.

Inductive t : Type :=
| Num (q : Q)
| PosInf
| NegInf
| NaN.

(** [2^e], for any integer [e]. *)
Definition pow2 (e : Z) : Q := 2 ^ e.

(** The binary exponent of a positive rational: [2^k <= q < 2^(k+1)]. *)
Definition ilog2 (q : Q) : Z :=
  let k := (Z.log2 (Qnum q) - Z.log2 (Zpos (Qden q)))%Z in
  if Qle_bool (pow2 k) q then k else (k - 1)%Z.

(** The nearest integer, a tie going to the even one. *)
Definition rne (x : Q) : Z :=
  let f := Qfloor x in
  match Qcompare (x - inject_Z f) (1 # 2) with
  | Lt => f
  | Gt => (f + 1)%Z
  | Eq => if Z.even f then f else (f + 1)%Z
  end.

(** The exponent of the unit in the last place of a positive [x]: 53
    significant bits, and no exponent below that of the subnormals. *)
Definition ulp_exp (x : Q) : Z := Z.max (ilog2 x - 52) (-1074).

(** Rounding of a positive rational, exponent unbounded above. *)
Definition round_pos (x : Q) : Q :=
  inject_Z (rne (x / pow2 (ulp_exp x))) * pow2 (ulp_exp x).

(** Rounding to binary64: a result of magnitude [2^1024] or more
    overflows to an infinity.  Finite results are in lowest terms. *)
Definition round (q : Q) : t :=
  match Qcompare q 0 with
  | Eq => Num 0
  | Gt => let r := round_pos q in
          if Qle_bool (pow2 1024) r then PosInf else Num (Qred r)
  | Lt => let r := round_pos (- q) in
          if Qle_bool (pow2 1024) r then NegInf else Num (Qred (- r))
  end.

(** The double a decimal literal or a parsed input field denotes. *)
Definition lit (q : Q) : t := round q.

Definition neg (a : t) : t :=
  match a with
  | Num x => Num (- x)
  | PosInf => NegInf
  | NegInf => PosInf
  | NaN => NaN
  end.

Definition add (a b : t) : t :=
  match a, b with
  | NaN, _ | _, NaN => NaN
  | PosInf, NegInf | NegInf, PosInf => NaN
  | PosInf, _ | _, PosInf => PosInf
  | NegInf, _ | _, NegInf => NegInf
  | Num x, Num y => round (x + y)
  end.

Definition sub (a b : t) : t := add a (neg b).

(** The sign of a value ([Eq] for a zero and for [NaN]). *)
Definition sign (a : t) : comparison :=
  match a with
  | Num x => Qcompare x 0
  | PosInf => Gt
  | NegInf => Lt
  | NaN => Eq
  end.

Definition signed_inf (s : comparison) : t :=
  match s with
  | Gt => PosInf
  | Lt => NegInf
  | Eq => NaN
  end.

Definition sign_mul (s1 s2 : comparison) : comparison :=
  match s1, s2 with
  | Eq, _ | _, Eq => Eq
  | Gt, s | s, Gt => s
  | Lt, Lt => Gt
  end.

(** [a * b]: an infinity times a zero is [NaN]. *)
Definition mul (a b : t) : t :=
  match a, b with
  | NaN, _ | _, NaN => NaN
  | Num x, Num y => round (x * y)
  | _, _ => signed_inf (sign_mul (sign a) (sign b))
  end.

(** [a / b]; a zero divisor is taken as [+0]. *)
Definition div (a b : t) : t :=
  match a, b with
  | NaN, _ | _, NaN => NaN
  | Num x, Num y => if Qeq_bool y 0 then signed_inf (Qcompare x 0) else round (x / y)
  | Num _, _ => Num 0
  | _, Num y => signed_inf (sign_mul (sign a) (if Qeq_bool y 0 then Gt else Qcompare y 0))
  | _, _ => NaN
  end.

(** [a < b], [a <= b], [a === b]: false as soon as one side is [NaN]. *)
Definition ltb (a b : t) : bool :=
  match a, b with
  | NaN, _ | _, NaN => false
  | Num x, Num y => negb (Qle_bool y x)
  | _, NegInf | PosInf, _ => false
  | _, _ => true
  end.

Definition leb (a b : t) : bool :=
  match a, b with
  | NaN, _ | _, NaN => false
  | Num x, Num y => Qle_bool x y
  | NegInf, _ | _, PosInf => true
  | _, _ => false
  end.

Definition eqb (a b : t) : bool :=
  match a, b with
  | Num x, Num y => Qeq_bool x y
  | PosInf, PosInf | NegInf, NegInf => true
  | _, _ => false
  end.

(** [!a]: zero and [NaN] are falsy. *)
Definition falsy (a : t) : bool :=
  match a with
  | Num x => Qeq_bool x 0
  | NaN => true
  | _ => false
  end.

(** [a || d] *)
Definition or_else (a d : t) : t := if falsy a then d else a.

(** The whole part of a double is a double. *)
Definition Math_floor (a : t) : t :=
  match a with
  | Num x => Num (inject_Z (Qfloor x))
  | _ => a
  end.

(** [Math.max(a, b)]: [NaN] if either is. *)
Definition Math_max (a b : t) : t :=
  match a, b with
  | NaN, _ | _, NaN => NaN
  | _, _ => if ltb a b then b else a
  end.

Definition Math_abs (a : t) : t :=
  match a with
  | Num x => Num (Qabs x)
  | NaN => NaN
  | _ => PosInf
  end.

(** The unit roundoff, [2^-53]. *)
Definition eps : Q := pow2 (-53).

(** The largest whole number below which every whole number is a
    double, [Number.MAX_SAFE_INTEGER]. *)
Definition max_safe : Z := (2 ^ 53 - 1)%Z.

(** A hardware double as a value of the model. *)
Definition of_float (f : PrimFloat.float) : t :=
  match Prim2SF f with
  | S754_zero _ => Num 0
  | S754_infinity false => PosInf
  | S754_infinity true => NegInf
  | S754_nan => NaN
  | S754_finite s m e =>
      Num (Qred ((if s then - inject_Z (Zpos m) else inject_Z (Zpos m)) * pow2 e))
  end.

(** Same double. *)
Definition same (a b : t) : bool :=
  match a, b with
  | Num p, Num q => Qeq_bool p q
  | PosInf, PosInf | NegInf, NegInf | NaN, NaN => true
  | _, _ => false
  end.

(** The four operations of the model against those of the hardware. *)
Definition agrees (a b : PrimFloat.float) : bool :=
  same (add (of_float a) (of_float b)) (of_float (a + b)%float)
  && same (sub (of_float a) (of_float b)) (of_float (a - b)%float)
  && same (mul (of_float a) (of_float b)) (of_float (a * b)%float)
  && same (div (of_float a) (of_float b)) (of_float (a / b)%float).

End F64.

(** ** The sizer of src/unnamed/part_001 on doubles *)

Module Console64.

Import F64.

Record Sizing : Type := { riskPer : t; riskMoney : t; size : t; posPct : t }.

Definition calcSizing (equity maxRiskPct entry stop lotSize : t) (side : Side)
           (feePct exitFeePct slippage : t) : Sizing :=
  let e := or_else entry (Num 0) in
  let s := or_else stop (Num 0) in
  let lot := Math_max (Num 1) (or_else lotSize (Num 1)) in
  let fee := or_else feePct (Num 0) in
  let exitFee := or_else exitFeePct (Num 0) in
  let slip := or_else slippage (Num 0) in
  let priceRisk := match side with long => sub e s | short => sub s e end in
  let costRisk :=
    add (add (add (mul e (div fee (Num 100))) (mul s (div fee (Num 100))))
             (mul s (div exitFee (Num 100))))
        (mul (Num 2) slip) in
  let riskPer := Math_max (Num 0) (add priceRisk costRisk) in
  let riskMoney := mul equity (div maxRiskPct (Num 100)) in
  let rawSize := if ltb (Num 0) riskPer then Math_floor (div riskMoney riskPer) else Num 0 in
  let size := mul (Math_floor (div rawSize lot)) lot in
  let posPct := if ltb (Num 0) equity then mul (div (mul size e) equity) (Num 100) else Num 0 in
  {| riskPer := riskPer; riskMoney := riskMoney; size := size; posPct := posPct |}.

(** The local constant [priceRisk + costRisk] of [calcSizing]. *)
Definition totalRisk (entry stop : t) (side : Side) (feePct exitFeePct slippage : t) : t :=
  let e := or_else entry (Num 0) in
  let s := or_else stop (Num 0) in
  let fee := or_else feePct (Num 0) in
  let exitFee := or_else exitFeePct (Num 0) in
  let slip := or_else slippage (Num 0) in
  let priceRisk := match side with long => sub e s | short => sub s e end in
  let costRisk :=
    add (add (add (mul e (div fee (Num 100))) (mul s (div fee (Num 100))))
             (mul s (div exitFee (Num 100))))
        (mul (Num 2) slip) in
  add priceRisk costRisk.

End Console64.

(** ** The sizer of src/Page.tsx on doubles *)

Module Page64.

Import F64.

Record RiskPosition : Type := {
  riskPerShare : t;
  riskMoney : t;
  shares : t;
  positionMoney : t;
  positionPct : t
}.

Definition zeroRiskPosition : RiskPosition :=
  {| riskPerShare := Num 0; riskMoney := Num 0; shares := Num 0;
     positionMoney := Num 0; positionPct := Num 0 |}.

Definition calcRiskPosition (equity maxRiskPct entry stop priceNow lotSize : t) : RiskPosition :=
  let e := equity in
  let r := div maxRiskPct (Num 100) in
  let en := or_else entry priceNow in
  let st := stop in
  let ls := or_else lotSize (Num 1) in
  if falsy e || falsy r || falsy en || falsy st || leb en (Num 0) || leb st (Num 0)
  then zeroRiskPosition
  else
    let riskPerShare := Math_abs (sub en st) in
    if eqb riskPerShare (Num 0) then zeroRiskPosition
    else
      let riskMoney := mul e r in
      let shares := mul (Math_floor (div (div riskMoney riskPerShare) ls)) ls in
      let shares := Math_max (Num 0) shares in
      let positionMoney := mul shares en in
      let positionPct := if ltb (Num 0) e then mul (div positionMoney e) (Num 100) else Num 0 in
      {| riskPerShare := riskPerShare; riskMoney := riskMoney; shares := shares;
         positionMoney := positionMoney; positionPct := positionPct |}.

End Page64.

(** ** Sample sessions

    States reached through the mutations above, used to evaluate the
    engine on concrete inputs. *)

Module Samples.

(** An account of 1000 on which the user types a size of 1000 shares
    at entry 10 (stop 9), and closes the trade at 5. *)
Definition smallAccount : Page.Settings :=
  {| Page.equity := 1000; Page.maxRiskPct := 1; Page.lotSize := 100;
     Page.defaultTimeframe := mid; Page.defaultModel := trend; Page.currency := "CNY" |}.

Definition leveragedOpen : Page.App :=
  Page.addTrade "t1" 1
    (Page.setDraft (Page.setSharesManual 1000)
       (Page.setDraft (Page.setPlan "600089" 10 9) (Page.initApp smallAccount))).

Definition leveragedLoss : Page.App := Page.closeTrade "t1" 5 2 leveragedOpen.

(** A second, winning trade closed after the first. *)
Definition leveragedThenWin : Page.App :=
  Page.closeTrade "t2" 12 4
    (Page.addTrade "t2" 3
       (Page.setDraft (Page.setSharesManual 100)
          (Page.setDraft (Page.setPlan "600519" 10 9) leveragedLoss))).

(** A draft whose stop (11) lies above its entry (10), on the default
    settings; then saved and closed at 12. *)
Definition invertedDraft : Page.App :=
  Page.setDraft (Page.setSharesManual 100)
    (Page.setDraft (Page.setPlan "600089" 10 11) (Page.initApp Page.defaultSettings)).

Definition invertedClosed : Page.App :=
  Page.closeTrade "t1" 12 2 (Page.addTrade "t1" 1 invertedDraft).

(** A draft without a stop. *)
Definition noStopDraft : Page.App :=
  Page.setDraft (Page.setPlan "600089" 10 0) (Page.initApp Page.defaultSettings).

(** The cost-aware console on its initial settings, with a long draft
    whose stop (11) lies above its entry (10). *)
Definition consoleSettings : Console.Settings :=
  {| Console.s_equity := 100000; Console.s_maxRiskPct := 1; Console.s_lotSize := 100;
     Console.s_feePct := 3 # 100; Console.s_exitFeePct := 1 # 10;
     Console.s_slippage := 1 # 100 |}.

Definition consoleDraft (side : Side) (en st : Q) : Console.Draft :=
  {| Console.d_symbol := "600089"; Console.d_name := ""; Console.d_industry := "";
     Console.d_model := trend; Console.d_timeframe := mid; Console.d_side := side;
     Console.d_entry := en; Console.d_stop := st; Console.d_target := 0;
     Console.d_feePct := Console.s_feePct consoleSettings;
     Console.d_exitFeePct := Console.s_exitFeePct consoleSettings;
     Console.d_slippage := Console.s_slippage consoleSettings;
     Console.d_checklist := makeChecklist trend; Console.d_tags := [];
     Console.d_notes := "" |}.

Definition consoleWith (side : Side) (en st : Q) : Console.App :=
  {| Console.settings := consoleSettings; Console.trades := [];
     Console.tab := Console.new; Console.draft := consoleDraft side en st;
     Console.alerts := [] |}.

(** A long plan with entry 10 and stop 9, saved and then stopped out. *)
Definition consoleOpen : Console.App := Console.addTrade "t1" 1 (consoleWith long 10 9).

Definition consoleStopped : Console.App := Console.closeTrade "t1" (Some 9) 2 consoleOpen.

End Samples.

(** ** Vocabulary of the statements *)

(** The verdicts from worst to best. *)
Definition tone_rank (t : Tone) : nat :=
  match t with
  | bad => 0
  | warn => 1
  | good => 2
  end.


(** The keys of a model's checklist. *)
Definition keys_of (model : ModelType) : list string := map key (items_of model).

(** * Properties *)

(** ** The primitives *)

Section Primitives.

Lemma falsy_spec (x : Q) : reflect (x == 0) (falsy x).
Proof.
  unfold falsy. destruct (Qeq_bool x 0) eqn:E; constructor.
  - now apply Qeq_bool_iff.
  - intro H. apply Qeq_bool_iff in H. congruence.
Qed.

Lemma eqb_spec (a b : Q) : reflect (a == b) (eqb a b).
Proof.
  unfold eqb. destruct (Qeq_bool a b) eqn:E; constructor.
  - now apply Qeq_bool_iff.
  - intro H. apply Qeq_bool_iff in H. congruence.
Qed.

Lemma leb_spec (a b : Q) : reflect (a <= b) (leb a b).
Proof.
  unfold leb. destruct (Qle_bool a b) eqn:E; constructor.
  - now apply Qle_bool_iff.
  - intro H. apply Qle_bool_iff in H. congruence.
Qed.

Lemma ltb_spec (a b : Q) : reflect (a < b) (ltb a b).
Proof.
  unfold ltb. destruct (Qle_bool b a) eqn:E; constructor.
  - apply Qle_bool_iff in E. now apply Qle_not_lt.
  - apply Qnot_le_lt. intro H. apply Qle_bool_iff in H. congruence.
Qed.

Lemma or_else_0 (x : Q) : or_else x 0 == x.
Proof.
  unfold or_else, truthy. destruct (falsy_spec x) as [H|H]; simpl.
  - now rewrite H.
  - reflexivity.
Qed.

Lemma or_else_1_ge1 (x : Q) : 1 <= x -> or_else x 1 == x.
Proof.
  intros Hx. unfold or_else, truthy. destruct (falsy_spec x) as [H|H]; simpl.
  - lra.
  - reflexivity.
Qed.



Lemma Math_floor_0 : Math_floor 0 == 0.
Proof. reflexivity. Qed.

(** The floor is the only integer [n] with [n <= x < n + 1]. *)
Lemma Qfloor_unique (x : Q) (n : Z) :
  inject_Z n <= x -> x < inject_Z (n + 1) -> Qfloor x = n.
Proof.
  intros Hlo Hhi.
  pose proof (Qfloor_le x) as H1. pose proof (Qlt_floor x) as H2.
  assert (Ha : inject_Z (Qfloor x) < inject_Z (n + 1)) by lra.
  assert (Hb : inject_Z n < inject_Z (Qfloor x + 1)) by lra.
  rewrite <- Zlt_Qlt in Ha, Hb. lia.
Qed.

Lemma Math_round_percent (g : Z) : Math_round (inject_Z g / inject_Z 100 * 100) = g.
Proof.
  unfold Math_round. apply Qfloor_unique.
  - assert (E : inject_Z g / inject_Z 100 * 100 == inject_Z g) by (field; discriminate).
    rewrite E. lra.
  - assert (E : inject_Z g / inject_Z 100 * 100 == inject_Z g) by (field; discriminate).
    rewrite E. rewrite inject_Z_plus. change (inject_Z 1) with 1. lra.
Qed.

End Primitives.

(** ** The stable sort *)

Section StableSort.

Context {A : Type} (sortKey : A -> Z).

Let cmp (a b : A) : Z := (sortKey a - sortKey b)%Z.

Lemma sort_insert_perm (x : A) (l : list A) : Permutation (sort_insert cmp x l) (x :: l).
Proof.
  induction l as [|y l IH]; simpl.
  - reflexivity.
  - destruct (cmp x y <=? 0)%Z; [reflexivity |].
    rewrite IH. apply perm_swap.
Qed.

Lemma Array_sort_perm (l : list A) : Permutation (Array_sort cmp l) l.
Proof.
  induction l as [|x l IH]; simpl.
  - reflexivity.
  - rewrite sort_insert_perm. now rewrite IH.
Qed.

Lemma sort_insert_sorted (x : A) (l : list A) :
  StronglySorted (fun a b => (sortKey a <= sortKey b)%Z) l ->
  StronglySorted (fun a b => (sortKey a <= sortKey b)%Z) (sort_insert cmp x l).
Proof.
  induction 1 as [|y l Hs IH Hy]; simpl.
  - repeat constructor.
  - unfold cmp at 1. destruct (Z.leb_spec (sortKey x - sortKey y) 0) as [Hle|Hgt].
    + constructor; [now constructor |].
      constructor; [lia |].
      eapply List.Forall_impl; [| exact Hy]. simpl. intros. lia.
    + constructor; [exact IH |].
      eapply Permutation_Forall; [symmetry; apply sort_insert_perm |].
      constructor; [lia | exact Hy].
Qed.

Lemma Array_sort_sorted (l : list A) :
  StronglySorted (fun a b => (sortKey a <= sortKey b)%Z) (Array_sort cmp l).
Proof.
  induction l as [|x l IH]; simpl.
  - constructor.
  - now apply sort_insert_sorted.
Qed.

(** Stability: elements with equal keys keep their order. *)
Lemma sort_insert_stable (k : Z) (x : A) (l : list A) :
  List.filter (fun a => (sortKey a =? k)%Z) (sort_insert cmp x l)
  = List.filter (fun a => (sortKey a =? k)%Z) (x :: l).
Proof.
  induction l as [|y l IH]; [reflexivity |].
  cbn [sort_insert]. unfold cmp at 1.
  destruct (Z.leb_spec (sortKey x - sortKey y) 0) as [Hle|Hgt]; [reflexivity |].
  cbn [List.filter] in *.
  destruct (Z.eqb_spec (sortKey y) k) as [Hy|Hy];
    destruct (Z.eqb_spec (sortKey x) k) as [Hx|Hx];
    rewrite IH; first [reflexivity | lia].
Qed.

Lemma Array_sort_stable (k : Z) (l : list A) :
  List.filter (fun a => (sortKey a =? k)%Z) (Array_sort cmp l)
  = List.filter (fun a => (sortKey a =? k)%Z) l.
Proof.
  induction l as [|x l IH]; [reflexivity |].
  cbn [Array_sort]. rewrite sort_insert_stable. cbn [List.filter]. now rewrite IH.
Qed.

End StableSort.

Example Array_sort_example :
  Array_sort (fun a b => (fst a - fst b)%Z) [(3, "c"); (1, "a"); (3, "d"); (2, "b")]%Z
  = [(1, "a"); (2, "b"); (3, "c"); (3, "d")]%Z.
Proof. reflexivity. Qed.

Example trim_example :
  trim "  600089 	" = "600089" /\ str_falsy (trim "   ") = true /\
  str_falsy (trim "　") = true /\ trim "　 平安银行 　" = "平安银行".
Proof. repeat split. Qed.

(** Case analysis on the boolean tests of the code. *)
Ltac js_test :=
  match goal with
  | |- context [falsy ?x] => destruct (falsy_spec x); simpl
  | |- context [eqb ?x ?y] => destruct (eqb_spec x y); simpl
  | |- context [leb ?x ?y] => destruct (leb_spec x y); simpl
  | |- context [ltb ?x ?y] => destruct (ltb_spec x y); simpl
  end.

(** ** Scorer *)

Section Scorer.

Local Open Scope Z_scope.

Lemma fold_add_shift {A : Type} (f : A -> Z) (l : list A) (a : Z) :
  fold_left (fun s x => s + f x) l a = a + fold_left (fun s x => s + f x) l 0.
Proof.
  revert a. induction l as [|x l IH]; intros a; simpl.
  - lia.
  - rewrite (IH (a + f x)), (IH (0 + f x)). lia.
Qed.

Lemma total_weight_cons (it : Item) (items : list Item) :
  total_weight (it :: items) = weight it + total_weight items.
Proof. unfold total_weight. simpl. now rewrite fold_add_shift. Qed.

Lemma got_weight_cons (it : Item) (items : list Item) (c : Checklist) :
  got_weight (it :: items) c =
  (if checked c (key it) then weight it else 0) + got_weight items c.
Proof.
  unfold got_weight. simpl.
  now rewrite (fold_add_shift (fun it => if checked c (key it) then weight it else 0)).
Qed.

(** Checking more of the items never lowers the weight obtained. *)
Lemma got_weight_le (items : list Item) (c c' : Checklist) :
  Forall (fun it => 0 <= weight it) items ->
  (forall it, In it items -> checked c (key it) = true -> checked c' (key it) = true) ->
  got_weight items c <= got_weight items c'.
Proof.
  induction 1 as [|it items Hw _ IH]; intros Hc.
  - reflexivity.
  - rewrite !got_weight_cons.
    assert (IH' : got_weight items c <= got_weight items c')
      by (apply IH; intros; apply Hc; simpl; auto).
    specialize (Hc it (or_introl eq_refl)).
    destruct (checked c (key it)), (checked c' (key it));
      first [lia | discriminate (Hc eq_refl)].
Qed.

Lemma got_weight_ext (items : list Item) (c c' : Checklist) :
  (forall it, In it items -> c !! key it = c' !! key it) ->
  got_weight items c = got_weight items c'.
Proof.
  induction items as [|it items IH]; intros Hc.
  - reflexivity.
  - rewrite !got_weight_cons. rewrite IH by (intros; apply Hc; simpl; auto).
    unfold checked. now rewrite (Hc it (or_introl eq_refl)).
Qed.

Lemma got_weight_none (items : list Item) (c : Checklist) :
  (forall it, In it items -> checked c (key it) = false) ->
  got_weight items c = 0.
Proof.
  induction items as [|it items IH]; intros Hc.
  - reflexivity.
  - rewrite got_weight_cons, IH by (intros; apply Hc; simpl; auto).
    now rewrite (Hc it (or_introl eq_refl)).
Qed.

Lemma got_weight_all (items : list Item) (c : Checklist) :
  (forall it, In it items -> checked c (key it) = true) ->
  got_weight items c = total_weight items.
Proof.
  induction items as [|it items IH]; intros Hc.
  - reflexivity.
  - rewrite got_weight_cons, total_weight_cons, IH by (intros; apply Hc; simpl; auto).
    now rewrite (Hc it (or_introl eq_refl)).
Qed.

Lemma got_weight_bounds (items : list Item) (c : Checklist) :
  Forall (fun it => 0 <= weight it) items ->
  0 <= got_weight items c <= total_weight items.
Proof.
  induction 1 as [|it items Hw _ IH].
  - unfold got_weight, total_weight. simpl. lia.
  - rewrite got_weight_cons, total_weight_cons.
    destruct (checked c (key it)); lia.
Qed.

Lemma weights_nonneg (m : ModelType) : Forall (fun it => 0 <= weight it) (items_of m).
Proof. destruct m; repeat constructor; simpl; lia. Qed.

Lemma total_weight_100 (m : ModelType) : total_weight (items_of m) = 100.
Proof. now destruct m. Qed.

(** Both item sets weigh 100 in all, so the rounded percentage is the
    weight obtained. *)
Lemma score_got (m : ModelType) (c : Checklist) : score m c = got_weight (items_of m) c.
Proof. unfold score. rewrite total_weight_100. apply Math_round_percent. Qed.

Lemma scoreChecklist_score (m : ModelType) (c : Checklist) : scoreChecklist m c = score m c.
Proof.
  unfold scoreChecklist. fold (score m c). rewrite total_weight_100. simpl.
  rewrite score_got.
  pose proof (got_weight_bounds (items_of m) c (weights_nonneg m)) as H.
  rewrite total_weight_100 in H. unfold clamp. lia.
Qed.

Lemma checked_insert (c : Checklist) (k k' : string) (b : bool) :
  checked (<[k := b]> c) k' = if decide (k = k') then b else checked c k'.
Proof. unfold checked. rewrite lookup_insert. now destruct (decide (k = k')). Qed.

End Scorer.

(** C6. For either model and every checklist, the score is an integer
    between 0 and 100; it is 0 when none of the model's items is checked
    and 100 when all of them are; two checklists that agree on the
    model's keys score the same, whatever other keys they hold.  The
    clamped [scoreChecklist] of src/Page.tsx returns the same value as
    [score]. *)
Theorem score_range_extremes_locality (m : ModelType) (c c' : Checklist) :
  (0 <= score m c <= 100)%Z /\
  ((forall it, In it (items_of m) -> checked c (key it) = false) -> score m c = 0%Z) /\
  ((forall it, In it (items_of m) -> checked c (key it) = true) -> score m c = 100%Z) /\
  ((forall it, In it (items_of m) -> c !! key it = c' !! key it) -> score m c = score m c') /\
  scoreChecklist m c = score m c.
Proof.
  repeat split.
  - rewrite score_got. apply got_weight_bounds, weights_nonneg.
  - rewrite score_got, <- (total_weight_100 m). apply got_weight_bounds, weights_nonneg.
  - intros H. rewrite score_got. now apply got_weight_none.
  - intros H. rewrite score_got, <- (total_weight_100 m). now apply got_weight_all.
  - intros H. rewrite !score_got. now apply got_weight_ext.
  - apply scoreChecklist_score.
Qed.

Lemma score_range_extremes_locality_witness :
  score trend (makeChecklist trend) = 0%Z /\
  score trend (<["maBull" := true]> (makeChecklist trend)) =
  score trend (<["stopK" := true]> (<["maBull" := true]> (makeChecklist trend))).
Proof.
  split.
  - destruct (score_range_extremes_locality trend (makeChecklist trend) ∅)
      as (_ & Hnone & _).
    apply Hnone. intros it Hin. simpl in Hin.
    repeat (destruct Hin as [<- | Hin]; [reflexivity |]). contradiction.
  - destruct (score_range_extremes_locality trend
                (<["maBull" := true]> (makeChecklist trend))
                (<["stopK" := true]> (<["maBull" := true]> (makeChecklist trend))))
      as (_ & _ & _ & Hext & _).
    apply Hext. intros it Hin. simpl in Hin.
    repeat (destruct Hin as [<- | Hin]; [reflexivity |]). contradiction.
Defined.

(** C10. The score is monotone in the checklist: toggling a key that is
    unchecked (so that it becomes checked) never lowers the score, and
    toggling a key that is checked never raises it; this holds for every
    key, in particular for the keys of the model, and for both [score]
    and [scoreChecklist]. *)
Theorem score_monotone_toggle (m : ModelType) (c : Checklist) (k : string) :
  (checked c k = false ->
   (score m c <= score m (toggleCheck k c))%Z /\
   (scoreChecklist m c <= scoreChecklist m (toggleCheck k c))%Z) /\
  (checked c k = true ->
   (score m (toggleCheck k c) <= score m c)%Z /\
   (scoreChecklist m (toggleCheck k c) <= scoreChecklist m c)%Z).
Proof.
  rewrite !scoreChecklist_score, !score_got. unfold toggleCheck.
  split; intros Hk; rewrite Hk; simpl.
  - enough (got_weight (items_of m) c <= got_weight (items_of m) (<[k:=true]> c))%Z by lia.
    apply got_weight_le; [apply weights_nonneg |].
    intros it _ Hc. rewrite checked_insert. now destruct (decide (k = key it)).
  - enough (got_weight (items_of m) (<[k:=false]> c) <= got_weight (items_of m) c)%Z by lia.
    apply got_weight_le; [apply weights_nonneg |].
    intros it _. rewrite checked_insert.
    destruct (decide (k = key it)) as [<-|]; [discriminate | auto].
Qed.

Lemma score_monotone_toggle_witness :
  (score trend (makeChecklist trend)
   <= score trend (toggleCheck "breakout" (makeChecklist trend)))%Z /\
  (score rebound (toggleCheck "support" {["support" := true]})
   <= score rebound {["support" := true]})%Z.
Proof.
  split.
  - destruct (score_monotone_toggle trend (makeChecklist trend) "breakout") as [Hup _].
    apply Hup. reflexivity.
  - destruct (score_monotone_toggle rebound {["support" := true]} "support") as [_ Hdown].
    apply Hdown. reflexivity.
Defined.

(** ** Double-precision arithmetic *)

Section Doubles.

Import F64.

(** *** Powers of two *)

Section Pow2.

Lemma two_neq_0 : ~ 2 == 0.
Proof. discriminate. Qed.

Lemma pow2_pos (e : Z) : 0 < pow2 e.
Proof. apply Qpower_0_lt. reflexivity. Qed.

Lemma pow2_add (a b : Z) : pow2 (a + b) == pow2 a * pow2 b.
Proof. apply Qpower_plus, two_neq_0. Qed.

Lemma pow2_le (a b : Z) : (a <= b)%Z -> pow2 a <= pow2 b.
Proof. intros H. apply Qpower_le_compat_l; [exact H | discriminate]. Qed.

Lemma pow2_lt (a b : Z) : (a < b)%Z -> pow2 a < pow2 b.
Proof. intros H. apply Qpower_lt_compat_l; [exact H | reflexivity]. Qed.

Lemma pow2_le_inv (a b : Z) : pow2 a <= pow2 b -> (a <= b)%Z.
Proof. intros H. apply (Qpower_le_compat_l_inv 2); [exact H | reflexivity]. Qed.

Lemma pow2_lt_inv (a b : Z) : pow2 a < pow2 b -> (a < b)%Z.
Proof. intros H. apply (Qpower_lt_compat_l_inv 2); [exact H | reflexivity]. Qed.

Lemma pow2_Z (n : Z) : (0 <= n)%Z -> pow2 n == inject_Z (2 ^ n).
Proof. intros H. unfold pow2. now rewrite Zpower_Qpower. Qed.

(** A whole number is a whole multiple of [2^e] when [e <= 0], and
    [2^k] is one when [e <= k]. *)
Lemma Z_on_grid (N e : Z) : (e <= 0)%Z -> inject_Z N == inject_Z (N * 2 ^ (- e)) * pow2 e.
Proof.
  intros H. rewrite inject_Z_mult, <- pow2_Z by lia.
  rewrite <- Qmult_assoc, <- pow2_add.
  replace (- e + e)%Z with 0%Z by lia. unfold pow2. simpl. ring.
Qed.

Lemma pow2_on_grid (k e : Z) : (e <= k)%Z -> pow2 k == inject_Z (2 ^ (k - e)) * pow2 e.
Proof.
  intros H. rewrite <- pow2_Z by lia. rewrite <- pow2_add. now replace (k - e + e)%Z with k by lia.
Qed.

End Pow2.

(** *** The binary exponent *)

Section Log2.

Lemma ilog2_spec (q : Q) : 0 < q -> pow2 (ilog2 q) <= q /\ q < pow2 (ilog2 q + 1).
Proof.
  intros Hq. destruct q as [n d]. unfold ilog2. cbn [Qnum Qden].
  assert (Hn : (0 < n)%Z).
  { unfold Qlt in Hq. cbn in Hq. lia. }
  set (a := Z.log2 n). set (b := Z.log2 (Zpos d)).
  destruct (Z.log2_spec n Hn) as [Ha1 Ha2]. fold a in Ha1, Ha2.
  destruct (Z.log2_spec (Zpos d) (eq_refl _)) as [Hb1 Hb2]. fold b in Hb1, Hb2.
  assert (Ha0 : (0 <= a)%Z) by apply Z.log2_nonneg.
  assert (Hb0 : (0 <= b)%Z) by apply Z.log2_nonneg.
  assert (A1 : pow2 a <= inject_Z n) by (rewrite pow2_Z by lia; now rewrite <- Zle_Qle).
  assert (A2 : inject_Z n < pow2 (a + 1)) by (rewrite pow2_Z by lia; now rewrite <- Zlt_Qlt).
  assert (B1 : pow2 b <= inject_Z (Zpos d)) by (rewrite pow2_Z by lia; now rewrite <- Zle_Qle).
  assert (B2 : inject_Z (Zpos d) < pow2 (b + 1)) by (rewrite pow2_Z by lia; now rewrite <- Zlt_Qlt).
  assert (Hd : 0 < inject_Z (Zpos d)) by reflexivity.
  assert (Hlow : pow2 (a - b - 1) <= n # d).
  { rewrite (Qmake_Qdiv n d). apply Qle_shift_div_l; [exact Hd |].
    apply Qle_trans with (pow2 (a - b - 1) * pow2 (b + 1)).
    - apply Qmult_le_l; [apply pow2_pos | now apply Qlt_le_weak].
    - rewrite <- pow2_add. now replace (a - b - 1 + (b + 1))%Z with a by lia. }
  assert (Hhigh : n # d < pow2 (a - b + 1)).
  { rewrite (Qmake_Qdiv n d). apply Qlt_shift_div_r; [exact Hd |].
    apply Qlt_le_trans with (pow2 (a - b + 1) * pow2 b).
    - rewrite <- pow2_add. now replace (a - b + 1 + b)%Z with (a + 1)%Z by lia.
    - apply Qmult_le_l; [apply pow2_pos | exact B1]. }
  destruct (Qle_bool (pow2 (a - b)) (n # d)) eqn:E.
  - apply Qle_bool_iff in E. split; [exact E | exact Hhigh].
  - split.
    + exact Hlow.
    + replace (a - b - 1 + 1)%Z with (a - b)%Z by lia.
      apply Qnot_le_lt. intros H. apply Qle_bool_iff in H. congruence.
Qed.

Lemma ilog2_lt (q : Q) (k : Z) : 0 < q -> q < pow2 k -> (ilog2 q < k)%Z.
Proof.
  intros Hq H. destruct (ilog2_spec q Hq) as [H1 _].
  apply pow2_lt_inv. now apply Qle_lt_trans with q.
Qed.

Lemma ilog2_le (q : Q) (k : Z) : 0 < q -> q <= pow2 k -> (ilog2 q <= k)%Z.
Proof.
  intros Hq H. destruct (ilog2_spec q Hq) as [H1 _].
  apply pow2_le_inv. now apply Qle_trans with q.
Qed.

Lemma ilog2_ge (q : Q) (k : Z) : 0 < q -> pow2 k <= q -> (k <= ilog2 q)%Z.
Proof.
  intros Hq H. destruct (ilog2_spec q Hq) as [_ H2].
  assert (Hlt : (k < ilog2 q + 1)%Z) by (apply pow2_lt_inv; now apply Qle_lt_trans with q).
  lia.
Qed.

End Log2.

(** *** Rounding to the nearest integer *)

Section Rne.

Lemma rne_cases (x : Q) :
  (rne x = Qfloor x /\ x - inject_Z (Qfloor x) <= 1 # 2) \/
  (rne x = (Qfloor x + 1)%Z /\ 1 # 2 <= x - inject_Z (Qfloor x)).
Proof.
  unfold rne. destruct (Qcompare_spec (x - inject_Z (Qfloor x)) (1 # 2)) as [E|E|E].
  - destruct (Z.even (Qfloor x)); [left | right]; (split; [reflexivity | lra]).
  - left. split; [reflexivity | lra].
  - right. split; [reflexivity | lra].
Qed.

Lemma rne_upper (x : Q) : inject_Z (rne x) <= x + (1 # 2).
Proof.
  pose proof (Qfloor_le x) as Hf.
  destruct (rne_cases x) as [[-> H]|[-> H]].
  - lra.
  - rewrite inject_Z_plus. change (inject_Z 1) with 1. lra.
Qed.

Lemma rne_ge_Z (x : Q) (N : Z) : inject_Z N <= x -> (N <= rne x)%Z.
Proof.
  intros H. apply Qfloor_resp_le in H. rewrite Qfloor_Z in H.
  destruct (rne_cases x) as [[-> _]|[-> _]]; lia.
Qed.

Lemma rne_le_Z (x : Q) (N : Z) : x <= inject_Z N -> (rne x <= N)%Z.
Proof.
  intros H. pose proof (Qfloor_resp_le _ _ H) as Hf. rewrite Qfloor_Z in Hf.
  destruct (rne_cases x) as [[-> _]|[-> Hr]]; [exact Hf |].
  destruct (Z.eq_dec (Qfloor x) N) as [E|E]; [| lia].
  exfalso. rewrite E in Hr. lra.
Qed.

Lemma rne_Z (x : Q) (z : Z) : x == inject_Z z -> rne x = z.
Proof.
  intros E. apply Z.le_antisymm.
  - apply rne_le_Z. rewrite E. apply Qle_refl.
  - apply rne_ge_Z. rewrite E. apply Qle_refl.
Qed.

End Rne.

(** *** Rounding of a positive number: bounds and exact cases *)

Section RoundPos.

Variable x : Q.
Hypothesis Hx : 0 < x.

Lemma round_pos_nonneg : 0 <= round_pos x.
Proof.
  unfold round_pos. apply Qmult_le_0_compat; [| apply Qlt_le_weak, pow2_pos].
  change 0 with (inject_Z 0). rewrite <- Zle_Qle. apply rne_ge_Z.
  apply Qle_shift_div_l; [apply pow2_pos |]. change (inject_Z 0) with 0. lra.
Qed.

(** Rounding moves a number up by half a unit in the last place at most. *)
Lemma round_pos_upper : round_pos x <= x + pow2 (ulp_exp x) / 2.
Proof.
  unfold round_pos. pose proof (pow2_pos (ulp_exp x)) as Hp.
  pose proof (rne_upper (x / pow2 (ulp_exp x))) as H.
  apply Qle_trans with ((x / pow2 (ulp_exp x) + (1 # 2)) * pow2 (ulp_exp x)).
  - apply Qmult_le_compat_r; [exact H | lra].
  - apply Qle_lteq. right. field. lra.
Qed.

(** A number on the grid of [x] that bounds [x] bounds its rounding. *)
Lemma round_pos_le_grid (M : Z) :
  x <= inject_Z M * pow2 (ulp_exp x) -> round_pos x <= inject_Z M * pow2 (ulp_exp x).
Proof.
  intros H. unfold round_pos. pose proof (pow2_pos (ulp_exp x)) as Hp.
  apply Qmult_le_compat_r; [| lra].
  rewrite <- Zle_Qle. apply rne_le_Z. apply Qle_shift_div_r; [exact Hp | exact H].
Qed.

Lemma round_pos_on_grid (M : Z) :
  x == inject_Z M * pow2 (ulp_exp x) -> round_pos x == x.
Proof.
  intros H. unfold round_pos. pose proof (pow2_pos (ulp_exp x)) as Hp.
  rewrite (rne_Z _ M).
  - now rewrite <- H.
  - rewrite H at 1. field. lra.
Qed.

Lemma ulp_exp_normal : pow2 (-1022) <= x -> pow2 (ulp_exp x) <= x * pow2 (-52).
Proof.
  intros H. pose proof (ilog2_ge x _ Hx H) as Hk.
  unfold ulp_exp. rewrite Z.max_l by lia.
  replace (ilog2 x - 52)%Z with (ilog2 x + -52)%Z by lia. rewrite pow2_add.
  apply Qmult_le_compat_r; [apply (ilog2_spec x Hx) | apply Qlt_le_weak, pow2_pos].
Qed.

Lemma round_pos_rel : pow2 (-1022) <= x -> round_pos x <= x * (1 + pow2 (-53)).
Proof.
  intros H. pose proof (ulp_exp_normal H) as Hu. pose proof round_pos_upper as Hr.
  assert (E : pow2 (-52) == 2 * pow2 (-53)).
  { replace (-52)%Z with (1 + -53)%Z by lia. rewrite pow2_add. reflexivity. }
  rewrite E in Hu.
  assert (Hh : pow2 (ulp_exp x) / 2 <= x * pow2 (-53)).
  { apply Qle_shift_div_r; [reflexivity |]. lra. }
  lra.
Qed.

Lemma ulp_exp_le (k : Z) : x <= pow2 k -> (-1074 <= k)%Z -> (ulp_exp x <= k)%Z.
Proof.
  intros H Hk. pose proof (ilog2_le x k Hx H). unfold ulp_exp. lia.
Qed.

Lemma round_pos_le_pow2 (k : Z) : x <= pow2 k -> (-1074 <= k)%Z -> round_pos x <= pow2 k.
Proof.
  intros H Hk. pose proof (ulp_exp_le k H Hk) as He.
  rewrite (pow2_on_grid k (ulp_exp x) He). apply round_pos_le_grid.
  now rewrite <- (pow2_on_grid k (ulp_exp x) He).
Qed.

Lemma ulp_exp_small (N : Z) : x <= inject_Z N -> (N < 2 ^ 53)%Z -> (ulp_exp x <= 0)%Z.
Proof.
  intros H HN.
  assert (Hlt : x < pow2 53).
  { apply Qle_lt_trans with (inject_Z N); [exact H |].
    rewrite pow2_Z by lia. now rewrite <- Zlt_Qlt. }
  pose proof (ilog2_lt x 53 Hx Hlt). unfold ulp_exp. lia.
Qed.

(** Whole numbers below [2^53] are on every grid below them. *)
Lemma round_pos_le_Z (N : Z) : x <= inject_Z N -> (N < 2 ^ 53)%Z -> round_pos x <= inject_Z N.
Proof.
  intros H HN. pose proof (ulp_exp_small N H HN) as He.
  rewrite (Z_on_grid N (ulp_exp x) He). apply round_pos_le_grid.
  now rewrite <- (Z_on_grid N (ulp_exp x) He).
Qed.

Lemma round_pos_Z (z : Z) : x == inject_Z z -> (z < 2 ^ 53)%Z -> round_pos x == x.
Proof.
  intros E Hz.
  assert (He : (ulp_exp x <= 0)%Z).
  { apply (ulp_exp_small z); [rewrite E; apply Qle_refl | exact Hz]. }
  apply (round_pos_on_grid (z * 2 ^ (- ulp_exp x))).
  apply Qeq_trans with (inject_Z z); [exact E | apply Z_on_grid, He].
Qed.

(** The whole part of a rounded number exceeds the number by its
    relative rounding error at most. *)
Lemma floor_round_pos : inject_Z (Qfloor (round_pos x)) <= x * (1 + pow2 (-53)).
Proof.
  destruct (Qlt_le_dec x (pow2 (-1022))) as [Hs|Hn].
  - assert (Hr : round_pos x <= pow2 (-1022)).
    { apply round_pos_le_pow2; [now apply Qlt_le_weak | lia]. }
    assert (H1 : pow2 (-1022) < 1).
    { change 1 with (pow2 0). apply pow2_lt. lia. }
    assert (Hf : (Qfloor (round_pos x) <= 0)%Z).
    { assert (Hlt : (Qfloor (round_pos x) < 1)%Z).
      { rewrite Zlt_Qlt. apply Qle_lt_trans with (round_pos x); [apply Qfloor_le |].
        change (inject_Z 1) with 1. lra. }
      lia. }
    rewrite Zle_Qle in Hf. change (inject_Z 0) with 0 in Hf.
    pose proof (pow2_pos (-53)).
    assert (0 <= x * (1 + pow2 (-53))) by (apply Qmult_le_0_compat; lra).
    lra.
  - apply Qle_trans with (round_pos x); [apply Qfloor_le | now apply round_pos_rel].
Qed.

End RoundPos.

(** *** Rounding to a double *)

Section Round.

Lemma Num_inj (a b : Q) : Num a = Num b -> a = b.
Proof. congruence. Qed.

Lemma round_zero (x : Q) : x == 0 -> round x = Num 0.
Proof. intros E. unfold round. apply Qeq_alt in E. now rewrite E. Qed.

Lemma round_finite (x : Q) :
  0 < x -> round_pos x < pow2 1024 -> round x = Num (Qred (round_pos x)).
Proof.
  intros Hx H. unfold round. apply Qgt_alt in Hx. rewrite Hx. cbv zeta.
  destruct (Qle_bool (pow2 1024) (round_pos x)) eqn:E; [| reflexivity].
  apply Qle_bool_iff in E. exfalso. lra.
Qed.

Lemma pow2_53_1024 : inject_Z (2 ^ 53) < pow2 1024.
Proof. rewrite <- pow2_Z by lia. apply pow2_lt. lia. Qed.

Lemma round_below (x : Q) (N : Z) :
  0 < x -> x <= inject_Z N -> (N < 2 ^ 53)%Z -> round x = Num (Qred (round_pos x)).
Proof.
  intros Hx H HN. apply round_finite; [exact Hx |].
  apply Qle_lt_trans with (inject_Z N); [now apply round_pos_le_Z |].
  apply Qlt_trans with (inject_Z (2 ^ 53)); [now rewrite <- Zlt_Qlt | apply pow2_53_1024].
Qed.

Lemma round_nonneg (x r : Q) : 0 <= x -> round x = Num r -> 0 <= r.
Proof.
  intros Hx. unfold round. destruct (Qcompare_spec x 0) as [E|E|E].
  - intros [= <-]. apply Qle_refl.
  - exfalso. lra.
  - cbv zeta. destruct (Qle_bool _ _); [discriminate |]. intros H.
    apply Num_inj in H. subst r. rewrite Qred_correct. now apply round_pos_nonneg.
Qed.

Lemma round_nonpos (x : Q) : x <= 0 -> leb (round x) (Num 0) = true.
Proof.
  intros Hx. unfold round. destruct (Qcompare_spec x 0) as [E|E|E].
  - reflexivity.
  - cbv zeta. destruct (Qle_bool _ _); [reflexivity |]. cbn [leb].
    apply Qle_bool_iff. rewrite Qred_correct.
    assert (H : 0 < - x) by lra. pose proof (round_pos_nonneg (- x) H). lra.
  - exfalso. lra.
Qed.

End Round.

(** *** Whole lots *)

Section Lots.

Lemma eps_value : eps == 1 # 9007199254740992.
Proof. reflexivity. Qed.

Lemma Qfloor_nonneg (x : Q) : 0 <= x -> (0 <= Qfloor x)%Z.
Proof.
  intros H. apply Qfloor_resp_le in H. exact H.
Qed.

(** Rounding down to whole lots, in double precision: [y] units,
    fewer than [2^53], in lots of [L]. *)
Lemma lot_rounding64 (y : Q) (L : Z) :
  0 <= y -> y <= inject_Z (2 ^ 53 - 1) -> (1 <= L)%Z ->
  exists (n : Z) (sz : Q),
    (0 <= n)%Z /\
    mul (Math_floor (div (Num y) (Num (inject_Z L)))) (Num (inject_Z L)) = Num sz /\
    sz == inject_Z n * inject_Z L /\
    sz <= y * (1 + eps) /\
    (forall R : Z, y == inject_Z R -> sz <= y).
Proof.
  intros Hy Hmax HL.
  assert (HLq : 1 <= inject_Z L) by (change 1 with (inject_Z 1); now rewrite <- Zle_Qle).
  assert (HL0 : Qeq_bool (inject_Z L) 0 = false).
  { destruct (Qeq_bool (inject_Z L) 0) eqn:E; [| reflexivity].
    apply Qeq_bool_iff in E. exfalso. lra. }
  cbn [div]. rewrite HL0.
  pose proof eps_value as Heps.
  destruct (Qle_lt_or_eq _ _ Hy) as [Hpos|Hzero].
  - (* y > 0 *)
    set (x := y / inject_Z L).
    assert (Hx : 0 < x) by (apply Qlt_shift_div_l; lra).
    assert (Hxy : x <= y).
    { apply Qle_shift_div_r; [lra |]. rewrite <- (Qmult_1_r y) at 1.
      apply Qmult_le_l; [exact Hpos | exact HLq]. }
    rewrite (round_below x (2 ^ 53 - 1)) by (try lra; lia).
    cbn [Math_floor].
    set (n := Qfloor (Qred (round_pos x))).
    assert (En : n = Qfloor (round_pos x)) by (unfold n; now rewrite Qred_correct).
    assert (Hn0 : (0 <= n)%Z).
    { rewrite En. apply Qfloor_nonneg. now apply round_pos_nonneg. }
    assert (Hnx : inject_Z n <= x * (1 + eps)).
    { rewrite En. now apply floor_round_pos. }
    assert (HnL : inject_Z n * inject_Z L <= y * (1 + eps)).
    { apply Qle_trans with (x * (1 + eps) * inject_Z L).
      - apply Qmult_le_compat_r; [exact Hnx | lra].
      - apply Qle_lteq. right. unfold x. field. lra. }
    assert (HnLZ : (n * L < 2 ^ 53)%Z).
    { rewrite Zlt_Qlt, inject_Z_mult.
      apply Qle_lt_trans with (y * (1 + eps)); [exact HnL |].
      apply Qle_lt_trans with (inject_Z (2 ^ 53 - 1) * (1 + eps)).
      - apply Qmult_le_compat_r; [exact Hmax |]. rewrite Heps. discriminate.
      - rewrite Heps. reflexivity. }
    assert (Hsz : exists sz, mul (Num (inject_Z n)) (Num (inject_Z L)) = Num sz /\
                             sz == inject_Z n * inject_Z L).
    { cbn [mul]. destruct (Z.eq_dec n 0%Z) as [E0|E0].
      - exists 0. split; [apply round_zero; rewrite E0; ring | rewrite E0; ring].
      - exists (Qred (round_pos (inject_Z n * inject_Z L))).
        assert (Hp : 0 < inject_Z n * inject_Z L).
        { rewrite <- inject_Z_mult. change 0 with (inject_Z 0). rewrite <- Zlt_Qlt. nia. }
        split.
        + apply (round_below _ (n * L)); [exact Hp | | exact HnLZ].
          rewrite inject_Z_mult. apply Qle_refl.
        + rewrite Qred_correct. apply (round_pos_Z _ Hp (n * L)); [| exact HnLZ].
          now rewrite inject_Z_mult. }
    destruct Hsz as (sz & Hmul & Esz).
    exists n, sz. split; [exact Hn0 |]. split; [exact Hmul |]. split; [exact Esz |].
    split; [now rewrite Esz |].
    intros R ER. rewrite Esz, ER, <- inject_Z_mult, <- Zle_Qle.
    assert (HR : (R < 2 ^ 53)%Z).
    { rewrite Zlt_Qlt, <- ER. apply Qle_lt_trans with (inject_Z (2 ^ 53 - 1)); [exact Hmax |].
      rewrite <- Zlt_Qlt. lia. }
    assert (HR0 : (0 < R)%Z).
    { rewrite Zlt_Qlt, <- ER. exact Hpos. }
    assert (Hlt : (n * L < R + 1)%Z).
    { rewrite Zlt_Qlt, inject_Z_mult, inject_Z_plus.
      apply Qle_lt_trans with (y * (1 + eps)); [exact HnL |].
      rewrite ER, Heps. change (inject_Z 1) with 1.
      assert (HRq : inject_Z R < inject_Z (2 ^ 53)) by now rewrite <- Zlt_Qlt.
      change (inject_Z (2 ^ 53)) with 9007199254740992 in HRq.
      lra. }
    lia.
  - (* y == 0 *)
    assert (E0 : y / inject_Z L == 0).
    { rewrite <- Hzero. unfold Qdiv. ring. }
    rewrite (round_zero _ E0). cbn [Math_floor mul].
    exists 0%Z, 0. split; [lia |]. split; [apply round_zero; reflexivity |].
    split; [ring |]. split.
    + rewrite <- Hzero. ring_simplify. apply Qle_refl.
    + intros R _. now rewrite <- Hzero.
Qed.

End Lots.

(** *** The cost-aware sizer *)

Section SizerOnDoubles.

Lemma round_pos_rel_or_small (x : Q) :
  0 < x -> round_pos x <= x * (1 + eps) \/ round_pos x <= pow2 (-1022).
Proof.
  intros Hx. destruct (Qlt_le_dec x (pow2 (-1022))) as [Hs|Hn].
  - right. apply round_pos_le_pow2; [exact Hx | now apply Qlt_le_weak | lia].
  - left. now apply round_pos_rel.
Qed.

Lemma leb_not_ltb (a : t) : leb a (Num 0) = true -> ltb (Num 0) a = false.
Proof.
  destruct a as [x| | |]; cbn; try discriminate; try reflexivity.
  intros H. now rewrite H.
Qed.

Lemma nonzero_Qeq_bool (x : Q) : 0 < x -> Qeq_bool x 0 = false.
Proof.
  intros H. destruct (Qeq_bool x 0) eqn:E; [| reflexivity].
  apply Qeq_bool_iff in E. exfalso. lra.
Qed.

Lemma ltb_Num (x y : Q) : ltb (Num x) (Num y) = true <-> x < y.
Proof.
  cbn. destruct (Qle_bool y x) eqn:E; cbn.
  - apply Qle_bool_iff in E. split; [discriminate | intros H; exfalso; lra].
  - split; [intros _ | reflexivity]. apply Qnot_le_lt. intros H.
    apply Qle_bool_iff in H. congruence.
Qed.

Lemma ltb_Num_false (x y : Q) : ltb (Num x) (Num y) = false <-> y <= x.
Proof.
  cbn. destruct (Qle_bool y x) eqn:E; cbn.
  - apply Qle_bool_iff in E. split; [intros _; exact E | reflexivity].
  - split; [discriminate |]. intros H. apply Qle_bool_iff in H. congruence.
Qed.

(** The lot the sizer works with, for a whole lot size. *)
Lemma lot_of_whole (L : Z) :
  (1 <= L)%Z -> Math_max (Num 1) (or_else (Num (inject_Z L)) (Num 1)) = Num (inject_Z L).
Proof.
  intros HL.
  assert (HLq : 1 <= inject_Z L) by (change 1 with (inject_Z 1); now rewrite <- Zle_Qle).
  unfold or_else. cbn [falsy]. rewrite nonzero_Qeq_bool by lra.
  unfold Math_max. destruct (ltb (Num 1) (Num (inject_Z L))) eqn:E; [reflexivity |].
  apply ltb_Num_false in E.
  change 1 with (inject_Z 1) in E. rewrite <- Zle_Qle in E.
  assert (L = 1%Z) as -> by lia.
  reflexivity.
Qed.

(** The lot the sizer works with is finite and at least 1 unless the
    lot size is [Infinity]. *)
Lemma lot_finite (lotSize : t) :
  lotSize <> PosInf ->
  exists l, Math_max (Num 1) (or_else lotSize (Num 1)) = Num l /\ 1 <= l.
Proof.
  intros H. destruct lotSize as [l| | |]; [| contradiction | |].
  - unfold or_else. cbn [falsy]. destruct (Qeq_bool l 0).
    + exists 1. split; [reflexivity | apply Qle_refl].
    + unfold Math_max. destruct (ltb (Num 1) (Num l)) eqn:E.
      * exists l. split; [reflexivity |]. apply ltb_Num in E. now apply Qlt_le_weak.
      * exists 1. split; [reflexivity | apply Qle_refl].
  - exists 1. split; [reflexivity | apply Qle_refl].
  - exists 1. split; [reflexivity | apply Qle_refl].
Qed.

Lemma no_units_no_size (l : Q) :
  1 <= l -> mul (Math_floor (div (Num 0) (Num l))) (Num l) = Num 0.
Proof.
  intros Hl. cbn [div]. rewrite nonzero_Qeq_bool by lra.
  rewrite round_zero by (unfold Qdiv; ring).
  cbn [Math_floor mul]. apply round_zero.
  change (Qfloor 0) with 0%Z. change (inject_Z 0) with 0. ring.
Qed.

(** The budget of a positive account at a positive risk percentage
    is not negative. *)
Lemma budget_nonneg (eq mp b : Q) :
  0 < eq -> 0 < mp -> mul (Num eq) (div (Num mp) (Num 100)) = Num b -> 0 <= b.
Proof.
  intros He Hm. cbn [div]. change (Qeq_bool 100 0) with false. cbv iota.
  destruct (round (mp / 100)) as [y| | |] eqn:Ey.
  - assert (Hy : 0 <= y).
    { apply (round_nonneg (mp / 100)); [| exact Ey]. apply Qle_shift_div_l; lra. }
    cbn [mul]. apply round_nonneg. apply Qmult_le_0_compat; lra.
  - cbn. apply Qgt_alt in He. rewrite He. discriminate.
  - cbn. apply Qgt_alt in He. rewrite He. discriminate.
  - discriminate.
Qed.

(** The whole number of units a budget pays for, in double precision. *)
Lemma whole_units (b rp : Q) :
  0 <= b -> 0 < rp -> b <= inject_Z (2 ^ 53 - 1) * rp ->
  exists R : Z,
    (0 <= R)%Z /\ Math_floor (div (Num b) (Num rp)) = Num (inject_Z R) /\
    inject_Z R <= inject_Z (2 ^ 53 - 1) /\ inject_Z R * rp <= b * (1 + eps).
Proof.
  intros Hb Hrp Hmax. cbn [div]. rewrite nonzero_Qeq_bool by exact Hrp.
  pose proof eps_value as Heps.
  destruct (Qle_lt_or_eq _ _ Hb) as [Hpos|Hzero].
  - set (x := b / rp).
    assert (Hx : 0 < x) by (apply Qlt_shift_div_l; lra).
    assert (Hxm : x <= inject_Z (2 ^ 53 - 1)) by (apply Qle_shift_div_r; lra).
    rewrite (round_below x (2 ^ 53 - 1)) by (try assumption; lia).
    cbn [Math_floor]. exists (Qfloor (Qred (round_pos x))).
    assert (En : Qfloor (Qred (round_pos x)) = Qfloor (round_pos x)) by now rewrite Qred_correct.
    rewrite En. split; [| split; [reflexivity | split]].
    + apply Qfloor_nonneg. now apply round_pos_nonneg.
    + apply Qle_trans with (round_pos x); [apply Qfloor_le |].
      apply round_pos_le_Z; [exact Hx | exact Hxm | lia].
    + apply Qle_trans with (x * (1 + eps) * rp).
      * apply Qmult_le_compat_r; [now apply floor_round_pos | lra].
      * apply Qle_lteq. right. unfold x. field. lra.
  - assert (E0 : b / rp == 0) by (rewrite <- Hzero; unfold Qdiv; ring).
    rewrite (round_zero _ E0). cbn [Math_floor]. exists 0%Z.
    split; [lia |]. split; [reflexivity |]. split; [discriminate |].
    rewrite <- Hzero. ring_simplify. apply Qle_refl.
Qed.

Lemma calcSizing_size (equity maxRiskPct entry stop lotSize : t) (side : Side)
      (feePct exitFeePct slippage : t) :
  let r := Console64.calcSizing equity maxRiskPct entry stop lotSize side feePct exitFeePct slippage in
  let lot := Math_max (Num 1) (or_else lotSize (Num 1)) in
  Console64.size r = mul (Math_floor (div (if ltb (Num 0) (Console64.riskPer r)
                                 then Math_floor (div (Console64.riskMoney r) (Console64.riskPer r))
                                 else Num 0) lot)) lot.
Proof. reflexivity. Qed.

Lemma calcSizing_no_risk (equity maxRiskPct entry stop lotSize : t) (side : Side)
      (feePct exitFeePct slippage : t) :
  let r := Console64.calcSizing equity maxRiskPct entry stop lotSize side feePct exitFeePct slippage in
  lotSize <> PosInf -> ltb (Num 0) (Console64.riskPer r) = false -> Console64.size r = Num 0.
Proof.
  intros r Hl H. unfold r. rewrite calcSizing_size. fold r. rewrite H.
  destruct (lot_finite lotSize Hl) as (l & -> & Hl1). now apply no_units_no_size.
Qed.

Lemma calcSizing_whole_lots (eq mp : Q) (L : Z) (entry stop : t) (side : Side)
      (feePct exitFeePct slippage : t) (b rp : Q) :
  0 < eq -> 0 < mp -> (1 <= L)%Z ->
  let r := Console64.calcSizing (Num eq) (Num mp) entry stop (Num (inject_Z L)) side
                      feePct exitFeePct slippage in
  Console64.riskMoney r = Num b -> Console64.riskPer r = Num rp ->
  b <= inject_Z (2 ^ 53 - 1) * rp ->
  exists (n : Z) (sz : Q),
    (0 <= n)%Z /\ Console64.size r = Num sz /\ sz == inject_Z n * inject_Z L /\
    sz * rp <= b * (1 + eps).
Proof.
  intros He Hm HL r Hb Hrp Hmax.
  assert (Hb0 : 0 <= b) by (apply (budget_nonneg eq mp); assumption).
  unfold r. rewrite calcSizing_size. fold r. rewrite Hb, Hrp, (lot_of_whole L HL).
  pose proof eps_value as Heps.
  destruct (ltb (Num 0) (Num rp)) eqn:Epos.
  - apply ltb_Num in Epos.
    destruct (whole_units b rp Hb0 Epos Hmax) as (R & HR0 & -> & HRmax & HRb).
    assert (HR0q : 0 <= inject_Z R) by (change 0 with (inject_Z 0); now rewrite <- Zle_Qle).
    destruct (lot_rounding64 (inject_Z R) L HR0q HRmax HL) as (n & sz & Hn & Hsz & Esz & _ & Hle).
    exists n, sz. split; [exact Hn |]. split; [exact Hsz |]. split; [exact Esz |].
    apply Qle_trans with (inject_Z R * rp); [| exact HRb].
    apply Qmult_le_compat_r; [apply (Hle R); reflexivity | lra].
  - apply ltb_Num_false in Epos.
    destruct (lot_rounding64 0 L (Qle_refl 0) ltac:(discriminate) HL)
      as (n & sz & Hn & Hsz & Esz & _ & Hle).
    exists n, sz. split; [exact Hn |]. split; [exact Hsz |]. split; [exact Esz |].
    assert (Hsz0 : sz <= 0) by (apply (Hle 0%Z); reflexivity).
    assert (Hsz1 : 0 <= sz).
    { rewrite Esz, <- inject_Z_mult. change 0 with (inject_Z 0). rewrite <- Zle_Qle. nia. }
    assert (E0 : sz == 0) by lra. rewrite E0, Heps. ring_simplify.
    lra.
Qed.

End SizerOnDoubles.

(** *** The simple sizer *)

Section PageSizerOnDoubles.

Lemma Math_abs_Num (a : t) (v : Q) : Math_abs a = Num v -> 0 <= v.
Proof.
  destruct a as [x| | |]; cbn; try discriminate.
  intros H. apply Num_inj in H. subst v. apply Qabs_nonneg.
Qed.

Lemma eqb_Num_false (x : Q) : 0 <= x -> eqb (Num x) (Num 0) = false -> 0 < x.
Proof.
  cbn. intros H0 H. apply Qle_lteq in H0. destruct H0 as [H0|H0]; [exact H0 |].
  exfalso. assert (E : Qeq_bool x 0 = true) by (apply Qeq_bool_iff; now rewrite <- H0).
  congruence.
Qed.

(** The units a budget pays for, before the lot rounding, when no
    whole number is taken first. *)
Lemma raw_units (b rp : Q) :
  0 <= b -> 0 < rp -> b <= inject_Z (2 ^ 53 - 1) * rp ->
  exists y : Q,
    div (Num b) (Num rp) = Num y /\ 0 <= y /\ y <= inject_Z (2 ^ 53 - 1) /\
    (y * rp <= b * (1 + eps) \/ y <= pow2 (-1022)).
Proof.
  intros Hb Hrp Hmax. cbn [div]. rewrite nonzero_Qeq_bool by exact Hrp.
  destruct (Qle_lt_or_eq _ _ Hb) as [Hpos|Hzero].
  - set (x := b / rp).
    assert (Hx : 0 < x) by (apply Qlt_shift_div_l; lra).
    assert (Hxm : x <= inject_Z (2 ^ 53 - 1)) by (apply Qle_shift_div_r; lra).
    rewrite (round_below x (2 ^ 53 - 1)) by (try assumption; lia).
    exists (Qred (round_pos x)). split; [reflexivity |]. rewrite Qred_correct.
    split; [now apply round_pos_nonneg |].
    split; [apply round_pos_le_Z; [exact Hx | exact Hxm | lia] |].
    destruct (round_pos_rel_or_small x Hx) as [H|H]; [left | right; exact H].
    apply Qle_trans with (x * (1 + eps) * rp).
    + apply Qmult_le_compat_r; [exact H | lra].
    + apply Qle_lteq. right. unfold x. field. lra.
  - assert (E0 : b / rp == 0) by (rewrite <- Hzero; unfold Qdiv; ring).
    rewrite (round_zero _ E0). exists 0.
    split; [reflexivity |]. split; [apply Qle_refl |]. split; [discriminate |].
    right. apply Qlt_le_weak, pow2_pos.
Qed.

Lemma Math_max_0_Num (sz : Q) :
  0 <= sz -> exists sz', Math_max (Num 0) (Num sz) = Num sz' /\ sz' == sz.
Proof.
  intros H. unfold Math_max. destruct (ltb (Num 0) (Num sz)) eqn:E.
  - exists sz. split; reflexivity.
  - apply ltb_Num_false in E. exists 0. split; [reflexivity | lra].
Qed.

Lemma calcRiskPosition_whole_lots (eq mp : Q) (L : Z) (entry stop priceNow : t) (b rps : Q) :
  0 < eq -> 0 < mp -> (1 <= L)%Z ->
  let p := Page64.calcRiskPosition (Num eq) (Num mp) entry stop priceNow (Num (inject_Z L)) in
  Page64.riskMoney p = Num b -> Page64.riskPerShare p = Num rps ->
  b <= inject_Z (2 ^ 53 - 1) * rps ->
  exists (n : Z) (sz : Q),
    (0 <= n)%Z /\ Page64.shares p = Num sz /\ sz == inject_Z n * inject_Z L /\
    sz * rps <= b * (1 + eps) * (1 + eps).
Proof.
  intros He Hm HL p. unfold p, Page64.calcRiskPosition. cbv zeta.
  pose proof eps_value as Heps.
  assert (Hzero : forall b rps, Page64.riskMoney Page64.zeroRiskPosition = Num b ->
                                Page64.riskPerShare Page64.zeroRiskPosition = Num rps ->
                                exists (n : Z) (sz : Q),
                                  (0 <= n)%Z /\ Page64.shares Page64.zeroRiskPosition = Num sz /\
                                  sz == inject_Z n * inject_Z L /\
                                  sz * rps <= b * (1 + eps) * (1 + eps)).
  { intros b0 r0 Hb0 Hr0. cbn in Hb0, Hr0. apply Num_inj in Hb0, Hr0. subst b0 r0.
    exists 0%Z, 0. split; [lia |]. split; [reflexivity |]. split; [ring |].
    ring_simplify. apply Qle_refl. }
  destruct (_ || _ || _ || _ || _ || _); [intros Hb Hr _; now apply Hzero |].
  destruct (eqb _ (Num 0)) eqn:Enz; [intros Hb Hr _; now apply Hzero |].
  cbn [Page64.riskMoney Page64.riskPerShare Page64.shares]. intros Hb Hr Hmax.
  rewrite Hr in *.
  assert (Hrps : 0 < rps).
  { apply eqb_Num_false; [| exact Enz]. exact (Math_abs_Num _ _ Hr). }
  assert (Hb0 : 0 <= b) by (apply (budget_nonneg eq mp); assumption).
  rewrite Hb.
  assert (Hls : or_else (Num (inject_Z L)) (Num 1) = Num (inject_Z L)).
  { unfold or_else. cbn [falsy]. rewrite nonzero_Qeq_bool; [reflexivity |].
    change 0 with (inject_Z 0). rewrite <- Zlt_Qlt. lia. }
  rewrite Hls.
  destruct (raw_units b rps Hb0 Hrps Hmax) as (y & -> & Hy0 & Hymax & Hy).
  destruct (lot_rounding64 y L Hy0 Hymax HL) as (n & sz & Hn & -> & Esz & Hle & _).
  assert (Hsz0 : 0 <= sz).
  { rewrite Esz, <- inject_Z_mult. change 0 with (inject_Z 0). rewrite <- Zle_Qle. nia. }
  destruct (Math_max_0_Num sz Hsz0) as (sz' & -> & Esz').
  exists n, sz'. split; [exact Hn |]. split; [reflexivity |]. split; [now rewrite Esz' |].
  rewrite Esz'. destruct Hy as [Hy|Hy].
  - apply Qle_trans with (y * (1 + eps) * rps).
    + apply Qmult_le_compat_r; [exact Hle | lra].
    + assert (E : y * (1 + eps) * rps == y * rps * (1 + eps)) by ring.
      rewrite E. apply Qmult_le_compat_r; [exact Hy |]. rewrite Heps. discriminate.
  - (* the raw units underflow: no lot is bought *)
    assert (H1 : pow2 (-1022) * (1 + eps) < 1) by reflexivity.
    assert (Hlt : sz < 1).
    { apply Qle_lt_trans with (y * (1 + eps)); [exact Hle |].
      apply Qle_lt_trans with (pow2 (-1022) * (1 + eps)); [| exact H1].
      apply Qmult_le_compat_r; [exact Hy |]. rewrite Heps. discriminate. }
    assert (Hn0 : n = 0%Z).
    { rewrite Esz, <- inject_Z_mult in Hlt. change 1 with (inject_Z 1) in Hlt.
      rewrite <- Zlt_Qlt in Hlt. nia. }
    assert (E0 : sz == 0) by (rewrite Esz, Hn0; ring).
    rewrite E0. ring_simplify.
    assert (0 <= b * (1 + eps) * (1 + eps)).
    { rewrite Heps. apply Qmult_le_0_compat; [apply Qmult_le_0_compat |]; [exact Hb0 | discriminate | discriminate]. }
    lra.
Qed.

End PageSizerOnDoubles.

End Doubles.

(** *** No risk, no size *)

Section DegenerateOnDoubles.

Import F64.

Lemma calcSizing_riskPer64 (equity maxRiskPct entry stop lotSize : t) (side : Side)
      (feePct exitFeePct slippage : t) :
  Console64.riskPer (Console64.calcSizing equity maxRiskPct entry stop lotSize side
                                          feePct exitFeePct slippage)
  = Math_max (Num 0) (Console64.totalRisk entry stop side feePct exitFeePct slippage).
Proof. reflexivity. Qed.

Lemma Math_max_0_nonpos (a : t) : leb a (Num 0) = true -> Math_max (Num 0) a = Num 0.
Proof.
  intros H. pose proof (leb_not_ltb a H) as Hlt.
  destruct a; try discriminate; unfold Math_max; now rewrite Hlt.
Qed.

Lemma or_else_0_Num (x : Q) : exists x', or_else (Num x) (Num 0) = Num x' /\ x' == x.
Proof.
  unfold or_else. cbn [falsy]. destruct (Qeq_bool x 0) eqn:E.
  - apply Qeq_bool_iff in E. exists 0. split; [reflexivity | now rewrite E].
  - exists x. split; reflexivity.
Qed.

Lemma add_0_nonpos (a : t) : leb a (Num 0) = true -> leb (add a (Num 0)) (Num 0) = true.
Proof.
  destruct a as [p| | |]; try discriminate; [| intros _; reflexivity].
  intros H. cbn [leb] in H. apply Qle_bool_iff in H.
  cbn [add]. apply round_nonpos. lra.
Qed.

(** Without costs the total risk is the rounded price risk, and the
    rounding keeps its sign. *)
Lemma totalRisk_zero_cost (en st : Q) (side : Side) :
  match side with long => en <= st | short => st <= en end ->
  leb (Console64.totalRisk (Num en) (Num st) side (Num 0) (Num 0) (Num 0)) (Num 0) = true.
Proof.
  intros H. unfold Console64.totalRisk. cbv zeta.
  destruct (or_else_0_Num en) as (e & -> & Ee).
  destruct (or_else_0_Num st) as (s & -> & Es).
  assert (Efee : div (or_else (Num 0) (Num 0)) (Num 100) = Num 0).
  { change (or_else (Num 0) (Num 0)) with (Num 0). cbn [div].
    change (Qeq_bool 100 0) with false. cbv iota. apply round_zero. reflexivity. }
  rewrite Efee. change (or_else (Num 0) (Num 0)) with (Num 0).
  cbn [mul]. rewrite !round_zero by ring.
  cbn [add]. rewrite !round_zero by ring.
  apply add_0_nonpos. unfold sub. cbn [neg add].
  destruct side; apply round_nonpos; lra.
Qed.

End DegenerateOnDoubles.

(** The arithmetic of [F64] against the doubles of the machine, on
    numbers of the kind the sizers meet and at the edges of the format. *)
Example F64_agrees_with_hardware :
  forallb (fun '(a, b) => F64.agrees a b)
    [ (1 / 10, 2 / 10); (1000, 4 / 10); (10, 101 / 10); (507 / 100, 497 / 100);
      (100000, 7 / 1000); (23 / 2, 105 / 8); (1000, 13 / 36028797018963968);
      (9007199254740992, 3); (1 / 3, -0.5); (-7 / 2, 1 / 3);
      (0x1p1023, 2); (0x1.fffffffffffffp1023, 0x1p970); (0x1p-1074, 1 / 2);
      (0x1p-1074, 3); (0x1p-1022, 0x1.8p-1); (0x1p-600, 0x1p-600); (0, 5); (5, 0) ]%float
  = true.
Proof. vm_compute. reflexivity. Qed.

(** ** Position sizer *)

(** C1, as stated, fails on the code, which computes in double
    precision.  (1) A long plan with entry 10, stop 10.1 and slippage 0.05
    has an exact total risk of 0, but the computed one is the rounding
    residue 13 * 2^-55; the budget of 1000 then pays for
    2771445924535689728 units, which is not a multiple of the lot size 100.
    (2) With entry 1 and stop 0.6 the risk per unit is the double next to
    0.4, the suggested 2500 units risk 1000.0000000000000555..., which is
    more than the budget of 1000.  (3) With a lot size of 1.1 the size is
    999.9000000000001, which is no whole multiple of the lot size. *)
Lemma sizing_lots_within_budget_counterexample :
  let r1 := Console64.calcSizing (F64.Num 100000) (F64.Num 1) (F64.Num 10) (F64.lit (101 # 10))
                                 (F64.Num 100) long (F64.Num 0) (F64.Num 0) (F64.lit (5 # 100)) in
  let r2 := Console64.calcSizing (F64.Num 100000) (F64.Num 1) (F64.Num 1) (F64.lit (6 # 10))
                                 (F64.Num 100) long (F64.Num 0) (F64.Num 0) (F64.Num 0) in
  let r3 := Console64.calcSizing (F64.Num 100000) (F64.Num 1) (F64.Num 10) (F64.Num 9)
                                 (F64.lit (11 # 10)) long (F64.Num 0) (F64.Num 0) (F64.Num 0) in
  (Console64.riskPer r1 = F64.Num (13 # 36028797018963968) /\
   Console64.size r1 = F64.Num 2771445924535689728 /\
   forall n : Z, ~ 2771445924535689728 == inject_Z n * 100) /\
  (Console64.riskMoney r2 = F64.Num 1000 /\
   Console64.riskPer r2 = F64.Num (3602879701896397 # 9007199254740992) /\
   Console64.size r2 = F64.Num 2500 /\
   1000 < 2500 * (3602879701896397 # 9007199254740992)) /\
  (F64.lit (11 # 10) = F64.Num (2476979795053773 # 2251799813685248) /\
   Console64.size r3 = F64.Num (2198803353226445 # 2199023255552) /\
   forall n : Z, ~ (2198803353226445 # 2199023255552)
                   == inject_Z n * (2476979795053773 # 2251799813685248)).
Proof.
  cbv zeta. split; [| split].
  - split; [vm_compute; reflexivity |]. split; [vm_compute; reflexivity |].
    intros n H. unfold Qeq in H. cbn in H. lia.
  - split; [vm_compute; reflexivity |]. split; [vm_compute; reflexivity |].
    split; [vm_compute; reflexivity | reflexivity].
  - split; [vm_compute; reflexivity |]. split; [vm_compute; reflexivity |].
    intros n H. unfold Qeq in H. cbn in H. lia.
Qed.

(** C1, amended.  For positive equity and risk percentage and a whole
    lot size of at least 1, whenever the budget pays for no more than
    [Number.MAX_SAFE_INTEGER] units (budget and risk per unit being the
    doubles the sizer returns), the suggested size is a non-negative whole
    number of lots, exactly, and size times risk per unit exceeds the
    budget by the rounding of the division at most: by a factor of
    [1 + 2^-53] in [calcSizing], which takes the whole part of the quotient
    first, and by that factor twice in [calcRiskPosition], which does not.
    On every input with a finite lot size, [calcSizing] suggests size 0
    when the risk per unit is not positive. *)
Theorem sizing_lots_within_budget
        (equity maxRiskPct : Q) (lotSize : Z) (entry stop lot priceNow : F64.t) (side : Side)
        (feePct exitFeePct slippage : F64.t) (budget riskPer budget' riskPerShare : Q) :
  0 < equity -> 0 < maxRiskPct -> (1 <= lotSize)%Z ->
  let r := Console64.calcSizing (F64.Num equity) (F64.Num maxRiskPct) entry stop
                                (F64.Num (inject_Z lotSize)) side feePct exitFeePct slippage in
  let r' := Console64.calcSizing (F64.Num equity) (F64.Num maxRiskPct) entry stop
                                 lot side feePct exitFeePct slippage in
  let p := Page64.calcRiskPosition (F64.Num equity) (F64.Num maxRiskPct) entry stop priceNow
                                   (F64.Num (inject_Z lotSize)) in
  (Console64.riskMoney r = F64.Num budget -> Console64.riskPer r = F64.Num riskPer ->
   budget <= inject_Z F64.max_safe * riskPer ->
   exists (n : Z) (size : Q),
     (0 <= n)%Z /\ Console64.size r = F64.Num size /\
     size == inject_Z n * inject_Z lotSize /\
     size * riskPer <= budget * (1 + F64.eps)) /\
  (lot <> F64.PosInf -> F64.leb (Console64.riskPer r') (F64.Num 0) = true ->
   Console64.size r' = F64.Num 0) /\
  (Page64.riskMoney p = F64.Num budget' -> Page64.riskPerShare p = F64.Num riskPerShare ->
   budget' <= inject_Z F64.max_safe * riskPerShare ->
   exists (n : Z) (shares : Q),
     (0 <= n)%Z /\ Page64.shares p = F64.Num shares /\
     shares == inject_Z n * inject_Z lotSize /\
     shares * riskPerShare <= budget' * (1 + F64.eps) * (1 + F64.eps)).
Proof.
  intros He Hm Hl r r' p. unfold F64.max_safe. split; [| split].
  - intros Hb Hr Hmax. exact (calcSizing_whole_lots equity maxRiskPct lotSize entry stop side
                                feePct exitFeePct slippage budget riskPer He Hm Hl Hb Hr Hmax).
  - intros Hlot Hr. apply calcSizing_no_risk; [exact Hlot | now apply leb_not_ltb].
  - intros Hb Hr Hmax. exact (calcRiskPosition_whole_lots equity maxRiskPct lotSize entry stop
                                priceNow budget' riskPerShare He Hm Hl Hb Hr Hmax).
Qed.

Lemma sizing_lots_within_budget_witness :
  (exists (n : Z) (size : Q),
      (0 <= n)%Z /\
      Console64.size (Console64.calcSizing (F64.Num 100000) (F64.Num 1) (F64.lit (2011 # 100))
                                           (F64.lit (1875 # 100)) (F64.Num (inject_Z 100)) long
                                           (F64.lit (3 # 100)) (F64.lit (1 # 10))
                                           (F64.lit (1 # 100)))
      = F64.Num size /\
      size == inject_Z n * inject_Z 100 /\
      size * (1587978235810091 # 1125899906842624) <= 1000 * (1 + F64.eps)) /\
  Console64.size (Console64.calcSizing (F64.Num 100000) (F64.Num 1) (F64.Num 10) (F64.Num 11)
                                       (F64.Num 100) long
                                       (F64.lit (3 # 100)) (F64.lit (1 # 10)) (F64.lit (1 # 100)))
  = F64.Num 0 /\
  (exists (n : Z) (shares : Q),
      (0 <= n)%Z /\
      Page64.shares (Page64.calcRiskPosition (F64.Num 100000) (F64.Num 1) (F64.lit (2011 # 100))
                                             (F64.lit (1875 # 100)) (F64.Num 0)
                                             (F64.Num (inject_Z 100)))
      = F64.Num shares /\
      shares == inject_Z n * inject_Z 100 /\
      shares * (95701492081623 # 70368744177664) <= 1000 * (1 + F64.eps) * (1 + F64.eps)).
Proof.
  destruct (sizing_lots_within_budget
              100000 1 100 (F64.lit (2011 # 100)) (F64.lit (1875 # 100)) (F64.Num 100)
              (F64.Num 0) long (F64.lit (3 # 100)) (F64.lit (1 # 10)) (F64.lit (1 # 100))
              1000 (1587978235810091 # 1125899906842624)
              1000 (95701492081623 # 70368744177664))
    as (Hsize & _ & Hshares); [reflexivity | reflexivity | lia |].
  destruct (sizing_lots_within_budget
              100000 1 100 (F64.Num 10) (F64.Num 11) (F64.Num 100)
              (F64.Num 0) long (F64.lit (3 # 100)) (F64.lit (1 # 10)) (F64.lit (1 # 100))
              1000 0 1000 1)
    as (_ & Hzero & _); [reflexivity | reflexivity | lia |].
  split; [| split].
  - apply Hsize; [vm_compute; reflexivity | vm_compute; reflexivity | vm_compute; discriminate].
  - apply Hzero; [discriminate | vm_compute; reflexivity].
  - apply Hshares; [vm_compute; reflexivity | vm_compute; reflexivity | vm_compute; discriminate].
Defined.

(** C9. The worked example: a long trade with entry 10, stop 9, equity
    100000, 1 percent maximum risk, lots of 100 and no costs has risk per
    unit 1, risk budget 1000, size 1000 and a position of 10 percent of
    equity. *)
Theorem calcSizing_worked_example :
  Console.riskPer (Console.calcSizing 100000 1 10 9 100 long 0 0 0) == 1 /\
  Console.riskMoney (Console.calcSizing 100000 1 10 9 100 long 0 0 0) == 1000 /\
  Console.size (Console.calcSizing 100000 1 10 9 100 long 0 0 0) == 1000 /\
  Console.posPct (Console.calcSizing 100000 1 10 9 100 long 0 0 0) == 10.
Proof. vm_compute. repeat split. Qed.

(** The same plan on doubles: every intermediate result is a double,
    and the two embeddings of the sizer agree. *)
Example calcSizing_worked_example_on_doubles :
  Console64.calcSizing (F64.Num 100000) (F64.Num 1) (F64.Num 10) (F64.Num 9) (F64.Num 100)
                       long (F64.Num 0) (F64.Num 0) (F64.Num 0)
  = {| Console64.riskPer := F64.Num 1; Console64.riskMoney := F64.Num 1000;
       Console64.size := F64.Num 1000; Console64.posPct := F64.Num 10 |}.
Proof. vm_compute. reflexivity. Qed.

(** C2, as stated, fails on the code: with the default cost settings
    (fee 0.03 percent, exit fee 0.10 percent, slippage 0.01) a long draft
    with entry = stop = 10 has price risk 0, yet [calcSizing] reports a
    risk per unit of 0.036000000000000004 and a size of 27700; and the
    simple [calcRiskPosition] sizes a draft with stop 11 above entry 10 at
    1000 shares. *)
Lemma sizing_zero_on_violated_ordering_counterexample :
  let r := Console64.calcSizing (F64.Num 100000) (F64.Num 1) (F64.Num 10) (F64.Num 10)
                                (F64.Num 100) long
                                (F64.lit (3 # 100)) (F64.lit (1 # 10)) (F64.lit (1 # 100)) in
  let p := Page64.calcRiskPosition (F64.Num 100000) (F64.Num 1) (F64.Num 10) (F64.Num 11)
                                   (F64.Num 0) (F64.Num 100) in
  10 - 10 <= 0 /\
  Console64.riskPer r = F64.Num (1297036692682703 # 36028797018963968) /\
  Console64.size r = F64.Num 27700 /\
  10 - 11 <= 0 /\
  Page64.riskPerShare p = F64.Num 1 /\
  Page64.shares p = F64.Num 1000.
Proof.
  cbv zeta. split; [discriminate |]. split; [vm_compute; reflexivity |].
  split; [vm_compute; reflexivity |]. split; [discriminate |].
  split; vm_compute; reflexivity.
Qed.

(** C2, amended.  On every input with a finite lot size, [calcSizing]
    returns size 0 and risk per unit 0 whenever the total risk per unit
    it computes, the side-relative price risk plus the per-unit cost risk
    in double precision, is zero or negative; in particular, for a finite
    entry and stop, whenever the price risk is zero or negative and fee,
    exit fee and slippage are all zero. *)
Theorem calcSizing_zero_when_no_total_risk
        (equity maxRiskPct entry stop lotSize : F64.t) (side : Side)
        (feePct exitFeePct slippage : F64.t) (en st : Q) :
  lotSize <> F64.PosInf ->
  let r := Console64.calcSizing equity maxRiskPct entry stop lotSize side
                                feePct exitFeePct slippage in
  let r0 := Console64.calcSizing equity maxRiskPct (F64.Num en) (F64.Num st) lotSize side
                                 (F64.Num 0) (F64.Num 0) (F64.Num 0) in
  (F64.leb (Console64.totalRisk entry stop side feePct exitFeePct slippage) (F64.Num 0) = true ->
   Console64.size r = F64.Num 0 /\ Console64.riskPer r = F64.Num 0) /\
  (match side with long => en <= st | short => st <= en end ->
   Console64.size r0 = F64.Num 0 /\ Console64.riskPer r0 = F64.Num 0).
Proof.
  intros Hlot r r0.
  assert (Hzero : forall entry stop feePct exitFeePct slippage,
             F64.leb (Console64.totalRisk entry stop side feePct exitFeePct slippage)
                     (F64.Num 0) = true ->
             Console64.size (Console64.calcSizing equity maxRiskPct entry stop lotSize side
                                                  feePct exitFeePct slippage) = F64.Num 0 /\
             Console64.riskPer (Console64.calcSizing equity maxRiskPct entry stop lotSize side
                                                     feePct exitFeePct slippage) = F64.Num 0).
  { intros e s f xf sl H.
    assert (Hr : Console64.riskPer (Console64.calcSizing equity maxRiskPct e s lotSize side
                                                         f xf sl) = F64.Num 0).
    { rewrite calcSizing_riskPer64. now apply Math_max_0_nonpos. }
    split; [| exact Hr].
    apply calcSizing_no_risk; [exact Hlot |]. rewrite Hr. reflexivity. }
  split.
  - apply Hzero.
  - intros H. apply Hzero. now apply totalRisk_zero_cost.
Qed.

Lemma calcSizing_zero_when_no_total_risk_witness :
  Console64.size (Console64.calcSizing (F64.Num 100000) (F64.Num 1) (F64.Num 10) (F64.Num 11)
                                       (F64.Num 100) long
                                       (F64.lit (3 # 100)) (F64.lit (1 # 10)) (F64.lit (1 # 100)))
  = F64.Num 0 /\
  Console64.riskPer (Console64.calcSizing (F64.Num 100000) (F64.Num 1) (F64.Num 9) (F64.Num 10)
                                          (F64.Num 100) long (F64.Num 0) (F64.Num 0) (F64.Num 0))
  = F64.Num 0.
Proof.
  assert (Hlot : F64.Num 100 <> F64.PosInf) by discriminate.
  destruct (calcSizing_zero_when_no_total_risk
              (F64.Num 100000) (F64.Num 1) (F64.Num 10) (F64.Num 11) (F64.Num 100) long
              (F64.lit (3 # 100)) (F64.lit (1 # 10)) (F64.lit (1 # 100)) 9 10 Hlot)
    as [Htotal Hprice].
  split.
  - apply Htotal. vm_compute. reflexivity.
  - apply Hprice. discriminate.
Defined.

(** ** Outcome calculator *)

Section Outcome.

Lemma calcCosts_zero (entry exit size : Q) : Console.calcCosts entry exit size 0 0 0 == 0.
Proof. unfold Console.calcCosts. cbv zeta. change (Math_abs 0) with 0. field. Qed.

Lemma calcPnL_long_zero_cost (t : Page.Trade) :
  Console.calcPnL (Page.entry t) (Page.exit t) (Page.sizeShares t) long 0 0 0
  == Page.calcPnL t.
Proof.
  unfold Console.calcPnL, Page.calcPnL. cbv zeta.
  destruct (_ || _ || _); [reflexivity |].
  rewrite calcCosts_zero. ring.
Qed.

Lemma calcPnL_unit_long_zero_cost (entry exit : Q) :
  ~ entry == 0 -> ~ exit == 0 ->
  Console.calcPnL entry exit 1 long 0 0 0 == exit - entry.
Proof.
  intros He Hx. unfold Console.calcPnL.
  destruct (falsy_spec entry); [contradiction |].
  destruct (falsy_spec exit); [contradiction |]. simpl.
  rewrite calcCosts_zero. ring.
Qed.

Lemma calcR_long_positive_risk (entry stop exit : Q) :
  stop < entry ->
  Console.calcR entry stop exit long 0 0 0
  == Console.calcPnL entry exit 1 long 0 0 0 / (entry - stop).
Proof.
  intros H. unfold Console.calcR. cbv zeta.
  destruct (falsy_spec (entry - stop)); [exfalso; lra |].
  destruct (leb_spec (entry - stop) 0); [exfalso; lra |]. reflexivity.
Qed.

Lemma calcR_long_no_risk (entry stop exit : Q) :
  entry <= stop -> Console.calcR entry stop exit long 0 0 0 == 0.
Proof.
  intros H. unfold Console.calcR. cbv zeta.
  destruct (falsy_spec (entry - stop)); [reflexivity |].
  destruct (leb_spec (entry - stop) 0); [reflexivity | exfalso; lra].
Qed.

Lemma abs_risk_long (entry stop : Q) : stop < entry -> Math_abs (entry - stop) == entry - stop.
Proof. intros H. unfold Math_abs. apply Qabs_pos. lra. Qed.

End Outcome.

(** C5, as stated, fails on the code: for a long trade with entry 10,
    stop 11 and exit 12 the cost-aware [calcR] with zero costs is 0,
    whereas (exit - entry) / |entry - stop| is 2, which is also what the
    simple [calcRMultiple] returns for that trade. *)
Lemma long_zero_cost_R_counterexample :
  Console.calcR 10 11 12 long 0 0 0 == 0 /\
  (12 - 10) / Math_abs (10 - 11) == 2 /\
  ~ Console.calcR 10 11 12 long 0 0 0 == (12 - 10) / Math_abs (10 - 11) /\
  Forall2 Qeq (map Page.calcRMultiple (Page.trades Samples.invertedClosed)) [2].
Proof.
  split; [reflexivity |]. split; [reflexivity |]. split; [discriminate |].
  vm_compute. repeat constructor.
Qed.

(** C5, amended.  With side long and zero costs the cost-aware [calcPnL]
    agrees with the simple one on every trade: 0 when entry, exit or size
    is zero and (exit - entry) * size otherwise.  The cost-aware [calcR]
    equals (exit - entry) / |entry - stop| when stop < entry and entry
    and exit are non-zero, and agrees with the simple [calcRMultiple]
    when stop < entry and stop and size are non-zero; when
    entry <= stop it is 0. *)
Theorem long_zero_cost_outcome (t : Page.Trade) :
  let entry := Page.entry t in
  let stop := Page.stop t in
  let exit := Page.exit t in
  let units := Page.sizeShares t in
  Console.calcPnL entry exit units long 0 0 0 == Page.calcPnL t /\
  (entry == 0 \/ exit == 0 \/ units == 0 -> Page.calcPnL t == 0) /\
  (~ entry == 0 -> ~ exit == 0 -> ~ units == 0 -> Page.calcPnL t == (exit - entry) * units) /\
  (stop < entry -> ~ entry == 0 -> ~ exit == 0 ->
   Console.calcR entry stop exit long 0 0 0 == (exit - entry) / Math_abs (entry - stop)) /\
  (stop < entry -> ~ stop == 0 -> ~ units == 0 ->
   Console.calcR entry stop exit long 0 0 0 == Page.calcRMultiple t) /\
  (entry <= stop -> Console.calcR entry stop exit long 0 0 0 == 0).
Proof.
  intros entry stop exit units.
  split; [apply calcPnL_long_zero_cost |].
  split.
  { unfold Page.calcPnL. fold entry exit units. cbv zeta.
    intros [H | [H | H]];
      destruct (falsy_spec entry), (falsy_spec exit), (falsy_spec units);
      simpl; try reflexivity; contradiction. }
  split.
  { unfold Page.calcPnL. fold entry exit units. cbv zeta. intros He Hx Hu.
    destruct (falsy_spec entry); [contradiction |].
    destruct (falsy_spec exit); [contradiction |].
    destruct (falsy_spec units); [contradiction |]. reflexivity. }
  split.
  { intros Hlt He Hx. rewrite calcR_long_positive_risk by exact Hlt.
    rewrite calcPnL_unit_long_zero_cost by assumption.
    now rewrite abs_risk_long. }
  split.
  { intros Hlt Hs Hu. rewrite calcR_long_positive_risk by exact Hlt.
    unfold Page.calcRMultiple. fold entry stop exit units. cbv zeta.
    destruct (falsy_spec stop); [contradiction |].
    destruct (falsy_spec units); [contradiction |].
    assert (Hz : forall x, 0 / x == 0) by (intros x; unfold Qdiv; apply Qmult_0_l).
    unfold Console.calcPnL.
    change (falsy 1) with false.
    destruct (falsy_spec entry); cbn [orb]; [apply Hz |].
    destruct (falsy_spec exit); cbn [orb]; [apply Hz |].
    destruct (eqb_spec (Math_abs (entry - stop)) 0) as [Ha|_].
    - rewrite abs_risk_long in Ha by exact Hlt. exfalso. lra.
    - rewrite calcCosts_zero, abs_risk_long by exact Hlt.
      apply Qdiv_comp; [ring | reflexivity]. }
  apply calcR_long_no_risk.
Qed.

Lemma long_zero_cost_outcome_witness :
  Forall (fun t =>
            Page.calcPnL t == (Page.exit t - Page.entry t) * Page.sizeShares t /\
            Console.calcR (Page.entry t) (Page.stop t) (Page.exit t) long 0 0 0
            == Page.calcRMultiple t)
         (Page.trades Samples.leveragedLoss).
Proof.
  assert (Hsession : exists t, Page.trades Samples.leveragedLoss = [t] /\
                               Page.entry t == 10 /\ Page.stop t == 9 /\
                               Page.exit t == 5 /\ Page.sizeShares t == 1000).
  { eexists. split; [reflexivity |]. vm_compute. repeat split. }
  destruct Hsession as (t & -> & He & Hs & Hx & Hu).
  destruct (long_zero_cost_outcome t) as (_ & _ & Hpnl & _ & HR & _).
  constructor; [| constructor]. split.
  - apply Hpnl; intros H; rewrite H in *; discriminate.
  - apply HR; [rewrite He, Hs; reflexivity | |]; intros H; rewrite H in *; discriminate.
Defined.

(** ** Creating a trade *)

Section Creation.

Lemma console_alert_only (msg : string) (a : Console.App) :
  Console.trades (Console.alert msg a) = Console.trades a /\
  Console.draft (Console.alert msg a) = Console.draft a /\
  Console.settings (Console.alert msg a) = Console.settings a /\
  Console.tab (Console.alert msg a) = Console.tab a /\
  Console.alerts (Console.alert msg a) = Console.alerts a ++ [msg].
Proof. repeat split. Qed.

Lemma page_alert_only (msg : string) (a : Page.App) :
  Page.trades (Page.alert msg a) = Page.trades a /\
  Page.draft (Page.alert msg a) = Page.draft a /\
  Page.settings (Page.alert msg a) = Page.settings a /\
  Page.activeTab (Page.alert msg a) = Page.activeTab a /\
  Page.alerts (Page.alert msg a) = Page.alerts a ++ [msg].
Proof. repeat split. Qed.

(** The cost-aware console rejects a draft whose stop is missing or
    not positive, or on the wrong side of the entry. *)
Lemma console_addTrade_rejects (uid : string) (now : Z) (a : Console.App) :
  Console.d_stop (Console.draft a) <= 0 \/
  (Console.d_side (Console.draft a) = long /\
   Console.d_entry (Console.draft a) <= Console.d_stop (Console.draft a)) \/
  (Console.d_side (Console.draft a) = short /\
   Console.d_stop (Console.draft a) <= Console.d_entry (Console.draft a)) ->
  exists msg, Console.addTrade uid now a = Console.alert msg a.
Proof.
  intros H. unfold Console.addTrade. cbv zeta.
  destruct (str_falsy _); [eauto |].
  destruct (falsy_spec (Console.d_stop (Console.draft a))); cbn [orb]; [eauto |].
  destruct (leb_spec (Console.d_stop (Console.draft a)) 0); [eauto |].
  destruct (falsy _ || leb _ _); [eauto |].
  destruct H as [H | [[Hside H] | [Hside H]]]; [contradiction | |]; rewrite Hside; simpl.
  - destruct (leb_spec (Console.d_entry (Console.draft a)) (Console.d_stop (Console.draft a)));
      [eauto | contradiction].
  - destruct (leb_spec (Console.d_stop (Console.draft a)) (Console.d_entry (Console.draft a)));
      [eauto | contradiction].
Qed.

(** The simple console rejects a draft whose stop is missing or not
    positive. *)
Lemma page_addTrade_rejects (uid : string) (now : Z) (a : Page.App) :
  Page.stop (Page.draft a) <= 0 ->
  exists msg, Page.addTrade uid now a = Page.alert msg a.
Proof.
  intros H. unfold Page.addTrade. cbv zeta.
  destruct (str_falsy _); [eauto |].
  destruct (falsy_spec (Page.stop (Page.draft a))); cbn [orb]; [eauto |].
  destruct (leb_spec (Page.stop (Page.draft a)) 0); [eauto | contradiction].
Qed.

End Creation.

(** C4, as stated, fails on the code: the simple console (src/Page.tsx),
    whose drafts are long by default, saves a draft with stop 11 above
    entry 10; no alert is raised and the trade is added. *)
Lemma addTrade_rejects_inverted_stop_counterexample :
  Page.entry (Page.draft Samples.invertedDraft) <= Page.stop (Page.draft Samples.invertedDraft) /\
  Page.trades Samples.invertedDraft = [] /\
  Page.alerts (Page.addTrade "t1" 1 Samples.invertedDraft) = [] /\
  length (Page.trades (Page.addTrade "t1" 1 Samples.invertedDraft)) = 1%nat /\
  Page.trades (Page.addTrade "t1" 1 Samples.invertedDraft) <> Page.trades Samples.invertedDraft.
Proof.
  split; [vm_compute; discriminate |]. split; [reflexivity |].
  split; [reflexivity |]. split; [reflexivity |].
  intros H. apply (f_equal (@length _)) in H. vm_compute in H. discriminate.
Qed.

(** C4, amended.  In the cost-aware console, a draft whose stop is
    missing or not positive, or whose stop does not lie below the entry
    (long) or above it (short), is rejected: an alert is raised and the
    trades, the draft, the settings and the tab are unchanged.  In the
    simple console a draft whose stop is missing or not positive is
    rejected in the same way. *)
Theorem addTrade_rejects_invalid_stop
        (uid : string) (now : Z) (a : Console.App) (b : Page.App) :
  (Console.d_stop (Console.draft a) <= 0 \/
   (Console.d_side (Console.draft a) = long /\
    Console.d_entry (Console.draft a) <= Console.d_stop (Console.draft a)) \/
   (Console.d_side (Console.draft a) = short /\
    Console.d_stop (Console.draft a) <= Console.d_entry (Console.draft a)) ->
   exists msg,
     Console.alerts (Console.addTrade uid now a) = Console.alerts a ++ [msg] /\
     Console.trades (Console.addTrade uid now a) = Console.trades a /\
     Console.draft (Console.addTrade uid now a) = Console.draft a /\
     Console.settings (Console.addTrade uid now a) = Console.settings a /\
     Console.tab (Console.addTrade uid now a) = Console.tab a) /\
  (Page.stop (Page.draft b) <= 0 ->
   exists msg,
     Page.alerts (Page.addTrade uid now b) = Page.alerts b ++ [msg] /\
     Page.trades (Page.addTrade uid now b) = Page.trades b /\
     Page.draft (Page.addTrade uid now b) = Page.draft b /\
     Page.settings (Page.addTrade uid now b) = Page.settings b /\
     Page.activeTab (Page.addTrade uid now b) = Page.activeTab b).
Proof.
  split; intros H.
  - destruct (console_addTrade_rejects uid now a H) as [msg ->].
    exists msg. repeat split.
  - destruct (page_addTrade_rejects uid now b H) as [msg ->].
    exists msg. repeat split.
Qed.

Lemma addTrade_rejects_invalid_stop_witness :
  (exists msg,
     Console.alerts (Console.addTrade "t1" 1 (Samples.consoleWith long 10 11)) = [msg] /\
     Console.trades (Console.addTrade "t1" 1 (Samples.consoleWith long 10 11)) = []) /\
  (exists msg,
     Page.alerts (Page.addTrade "t1" 1 Samples.noStopDraft) = [msg] /\
     Page.trades (Page.addTrade "t1" 1 Samples.noStopDraft) = []).
Proof.
  destruct (addTrade_rejects_invalid_stop "t1" 1 (Samples.consoleWith long 10 11)
                                          Samples.noStopDraft) as [Hc Hp].
  split.
  - destruct Hc as (msg & Ha & Ht & _).
    + right. left. split; [reflexivity | vm_compute; discriminate].
    + exists msg. split; [exact Ha | exact Ht].
  - destruct Hp as (msg & Ha & Ht & _).
    + vm_compute. discriminate.
    + exists msg. split; [exact Ha | exact Ht].
Defined.

(** ** Portfolio aggregator *)

Section Aggregator.

(** *** Sums and counts *)

Lemma qsum_shift {A : Type} (f : A -> Q) (l : list A) (a : Q) :
  fold_left (fun s x => s + f x) l a == a + fold_left (fun s x => s + f x) l 0.
Proof.
  revert a. induction l as [|x l IH]; intros a; simpl.
  - ring.
  - rewrite (IH (a + f x)), (IH (0 + f x)). ring.
Qed.

Lemma qsum_sign {A : Type} (f : A -> Q) (l : list A) :
  Forall (fun x => 0 < f x) l ->
  0 <= fold_left (fun s x => s + f x) l 0 /\
  (l <> [] -> 0 < fold_left (fun s x => s + f x) l 0).
Proof.
  induction 1 as [|x l Hx _ [IH _]]; simpl.
  - split; [lra | congruence].
  - rewrite qsum_shift. split; intros; lra.
Qed.

Lemma len_nil_iff {A : Type} (l : list A) : len l == 0 <-> l = [].
Proof.
  unfold len. split.
  - intros H. destruct l; [reflexivity |].
    change 0 with (inject_Z 0) in H. apply inject_Z_injective in H. discriminate.
  - intros ->. reflexivity.
Qed.

Lemma len_pos {A : Type} (l : list A) : l <> [] -> 0 < len l.
Proof.
  intros H. unfold len. destruct l; [congruence |].
  change 0 with (inject_Z 0). rewrite <- Zlt_Qlt. simpl. lia.
Qed.

(** A mean has the sign of its sum; an empty bucket has mean 0. *)
Lemma mean_sign {A : Type} (f : A -> Q) (l : list A) :
  Forall (fun x => 0 < f x) l ->
  let mean := if falsy (len l) then 0
              else fold_left (fun s x => s + f x) l 0 / len l in
  0 <= mean /\ (mean == 0 <-> l = []).
Proof.
  intros Hl mean. unfold mean.
  destruct (falsy_spec (len l)) as [Hz|Hnz].
  - apply len_nil_iff in Hz. split; [lra |]. split; [intros _; exact Hz | reflexivity].
  - assert (Hne : l <> []) by (intros E; apply Hnz; now apply len_nil_iff).
    pose proof (len_pos l Hne) as Hlen.
    destruct (qsum_sign f l Hl) as [_ Hsum]. specialize (Hsum Hne).
    assert (Hmean : 0 < fold_left (fun s x => s + f x) l 0 / len l).
    { apply Qlt_shift_div_l; lra. }
    split; [lra |]. split; [intros E; exfalso; lra | contradiction].
Qed.

(** *** Wins and losses *)

Lemma wins_positive (closed : list Page.Trade) :
  Forall (fun t => 0 < or_else (Page.pnl t) 0) (Page.winsOf closed).
Proof.
  apply Forall_forall. intros t Ht. apply list_elem_of_In, filter_In in Ht as [_ Ht].
  destruct (ltb_spec 0 (Page.pnl t)) as [H|]; [| discriminate].
  now rewrite or_else_0.
Qed.

Lemma losses_negative (closed : list Page.Trade) :
  Forall (fun t => 0 < - or_else (Page.pnl t) 0) (Page.lossesOf closed).
Proof.
  apply Forall_forall. intros t Ht. apply list_elem_of_In, filter_In in Ht as [_ Ht].
  destruct (ltb_spec (Page.pnl t) 0) as [H|]; [| discriminate].
  rewrite or_else_0. lra.
Qed.

Lemma qsum_opp {A : Type} (f : A -> Q) (l : list A) :
  fold_left (fun s x => s + - f x) l 0 == - fold_left (fun s x => s + f x) l 0.
Proof.
  induction l as [|x l IH]; simpl.
  - reflexivity.
  - rewrite (qsum_shift (fun x => - f x)), (qsum_shift f), IH. ring.
Qed.


Lemma sumPnl_losses_sign (closed : list Page.Trade) :
  Page.sumPnl (Page.lossesOf closed) <= 0 /\
  (Page.sumPnl (Page.lossesOf closed) == 0 <-> Page.lossesOf closed = []).
Proof.
  unfold Page.sumPnl.
  destruct (qsum_sign _ _ (losses_negative closed)) as [H0 Hpos].
  rewrite qsum_opp in H0. split; [lra |]. split.
  - intros E. destruct (Page.lossesOf closed) eqn:Hw; [reflexivity |].
    exfalso. assert (0 < fold_left (fun s t => s + - or_else (Page.pnl t) 0) (t :: l) 0)
      by (apply Hpos; congruence).
    rewrite qsum_opp in H. lra.
  - intros ->. reflexivity.
Qed.


(** The shape shared by [winLossRatio] and [profitFactor]. *)
Lemma guarded_ratio_cases (win loss q : Q) :
  0 <= win ->
  let ratio := if eqb loss 0 then (if ltb 0 win then Infinity else Fin 0) else Fin q in
  (ratio = Infinity <-> loss == 0 /\ 0 < win) /\
  (loss == 0 -> win == 0 -> ratio = Fin 0) /\
  (~ loss == 0 -> ratio = Fin q).
Proof.
  intros Hw ratio. unfold ratio.
  destruct (eqb_spec loss 0) as [Hl|Hl]; [destruct (ltb_spec 0 win) as [Hp|Hp] |].
  - repeat split; auto; intros; try contradiction. exfalso. lra.
  - repeat split; auto; try discriminate; intros; try contradiction.
    destruct H as [_ H]. contradiction.
  - repeat split; auto; try discriminate; intros; try contradiction.
    destruct H as [H _]. contradiction.
Qed.

End Aggregator.

Section Ratios.

Lemma avgWin_sign (trades : list Page.Trade) (startingEquity : Q) :
  0 <= Page.avgWin (Page.computeKPIs trades startingEquity) /\
  (Page.avgWin (Page.computeKPIs trades startingEquity) == 0
   <-> Page.winsOf (Page.closedOf trades) = []).
Proof.
  apply (mean_sign (fun t => or_else (Page.pnl t) 0)), wins_positive.
Qed.

Lemma avgLoss_sign (trades : list Page.Trade) (startingEquity : Q) :
  Page.avgLoss (Page.computeKPIs trades startingEquity) <= 0 /\
  (Page.avgLoss (Page.computeKPIs trades startingEquity) == 0
   <-> Page.lossesOf (Page.closedOf trades) = []).
Proof.
  unfold Page.computeKPIs. cbv zeta. cbn [Page.avgLoss].
  set (losses := Page.lossesOf (Page.closedOf trades)).
  destruct (falsy_spec (len losses)) as [Hz|Hnz].
  - apply len_nil_iff in Hz. split; [lra |]. split; [intros _; exact Hz | reflexivity].
  - assert (Hne : losses <> []) by (intros E; apply Hnz; now apply len_nil_iff).
    pose proof (len_pos losses Hne) as Hlen.
    destruct (sumPnl_losses_sign (Page.closedOf trades)) as [Hle Hiff].
    fold losses in Hle, Hiff.
    assert (Hlt : Page.sumPnl losses < 0).
    { apply Qle_lteq in Hle. destruct Hle as [Hlt|He]; [exact Hlt |].
      apply Hiff in He. contradiction. }
    assert (Hmean : 0 < - Page.sumPnl losses / len losses)
      by (apply Qlt_shift_div_l; lra).
    assert (E : - Page.sumPnl losses / len losses == - (Page.sumPnl losses / len losses))
      by (field; intro; lra).
    rewrite E in Hmean.
    split; [lra |]. split; [intros E0; exfalso; lra | contradiction].
Qed.


(** In terms of the trades: the win/loss ratio is infinite exactly when
    some closed trade won and none lost. *)
Lemma winLossRatio_infinite_iff (trades : list Page.Trade) (startingEquity : Q) :
  Page.winLossRatio (Page.computeKPIs trades startingEquity) = Infinity
  <-> Page.winsOf (Page.closedOf trades) <> [] /\ Page.lossesOf (Page.closedOf trades) = [].
Proof.
  destruct (avgWin_sign trades startingEquity) as [Hw Hwz].
  destruct (avgLoss_sign trades startingEquity) as [_ Hlz].
  set (k := Page.computeKPIs trades startingEquity) in *.
  destruct (guarded_ratio_cases (Page.avgWin k) (Page.avgLoss k)
              (Math_abs (Page.avgWin k / Page.avgLoss k)) Hw) as [Hinf _].
  change (Page.winLossRatio k = Infinity
          <-> Page.avgLoss k == 0 /\ 0 < Page.avgWin k) in Hinf.
  rewrite Hinf, Hlz. split; intros [H1 H2].
  - split; [| exact H1]. intros E. apply Hwz in E. lra.
  - split; [exact H2 |]. apply Qle_lteq in Hw. destruct Hw as [Hw|Hw]; [exact Hw |].
    symmetry in Hw. apply Hwz in Hw. contradiction.
Qed.

End Ratios.



Section EquityWalk.

Lemma closedOf_all_open (trades : list Page.Trade) :
  Forall (fun t => Page.status t = open) trades -> Page.closedOf trades = [].
Proof.
  intros H. unfold Page.closedOf.
  replace (List.filter _ trades) with (@nil Page.Trade); [reflexivity |].
  induction H as [|t l Ht _ IH]; [reflexivity |].
  simpl. rewrite Ht. simpl. exact IH.
Qed.

Lemma forEach_app {A S : Type} (f : S -> A -> nat -> S) (l l' : list A) (i : nat) (s : S) :
  forEach f (l ++ l') i s = forEach f l' (i + length l)%nat (forEach f l i s).
Proof.
  revert i s. induction l as [|x l IH]; intros i s; simpl.
  - now rewrite Nat.add_0_r.
  - rewrite IH. now rewrite Nat.add_succ_comm.
Qed.

Lemma walkStep_maxDD_mono (s : Page.Walk) (t : Page.Trade) (i : nat) :
  Page.w_maxDD s <= Page.w_maxDD (Page.walkStep s t i).
Proof. unfold Page.walkStep. cbv zeta. simpl. apply Q.le_max_l. Qed.

Lemma walk_maxDD_mono (l : list Page.Trade) (i : nat) (s : Page.Walk) :
  Page.w_maxDD s <= Page.w_maxDD (forEach Page.walkStep l i s).
Proof.
  revert i s. induction l as [|t l IH]; intros i s; simpl.
  - apply Qle_refl.
  - eapply Qle_trans; [apply (walkStep_maxDD_mono s t i) | apply IH].
Qed.

Lemma walk_curve_extends (l : list Page.Trade) (i : nat) (s : Page.Walk) :
  exists ext, Page.w_curve (forEach Page.walkStep l i s) = Page.w_curve s ++ ext.
Proof.
  revert i s. induction l as [|t l IH]; intros i s; simpl.
  - exists []. now rewrite app_nil_r.
  - destruct (IH (S i) (Page.walkStep s t i)) as [ext E]. rewrite E.
    unfold Page.walkStep at 1. cbv zeta. cbn [Page.w_curve].
    rewrite <- app_assoc. eauto.
Qed.

(** One step keeps the drawdown within 1 when the new equity is not
    negative. *)
Lemma walkStep_maxDD_le1 (s : Page.Walk) (t : Page.Trade) (i : nat) :
  Page.w_maxDD s <= 1 ->
  0 <= Page.w_eq (Page.walkStep s t i) ->
  Page.w_maxDD (Page.walkStep s t i) <= 1.
Proof.
  unfold Page.walkStep. cbv zeta. cbn [Page.w_maxDD Page.w_eq]. intros Hs He.
  set (eq := Page.w_eq s + or_else (Page.pnl t) 0) in *.
  set (peak := Math_max (Page.w_peak s) eq).
  unfold Math_max at 1. apply Q.max_lub; [exact Hs |].
  destruct (ltb_spec 0 peak) as [Hp|_]; [| lra].
  apply Qle_shift_div_r; lra.
Qed.

Lemma walk_maxDD_le1 (l : list Page.Trade) (i : nat) (s : Page.Walk) :
  Page.w_maxDD s <= 1 ->
  Forall (fun p => 0 <= Page.pt_equity p) (Page.w_curve (forEach Page.walkStep l i s)) ->
  Page.w_maxDD (forEach Page.walkStep l i s) <= 1.
Proof.
  revert i s. induction l as [|t l IH]; intros i s Hs Hcurve; simpl in *.
  - exact Hs.
  - apply IH; [| exact Hcurve].
    apply walkStep_maxDD_le1; [exact Hs |].
    destruct (walk_curve_extends l (S i) (Page.walkStep s t i)) as [ext E].
    rewrite E in Hcurve. apply Forall_app in Hcurve as [Hstep _].
    unfold Page.walkStep in Hstep at 1. cbv zeta in Hstep. cbn [Page.w_curve] in Hstep.
    apply Forall_app in Hstep as [_ Hnew].
    apply Forall_inv in Hnew. exact Hnew.
Qed.

(** The closed trades are walked oldest close first. *)
Lemma closedOf_sorted (trades : list Page.Trade) :
  StronglySorted (fun a b => (Page.stamp_or (Page.updatedAt a) 0
                              <= Page.stamp_or (Page.updatedAt b) 0)%Z)
                 (Page.closedOf trades).
Proof.
  unfold Page.closedOf.
  apply (Array_sort_sorted (fun t => Page.stamp_or (Page.updatedAt t) 0)).
Qed.

(** *** Folding in a later trade *)

Lemma sort_insert_last {A : Type} (cmp : A -> A -> Z) (x t : A) (l : list A) :
  (cmp x t <= 0)%Z ->
  sort_insert cmp x (l ++ [t]) = sort_insert cmp x l ++ [t].
Proof.
  intros H. induction l as [|y l IH]; simpl.
  - apply Z.leb_le in H. now rewrite H.
  - destruct (cmp x y <=? 0)%Z; [reflexivity |]. now rewrite IH.
Qed.

Lemma Array_sort_last {A : Type} (cmp : A -> A -> Z) (t : A) (l : list A) :
  (forall x, In x l -> (cmp x t <= 0)%Z) ->
  Array_sort cmp (l ++ [t]) = Array_sort cmp l ++ [t].
Proof.
  induction l as [|x l IH]; intros H; simpl.
  - reflexivity.
  - rewrite IH by (intros; apply H; simpl; auto).
    apply sort_insert_last, H. simpl. auto.
Qed.

(** A trade appended with a close time not before any other one is
    folded in last, or not at all if it does not count as closed. *)
Lemma closedOf_append_later (trades : list Page.Trade) (t : Page.Trade) :
  (forall x, In x trades ->
             (Page.stamp_or (Page.updatedAt x) 0 <= Page.stamp_or (Page.updatedAt t) 0)%Z) ->
  Page.closedOf (trades ++ [t]) = Page.closedOf trades \/
  Page.closedOf (trades ++ [t]) = Page.closedOf trades ++ [t].
Proof.
  intros H. unfold Page.closedOf. rewrite List.filter_app. simpl.
  destruct (_ && _ && _ && _).
  - right. apply Array_sort_last. intros x Hx.
    apply filter_In in Hx as [Hx _]. specialize (H x Hx). lia.
  - left. now rewrite app_nil_r.
Qed.

Lemma maxDD_closedOf_extends (trades trades' more : list Page.Trade) (startingEquity : Q) :
  Page.closedOf trades' = Page.closedOf trades ++ more ->
  Page.maxDrawdownPct (Page.computeKPIs trades startingEquity)
  <= Page.maxDrawdownPct (Page.computeKPIs trades' startingEquity).
Proof.
  intros E. unfold Page.computeKPIs. cbv zeta. cbn [Page.maxDrawdownPct].
  rewrite E, forEach_app. apply walk_maxDD_mono.
Qed.

End EquityWalk.

(** C3, as stated, fails on the code: on an account of 1000, a position
    of 1000 shares entered at 10 and closed at 5 loses 5000; the equity
    curve falls to -4000 and the maximum drawdown is 5, above 1. *)
Lemma maxDrawdown_at_most_one_counterexample :
  Forall2 Qeq (map Page.pnl (Page.trades Samples.leveragedLoss)) [-5000] /\
  Page.maxDrawdownPct (Page.computeKPIs (Page.trades Samples.leveragedLoss) 1000) == 5 /\
  ~ Page.maxDrawdownPct (Page.computeKPIs (Page.trades Samples.leveragedLoss) 1000) <= 1.
Proof.
  split; [vm_compute; repeat constructor |].
  split; [reflexivity |]. vm_compute. intros H. now apply H.
Qed.

(** C3, amended.  For every starting equity and trade collection the
    maximum drawdown is at least 0; it does not decrease when further
    closed trades are folded in after the ones already there, in
    particular when a trade whose close time is not before any other is
    appended; and it is at most 1 provided no point of the equity curve is
    negative. *)
Theorem maxDrawdown_monotone_nonneg
        (trades trades' more : list Page.Trade) (t : Page.Trade) (startingEquity : Q) :
  let k := Page.computeKPIs trades startingEquity in
  0 <= Page.maxDrawdownPct k /\
  (Page.closedOf trades' = Page.closedOf trades ++ more ->
   Page.maxDrawdownPct k <= Page.maxDrawdownPct (Page.computeKPIs trades' startingEquity)) /\
  ((forall x, In x trades ->
              (Page.stamp_or (Page.updatedAt x) 0 <= Page.stamp_or (Page.updatedAt t) 0)%Z) ->
   Page.maxDrawdownPct k
   <= Page.maxDrawdownPct (Page.computeKPIs (trades ++ [t]) startingEquity)) /\
  (Forall (fun p => 0 <= Page.pt_equity p) (Page.equityCurve k) ->
   Page.maxDrawdownPct k <= 1).
Proof.
  intros k. split; [| split; [| split]].
  - unfold k, Page.computeKPIs. cbv zeta. cbn [Page.maxDrawdownPct].
    apply (walk_maxDD_mono (Page.closedOf trades) 0 (Page.walkInit startingEquity)).
  - apply maxDD_closedOf_extends.
  - intros H. destruct (closedOf_append_later trades t H) as [E|E].
    + apply (maxDD_closedOf_extends trades (trades ++ [t]) []). now rewrite app_nil_r.
    + now apply (maxDD_closedOf_extends trades (trades ++ [t]) [t]).
  - unfold k, Page.computeKPIs. cbv zeta. cbn [Page.maxDrawdownPct Page.equityCurve].
    apply walk_maxDD_le1. simpl. lra.
Qed.

Lemma maxDrawdown_monotone_nonneg_witness :
  Page.maxDrawdownPct (Page.computeKPIs (Page.trades Samples.leveragedLoss) 1000)
  <= Page.maxDrawdownPct (Page.computeKPIs (Page.trades Samples.leveragedThenWin) 1000) /\
  Page.maxDrawdownPct (Page.computeKPIs (Page.trades Samples.invertedClosed) 100000) <= 1.
Proof.
  destruct (maxDrawdown_monotone_nonneg
              (Page.trades Samples.leveragedLoss) (Page.trades Samples.leveragedThenWin)
              (skipn 1 (Page.closedOf (Page.trades Samples.leveragedThenWin)))
              (Page.makeBlankTrade Page.defaultSettings) 1000) as (_ & Hmore & _ & _).
  destruct (maxDrawdown_monotone_nonneg
              (Page.trades Samples.invertedClosed) [] []
              (Page.makeBlankTrade Page.defaultSettings) 100000) as (_ & _ & _ & Hone).
  split.
  - apply Hmore. vm_compute. reflexivity.
  - apply Hone. vm_compute. repeat constructor; discriminate.
Defined.

(** C8. For every starting equity, a collection with no closed trade
    aggregates to a closed count of 0, a win rate of 0, a profit factor
    of 0, an average R of 0 and an equity curve of exactly one point, at
    index 0, whose equity is the starting equity. *)
Theorem computeKPIs_no_closed_trades (trades : list Page.Trade) (startingEquity : Q) :
  Forall (fun t => Page.status t = open) trades ->
  let k := Page.computeKPIs trades startingEquity in
  Page.closedCount k = 0%nat /\
  Page.winRate k == 0 /\
  Page.profitFactor k = Fin 0 /\
  Page.avgR k == 0 /\
  exists e, Page.equityCurve k = [ {| Page.pt_i := 0; Page.pt_equity := e |} ] /\
            e == startingEquity.
Proof.
  intros H k. unfold k, Page.computeKPIs. rewrite (closedOf_all_open trades H).
  cbv zeta. simpl.
  repeat (split; [reflexivity |]).
  exists (or_else startingEquity 0). split; [reflexivity | apply or_else_0].
Qed.

Lemma computeKPIs_no_closed_trades_witness :
  Page.closedCount (Page.computeKPIs (Page.trades Samples.leveragedOpen) 1000) = 0%nat /\
  Page.profitFactor (Page.computeKPIs (Page.trades Samples.leveragedOpen) 1000) = Fin 0.
Proof.
  destruct (computeKPIs_no_closed_trades (Page.trades Samples.leveragedOpen) 1000)
    as (Hcount & _ & Hpf & _).
  - repeat constructor.
  - split; [exact Hcount | exact Hpf].
Defined.


(** * Further properties of the engine *)

(** ** Verdicts and checklists *)

Section Verdicts.

Local Open Scope Z_scope.

Lemma verdict_rank_mono (m : ModelType) (s s' : Z) :
  s <= s' -> (tone_rank (verdict m s) <= tone_rank (verdict m s'))%nat.
Proof.
  intros H. unfold verdict.
  destruct m;
    repeat match goal with
           | |- context [(?a <=? ?b)] => destruct (Z.leb_spec a b)
           end; simpl; lia.
Qed.

Lemma verdict_rebound_lenient (s : Z) :
  (tone_rank (verdict trend s) <= tone_rank (verdict rebound s))%nat.
Proof.
  unfold verdict.
  repeat match goal with
         | |- context [(?a <=? ?b)] => destruct (Z.leb_spec a b)
         end; simpl; lia.
Qed.

Lemma score_toggle_unchecked_le (m : ModelType) (c : Checklist) (k : string) :
  checked c k = false -> score m c <= score m (toggleCheck k c).
Proof.
  intros Hk. rewrite !score_got. unfold toggleCheck. rewrite Hk. simpl.
  apply got_weight_le; [apply weights_nonneg |].
  intros it _ Hc. rewrite checked_insert. now destruct (decide (k = key it)).
Qed.

End Verdicts.

(** X1. A higher score never earns a worse verdict; at any score the
    rebound model is at least as lenient as the trend model; and checking
    one more item of a checklist never downgrades the verdict. *)
Theorem verdict_monotone (m : ModelType) (s s' : Z) (c : Checklist) (k : string) :
  ((s <= s')%Z -> tone_rank (verdict m s) <= tone_rank (verdict m s'))%nat /\
  (tone_rank (verdict trend s) <= tone_rank (verdict rebound s))%nat /\
  (checked c k = false ->
   tone_rank (verdict m (score m c)) <= tone_rank (verdict m (score m (toggleCheck k c))))%nat.
Proof.
  split; [apply verdict_rank_mono |]. split; [apply verdict_rebound_lenient |].
  intros Hk. apply verdict_rank_mono. now apply score_toggle_unchecked_le.
Qed.

Lemma verdict_monotone_witness :
  (tone_rank (verdict trend 70) <= tone_rank (verdict trend 85))%nat /\
  (tone_rank (verdict rebound (score rebound (makeChecklist rebound)))
   <= tone_rank (verdict rebound (score rebound (toggleCheck "stopK" (makeChecklist rebound)))))%nat.
Proof.
  destruct (verdict_monotone trend 70 85 ∅ "") as (Hs & _ & _).
  destruct (verdict_monotone rebound 0 0 (makeChecklist rebound) "stopK") as (_ & _ & Hc).
  split.
  - apply Hs. discriminate.
  - apply Hc. reflexivity.
Defined.

Section Checklists.

Local Open Scope Z_scope.

Lemma fold_insert_lookup_notin (items : list Item) (o : Checklist) (k : string) :
  ~ In k (map key items) ->
  fold_left (fun o it => <[key it := false]> o) items o !! k = o !! k.
Proof.
  revert o. induction items as [|it items IH]; intros o Hin; [reflexivity |].
  simpl in *. rewrite IH by tauto. apply lookup_insert_ne. tauto.
Qed.

Lemma fold_insert_lookup_in (items : list Item) (o : Checklist) (k : string) :
  In k (map key items) ->
  fold_left (fun o it => <[key it := false]> o) items o !! k = Some false.
Proof.
  revert o. induction items as [|it items IH]; intros o Hin; [contradiction |].
  simpl. destruct (in_dec string_dec k (map key items)) as [Hrest|Hrest].
  - now apply IH.
  - destruct Hin as [Hk|Hin]; [| contradiction].
    rewrite fold_insert_lookup_notin by exact Hrest.
    rewrite Hk. apply lookup_insert_eq.
Qed.

Lemma makeChecklist_lookup (m : ModelType) (k : string) :
  (In k (keys_of m) -> makeChecklist m !! k = Some false) /\
  (~ In k (keys_of m) -> makeChecklist m !! k = None).
Proof.
  unfold makeChecklist, keys_of. split; intros H.
  - now apply fold_insert_lookup_in.
  - rewrite fold_insert_lookup_notin by exact H. apply lookup_empty.
Qed.

Lemma makeChecklist_unchecked (m : ModelType) (k : string) : checked (makeChecklist m) k = false.
Proof.
  unfold checked. destruct (in_dec string_dec k (keys_of m)) as [H|H].
  - now rewrite (proj1 (makeChecklist_lookup m k) H).
  - now rewrite (proj2 (makeChecklist_lookup m k) H).
Qed.

Lemma score_makeChecklist (m : ModelType) : score m (makeChecklist m) = 0.
Proof.
  rewrite score_got. apply got_weight_none. intros it _. apply makeChecklist_unchecked.
Qed.

Lemma keys_nodup (m : ModelType) : NoDup (keys_of m).
Proof. destruct m; apply (bool_decide_unpack _); vm_compute; exact I. Qed.

Lemma got_weight_insert_other (items : list Item) (c : Checklist) (k : string) (b : bool) :
  ~ In k (map key items) ->
  got_weight items (<[k := b]> c) = got_weight items c.
Proof.
  intros H. apply got_weight_ext. intros it Hit.
  apply lookup_insert_ne. intros E. apply H. rewrite E. now apply in_map.
Qed.

Lemma got_weight_insert_item (items : list Item) (c : Checklist) (it : Item) (b : bool) :
  NoDup (map key items) -> In it items ->
  got_weight items (<[key it := b]> c)
  = got_weight items c + (if b then weight it else 0)
    - (if checked c (key it) then weight it else 0).
Proof.
  induction items as [|it0 items IH]; intros Hnd Hin; [contradiction |].
  simpl in Hnd. apply NoDup_cons in Hnd as [Hnot Hnd]. rewrite list_elem_of_In in Hnot.
  rewrite !got_weight_cons, checked_insert.
  destruct Hin as [->|Hin].
  - rewrite got_weight_insert_other by exact Hnot.
    destruct (decide (key it = key it)); [| congruence]. lia.
  - rewrite IH by assumption.
    destruct (decide (key it = key it0)) as [E|_]; [| lia].
    exfalso. apply Hnot. rewrite <- E. now apply in_map.
Qed.

Lemma checked_toggle_twice (c : Checklist) (k k' : string) :
  checked (toggleCheck k (toggleCheck k c)) k' = checked c k'.
Proof.
  unfold toggleCheck. rewrite !checked_insert.
  destruct (decide (k = k')) as [<-|]; [| reflexivity].
  destruct (decide (k = k)); [| congruence]. apply negb_involutive.
Qed.

End Checklists.

(** X2. A blank checklist holds exactly the keys of its model, each
    unchecked, and no other key; switching the model of a draft, in
    either console, therefore brings its score back to 0. *)
Theorem model_switch_resets (m : ModelType) (k : string) (t : Page.Trade) (d : Console.Draft) :
  (In k (keys_of m) -> makeChecklist m !! k = Some false) /\
  (~ In k (keys_of m) -> makeChecklist m !! k = None) /\
  Page.model (Page.setModel m t) = m /\
  scoreChecklist m (Page.checklist (Page.setModel m t)) = 0%Z /\
  Console.d_model (Console.setModel m d) = m /\
  score m (Console.d_checklist (Console.setModel m d)) = 0%Z.
Proof.
  destruct (makeChecklist_lookup m k) as [Hin Hout].
  split; [exact Hin |]. split; [exact Hout |]. split; [reflexivity |].
  split; [| split; [reflexivity |]]; simpl.
  - rewrite scoreChecklist_score. apply score_makeChecklist.
  - apply score_makeChecklist.
Qed.

Lemma model_switch_resets_witness :
  makeChecklist rebound !! "support" = Some false /\
  makeChecklist rebound !! "maBull" = None.
Proof.
  destruct (model_switch_resets rebound "support" (Page.makeBlankTrade Page.defaultSettings)
              (Console.blankDraft Samples.consoleSettings)) as (Hin & _).
  destruct (model_switch_resets rebound "maBull" (Page.makeBlankTrade Page.defaultSettings)
              (Console.blankDraft Samples.consoleSettings)) as (_ & Hout & _).
  split.
  - apply Hin. vm_compute. tauto.
  - apply Hout. vm_compute.
    intros H; repeat (destruct H as [H|H]; [discriminate H |]); exact H.
Defined.

(** X3. Toggling an item of the model changes the score by exactly
    that item's weight, up when it was unchecked and down when it was
    checked; toggling any key twice restores the score. *)
Theorem toggle_changes_score_by_weight
        (m : ModelType) (c : Checklist) (it : Item) (k : string) :
  (In it (items_of m) ->
   score m (toggleCheck (key it) c)
   = if checked c (key it) then (score m c - weight it)%Z else (score m c + weight it)%Z) /\
  score m (toggleCheck k (toggleCheck k c)) = score m c.
Proof.
  split.
  - intros Hin. rewrite !score_got. unfold toggleCheck.
    rewrite (got_weight_insert_item _ _ _ _ (keys_nodup m) Hin).
    destruct (checked c (key it)); simpl; lia.
  - rewrite !score_got.
    assert (H1 : (got_weight (items_of m) (toggleCheck k (toggleCheck k c))
                  <= got_weight (items_of m) c)%Z).
    { apply got_weight_le; [apply weights_nonneg |].
      intros it' _. now rewrite checked_toggle_twice. }
    assert (H2 : (got_weight (items_of m) c
                  <= got_weight (items_of m) (toggleCheck k (toggleCheck k c)))%Z).
    { apply got_weight_le; [apply weights_nonneg |].
      intros it' _. now rewrite checked_toggle_twice. }
    lia.
Qed.

Lemma toggle_changes_score_by_weight_witness :
  score trend (toggleCheck "maBull" (makeChecklist trend))
  = (score trend (makeChecklist trend) + 20)%Z.
Proof.
  destruct (toggle_changes_score_by_weight
              trend (makeChecklist trend)
              {| key := "maBull"; label := "均线多头（5>10>20）"; weight := 20 |} "")
    as [Hw _].
  apply Hw. simpl. auto.
Defined.

(** ** Costs, PnL and R *)

Section OutcomeAlgebra.


Lemma calcPnL_nonzero (entry exit size : Q) (side : Side) (feePct exitFeePct slippage : Q) :
  ~ entry == 0 -> ~ exit == 0 -> ~ size == 0 ->
  Console.calcPnL entry exit size side feePct exitFeePct slippage
  = match side with
    | long => (exit - entry) * size
    | short => (entry - exit) * size
    end - Console.calcCosts entry exit size feePct exitFeePct slippage.
Proof.
  intros He Hx Hs. unfold Console.calcPnL.
  destruct (falsy_spec entry); [contradiction |].
  destruct (falsy_spec exit); [contradiction |].
  destruct (falsy_spec size); [contradiction |]. reflexivity.
Qed.


Lemma calcCosts_nonneg (entry exit size feePct exitFeePct slippage : Q) :
  0 <= entry -> 0 <= exit -> 0 <= size -> 0 <= feePct -> 0 <= exitFeePct ->
  0 <= Console.calcCosts entry exit size feePct exitFeePct slippage.
Proof.
  intros He Hx Hs Hf Hef. unfold Console.calcCosts. cbv zeta.
  assert (H1 : 0 <= entry * size) by (apply Qmult_le_0_compat; assumption).
  assert (H2 : 0 <= exit * size) by (apply Qmult_le_0_compat; assumption).
  assert (H3 : 0 <= feePct / 100) by (apply Qle_shift_div_l; lra).
  assert (H4 : 0 <= exitFeePct / 100) by (apply Qle_shift_div_l; lra).
  assert (H5 : 0 <= (entry * size + exit * size) * (feePct / 100))
    by (apply Qmult_le_0_compat; lra).
  assert (H6 : 0 <= exit * size * (exitFeePct / 100)) by (apply Qmult_le_0_compat; lra).
  assert (H7 : 0 <= Math_abs slippage * size)
    by (apply Qmult_le_0_compat; [apply Qabs_nonneg | assumption]).
  lra.
Qed.


Lemma zero_div (x : Q) : 0 / x == 0.
Proof. unfold Qdiv. apply Qmult_0_l. Qed.

End OutcomeAlgebra.

(** X6. With positive entry, exit and size and non-negative fee
    percentages, the transaction costs are never negative, so the net PnL
    never exceeds the gross PnL of the side, whatever the slippage. *)
Theorem net_pnl_at_most_gross
        (entry exit size : Q) (side : Side) (feePct exitFeePct slippage : Q) :
  0 < entry -> 0 < exit -> 0 < size -> 0 <= feePct -> 0 <= exitFeePct ->
  0 <= Console.calcCosts entry exit size feePct exitFeePct slippage /\
  Console.calcPnL entry exit size side feePct exitFeePct slippage
  <= match side with
     | long => (exit - entry) * size
     | short => (entry - exit) * size
     end.
Proof.
  intros He Hx Hs Hf Hef.
  assert (Hc : 0 <= Console.calcCosts entry exit size feePct exitFeePct slippage)
    by (apply calcCosts_nonneg; lra).
  split; [exact Hc |].
  rewrite calcPnL_nonzero by (intro; lra). lra.
Qed.

Lemma net_pnl_at_most_gross_witness :
  Console.calcPnL 10 12 100 long (3 # 100) (1 # 10) (1 # 100) <= (12 - 10) * 100.
Proof.
  destruct (net_pnl_at_most_gross 10 12 100 long (3 # 100) (1 # 10) (1 # 100)) as [_ H];
    [reflexivity | reflexivity | reflexivity | discriminate | discriminate |].
  exact H.
Defined.





(** X9. Being stopped out costs one R: for a valid plan (positive
    entry and stop, stop on the losing side) closed at its stop, R is
    exactly -1 at zero costs and at most -1 with non-negative fees. *)
Theorem stopped_out_is_minus_one_R
        (entry stop : Q) (side : Side) (feePct exitFeePct slippage : Q) :
  0 < entry -> 0 < stop ->
  0 < match side with long => entry - stop | short => stop - entry end ->
  Console.calcR entry stop stop side 0 0 0 == - (1) /\
  (0 <= feePct -> 0 <= exitFeePct ->
   Console.calcR entry stop stop side feePct exitFeePct slippage <= - (1)).
Proof.
  intros He Hs Hrp.
  assert (Hshape : forall f ef sl,
             Console.calcR entry stop stop side f ef sl
             == (- match side with long => entry - stop | short => stop - entry end
                 - Console.calcCosts entry stop 1 f ef sl)
                / match side with long => entry - stop | short => stop - entry end).
  { intros f ef sl. unfold Console.calcR. cbv zeta.
    set (rp := match side with long => entry - stop | short => stop - entry end) in *.
    destruct (falsy_spec rp); [exfalso; lra |].
    destruct (leb_spec rp 0); [exfalso; lra |]. cbn [orb].
    rewrite calcPnL_nonzero by (intro; (lra || discriminate)).
    apply Qdiv_comp; [| reflexivity]. unfold rp. destruct side; ring. }
  set (rp := match side with long => entry - stop | short => stop - entry end) in *.
  split.
  - rewrite Hshape, calcCosts_zero. field. intro. lra.
  - intros Hf Hef. rewrite Hshape.
    assert (Hc : 0 <= Console.calcCosts entry stop 1 feePct exitFeePct slippage)
      by (apply calcCosts_nonneg; lra).
    apply Qle_shift_div_r; lra.
Qed.

Lemma stopped_out_is_minus_one_R_witness :
  Console.calcR 10 11 11 short 0 0 0 == - (1) /\
  Console.calcR 10 9 9 long (3 # 100) (1 # 10) (1 # 100) <= - (1).
Proof.
  destruct (stopped_out_is_minus_one_R 10 11 short 0 0 0) as [Hexact _];
    [reflexivity | reflexivity | reflexivity |].
  destruct (stopped_out_is_minus_one_R 10 9 long (3 # 100) (1 # 10) (1 # 100)) as [_ Hcost];
    [reflexivity | reflexivity | reflexivity |].
  split; [exact Hexact | apply Hcost; discriminate].
Defined.

(** ** Sizing and outcome together *)

Section PageStopOut.




End PageStopOut.



(** ** Sessions of the cost-aware console *)

Section ConsoleSessions.

Lemma console_addTrade_cases (uid : string) (now : Z) (a : Console.App) :
  Console.trades (Console.addTrade uid now a) = Console.trades a \/
  exists t, Console.trades (Console.addTrade uid now a) = t :: Console.trades a /\
            Console.stored t /\ Console.t_id t = uid /\ Console.t_status t = open.
Proof.
  unfold Console.addTrade. cbv zeta.
  destruct (str_falsy _); [now left |].
  destruct (falsy_spec (Console.d_stop (Console.draft a))); cbn [orb]; [now left |].
  destruct (leb_spec (Console.d_stop (Console.draft a)) 0); [now left |].
  destruct (falsy_spec (Console.d_entry (Console.draft a))); cbn [orb]; [now left |].
  destruct (leb_spec (Console.d_entry (Console.draft a)) 0); [now left |].
  destruct (Console.d_side (Console.draft a)) eqn:Hside; cbn [Console.is_short Console.is_long andb].
  - destruct (leb_spec (Console.d_entry (Console.draft a)) (Console.d_stop (Console.draft a)));
      [now left |].
    right. eexists. split; [reflexivity |]. split; [| split; reflexivity].
    split.
    + unfold Console.wellFormed. cbn. rewrite ?Hside.
      repeat (split; [lra |]). unfold Console.sizing. now rewrite ?Hside.
    + unfold Console.outcomeRecorded. cbn. repeat split.
  - destruct (leb_spec (Console.d_stop (Console.draft a)) (Console.d_entry (Console.draft a)));
      [now left |].
    right. eexists. split; [reflexivity |]. split; [| split; reflexivity].
    split.
    + unfold Console.wellFormed. cbn. rewrite ?Hside.
      repeat (split; [lra |]). unfold Console.sizing. now rewrite ?Hside.
    + unfold Console.outcomeRecorded. cbn. repeat split.
Qed.

Lemma closed_at_inv (t : Console.Trade) (ex : Q) (now : Z) :
  0 < ex -> Console.wellFormed t ->
  Console.stored
    (Console.closed_at t ex
       (Console.calcPnL (Console.t_entry t) ex (Console.t_size t) (Console.t_side t)
                        (Console.t_feePct t) (Console.t_exitFeePct t) (Console.t_slippage t))
       (Console.calcR (Console.t_entry t) (Console.t_stop t) ex (Console.t_side t)
                      (Console.t_feePct t) (Console.t_exitFeePct t) (Console.t_slippage t))
       now).
Proof.
  intros Hex Hwf. split.
  - exact Hwf.
  - unfold Console.outcomeRecorded. cbn. exists ex. repeat split. exact Hex.
Qed.

Lemma console_step_inv (a b : Console.App) :
  Console.step a b ->
  (forall t, In t (Console.trades a) -> Console.stored t) ->
  forall t, In t (Console.trades b) -> Console.stored t.
Proof.
  intros Hstep Hinv. destruct Hstep; try exact Hinv.
  - intros t Ht. destruct (console_addTrade_cases uid now a) as [E|(t0 & E & Ht0 & _)];
      rewrite E in Ht; [now apply Hinv |].
    destruct Ht as [<-|Ht]; [exact Ht0 | now apply Hinv].
  - unfold Console.closeTrade. destruct ex as [ex|]; [| exact Hinv].
    destruct (falsy_spec ex); cbn [orb]; [exact Hinv |].
    destruct (leb_spec ex 0); [exact Hinv |].
    cbn. intros t Ht. apply in_map_iff in Ht as (t0 & <- & Ht0).
    destruct (negb _); [now apply Hinv |].
    apply closed_at_inv; [lra | apply Hinv, Ht0].
  - unfold Console.delTrade. destruct c; cbn; [| exact Hinv].
    intros t Ht. apply filter_In in Ht as [Ht _]. now apply Hinv.
Qed.

Lemma console_reachable_inv (a : Console.App) :
  Console.reachable a -> forall t, In t (Console.trades a) -> Console.stored t.
Proof.
  induction 1 as [s d tb | a b _ IH Hstep].
  - intros t [].
  - now apply (console_step_inv a b).
Qed.

End ConsoleSessions.

(** X12. Every trade in the log of the cost-aware console, in any
    state a session reaches from an empty log by editing the draft or the
    settings and by saving, closing and deleting trades, has positive
    entry and stop, its stop on the losing side of its entry, the size
    [calcSizing] gives for the figures stored with it, and, once closed, a
    positive exit price with the PnL and R computed from it (none before). *)
Theorem console_log_invariant (a : Console.App) (t : Console.Trade) :
  Console.reachable a -> In t (Console.trades a) -> Console.stored t.
Proof. intros Hr Ht. exact (console_reachable_inv a Hr t Ht). Qed.

Lemma console_log_invariant_witness : Forall Console.stored (Console.trades Samples.consoleStopped).
Proof.
  apply List.Forall_forall. intros t Ht.
  apply (console_log_invariant Samples.consoleStopped t); [| exact Ht].
  unfold Samples.consoleStopped, Samples.consoleOpen.
  eapply Console.reach_step; [| apply Console.step_closeTrade].
  eapply Console.reach_step; [| apply Console.step_addTrade].
  apply Console.reach_init.
Defined.

(** ** Sessions of the simple console *)

Section PageSessions.

Lemma closedOf_cons_open (t : Page.Trade) (l : list Page.Trade) :
  Page.status t = open -> Page.closedOf (t :: l) = Page.closedOf l.
Proof. intros H. unfold Page.closedOf. simpl. now rewrite H. Qed.

Lemma filter_absorb {A : Type} (q keep : A -> bool) (l : list A) :
  (forall x, In x l -> q x = true -> keep x = true) ->
  List.filter q (List.filter keep l) = List.filter q l.
Proof.
  induction l as [|x l IH]; intros H; [reflexivity |].
  simpl. destruct (keep x) eqn:Hk; simpl.
  - rewrite IH by (intros; apply H; simpl; auto). reflexivity.
  - rewrite IH by (intros; apply H; simpl; auto).
    destruct (q x) eqn:Hq; [| reflexivity].
    rewrite (H x (or_introl eq_refl) Hq) in Hk. discriminate.
Qed.

Lemma page_addTrade_cases (uid : string) (now : Z) (a : Page.App) :
  (exists msg, Page.addTrade uid now a = Page.alert msg a) \/
  (exists t,
      Page.trades (Page.addTrade uid now a) = t :: Page.trades a /\
      Page.alerts (Page.addTrade uid now a) = Page.alerts a /\
      Page.id t = Some uid /\ Page.status t = open /\
      Page.exit t = 0 /\ Page.pnl t = 0 /\ Page.rMultiple t = 0 /\
      Page.createdAt t = Some now /\ Page.updatedAt t = Some now /\
      Page.symbol t = trim (Page.symbol (Page.draft a)) /\
      Page.stop t = or_else (Page.stop (Page.draft a)) 0 /\
      Page.entry t = or_else (Page.entry (Page.draft a)) 0 /\
      Page.sizeShares t = or_else (Page.sizeShares (Page.draft a)) 0).
Proof.
  unfold Page.addTrade. cbv zeta.
  destruct (str_falsy _); [left; eauto |].
  destruct (falsy (Page.stop (Page.draft a)) || leb (Page.stop (Page.draft a)) 0);
    [left; eauto |].
  right. eexists. repeat split.
Qed.

Lemma page_addTrade_accepts (uid : string) (now : Z) (a : Page.App) :
  str_falsy (trim (Page.symbol (Page.draft a))) = false ->
  0 < Page.stop (Page.draft a) ->
  Page.alerts (Page.addTrade uid now a) = Page.alerts a /\
  length (Page.trades (Page.addTrade uid now a)) = S (length (Page.trades a)).
Proof.
  intros Hsym Hstop. unfold Page.addTrade. cbv zeta. rewrite Hsym.
  destruct (falsy_spec (Page.stop (Page.draft a))); [exfalso; lra |].
  destruct (leb_spec (Page.stop (Page.draft a)) 0); [exfalso; lra |].
  split; reflexivity.
Qed.

Lemma inSync_withOutcome (t : Page.Trade) (now : Z) :
  Page.inSync (Page.withOutcome t (Page.calcPnL t) (Page.calcRMultiple t) now).
Proof. intros _ _. split; reflexivity. Qed.

Lemma inSync_updated (merged : Page.Trade) :
  Page.inSync
    (if Page.is_closed (Page.status merged) && truthy (Page.exit merged)
     then Page.withPnlR merged (Page.calcPnL merged) (Page.calcRMultiple merged)
     else merged).
Proof.
  destruct (Page.is_closed (Page.status merged) && truthy (Page.exit merged)) eqn:E.
  - intros _ _. split; reflexivity.
  - intros Hs Hx. rewrite Hs, Hx in E. discriminate.
Qed.

Lemma page_step_inSync (a b : Page.App) :
  Page.step a b ->
  (forall t, In t (Page.trades a) -> Page.inSync t) ->
  forall t, In t (Page.trades b) -> Page.inSync t.
Proof.
  intros Hstep Hinv. destruct Hstep; try exact Hinv.
  - intros t Ht.
    destruct (page_addTrade_cases uid now a) as [[msg E]|(t0 & E & _ & _ & Hopen & _)].
    + rewrite E in Ht. now apply Hinv.
    + rewrite E in Ht. destruct Ht as [<-|Ht]; [| now apply Hinv].
      intros Hs. rewrite Hopen in Hs. discriminate.
  - unfold Page.closeTrade. cbv zeta.
    destruct (falsy ep || leb ep 0); [exact Hinv |].
    cbn [Page.trades]. intros t Ht. apply in_map_iff in Ht as (t0 & <- & Ht0).
    destruct (Page.id_differs t0 i); [now apply Hinv |].
    apply (inSync_withOutcome (Page.withExit t0 ep)).
  - unfold Page.updateTrade. cbv zeta. cbn [Page.trades].
    intros t Ht. apply in_map_iff in Ht as (t0 & <- & Ht0).
    destruct (Page.id_differs t0 i); [now apply Hinv |].
    apply (inSync_updated
             (Page.normalizeTrade now (Page.withUpdatedAt (Page.applyPatch t0 p) now))).
  - unfold Page.deleteTrade. destruct c; cbn; [| exact Hinv].
    intros t Ht. apply filter_In in Ht as [Ht _]. now apply Hinv.
Qed.

Lemma page_reachable_inSync (s : Page.Settings) (a : Page.App) :
  Page.reachable s a -> forall t, In t (Page.trades a) -> Page.inSync t.
Proof.
  induction 1 as [| a b _ IH Hstep].
  - intros t [].
  - now apply (page_step_inSync a b).
Qed.

End PageSessions.

(** X14. In any state the simple console reaches from an empty log by
    editing the draft or the settings and by saving, closing, editing and
    deleting trades, the PnL and R stored with a closed trade that has an
    exit price are the ones [calcPnL] and [calcRMultiple] give for its
    stored prices and size. *)
Theorem page_outcome_stays_in_sync (s : Page.Settings) (a : Page.App) (t : Page.Trade) :
  Page.reachable s a -> In t (Page.trades a) ->
  Page.status t = closed -> truthy (Page.exit t) = true ->
  Page.pnl t = Page.calcPnL t /\ Page.rMultiple t = Page.calcRMultiple t.
Proof. intros Hr Ht. exact (page_reachable_inSync s a Hr t Ht). Qed.

Lemma page_outcome_stays_in_sync_witness :
  Forall (fun t => Page.pnl t = Page.calcPnL t /\ Page.rMultiple t = Page.calcRMultiple t)
         (Page.trades Samples.leveragedLoss).
Proof.
  assert (Hreach : Page.reachable Samples.smallAccount Samples.leveragedLoss).
  { unfold Samples.leveragedLoss, Samples.leveragedOpen.
    eapply Page.reach_step; [| apply Page.step_closeTrade].
    eapply Page.reach_step; [| apply Page.step_addTrade].
    eapply Page.reach_step; [| apply Page.step_setDraft].
    eapply Page.reach_step; [| apply Page.step_setDraft].
    apply Page.reach_init. }
  apply List.Forall_forall. intros t Ht.
  apply (page_outcome_stays_in_sync Samples.smallAccount Samples.leveragedLoss t Hreach Ht).
  - destruct Ht as [<-|[]]. reflexivity.
  - destruct Ht as [<-|[]]. reflexivity.
Defined.

(** X15. Saving a draft never changes the KPIs, whether the draft is
    rejected or accepted: a new trade is open, and open trades are not
    aggregated.  A draft with a non-blank symbol and a positive stop is
    accepted: no alert is raised and the log grows by one trade. *)
Theorem page_addTrade_keeps_KPIs (uid : string) (now : Z) (a : Page.App) (startingEquity : Q) :
  Page.computeKPIs (Page.trades (Page.addTrade uid now a)) startingEquity
  = Page.computeKPIs (Page.trades a) startingEquity /\
  (str_falsy (trim (Page.symbol (Page.draft a))) = false ->
   0 < Page.stop (Page.draft a) ->
   Page.alerts (Page.addTrade uid now a) = Page.alerts a /\
   length (Page.trades (Page.addTrade uid now a)) = S (length (Page.trades a))).
Proof.
  split; [| apply page_addTrade_accepts].
  unfold Page.computeKPIs.
  destruct (page_addTrade_cases uid now a) as [[msg E]|(t0 & E & _ & _ & Hopen & _)].
  - now rewrite E.
  - rewrite E, (closedOf_cons_open t0 _ Hopen). reflexivity.
Qed.

Lemma page_addTrade_keeps_KPIs_witness :
  Page.alerts (Page.addTrade "t1" 1 Samples.invertedDraft) = [] /\
  length (Page.trades (Page.addTrade "t1" 1 Samples.invertedDraft)) = 1%nat.
Proof.
  destruct (page_addTrade_keeps_KPIs "t1" 1 Samples.invertedDraft 100000) as [_ H].
  apply H.
  - reflexivity.
  - reflexivity.
Defined.

Section CloseAndDelete.

Lemma id_differs_iff (t : Page.Trade) (i : string) :
  Page.id_differs t i = true <-> Page.id t <> Some i.
Proof.
  unfold Page.id_differs. destruct (Page.id t) as [j|]; [| split; [discriminate | reflexivity]].
  destruct (String.eqb_spec j i) as [->|Hne]; simpl.
  - split; [discriminate | intros H; now elim H].
  - split; [intros _ E; congruence | reflexivity].
Qed.

Lemma map_keeps {A B : Type} (g : A -> B) (f : A -> A) (l : list A) :
  (forall x, g (f x) = g x) -> map g (map f l) = map g l.
Proof.
  intros H. induction l as [|x l IH]; [reflexivity |]. simpl. now rewrite H, IH.
Qed.

Lemma filter_map_untouched {A : Type} (d : A -> bool) (f : A -> A) (l : list A) :
  (forall x, d (f x) = d x) -> (forall x, d x = true -> f x = x) ->
  List.filter d (map f l) = List.filter d l.
Proof.
  intros H1 H2. induction l as [|x l IH]; [reflexivity |].
  simpl. rewrite H1. destruct (d x) eqn:E; [now rewrite (H2 x E), IH | exact IH].
Qed.

Lemma filter_idem {A : Type} (d : A -> bool) (l : list A) :
  List.filter d (List.filter d l) = List.filter d l.
Proof. apply filter_absorb. auto. Qed.

Lemma page_closeTrade_invalid (i : string) (ep : Q) (now : Z) (a : Page.App) :
  ep <= 0 -> exists msg, Page.closeTrade i ep now a = Page.alert msg a.
Proof.
  intros H. unfold Page.closeTrade. cbv zeta.
  destruct (falsy_spec ep); cbn [orb]; [eauto |].
  destruct (leb_spec ep 0); [eauto | contradiction].
Qed.

End CloseAndDelete.

(** X16. Closing a trade in the simple console never adds, removes or
    reorders trades and never touches a trade with another id.  A price
    that is zero or negative changes nothing and raises an alert; a
    positive price closes every trade with the given id at that price,
    with the PnL and R of its prices and the close time. *)
Theorem page_closeTrade_touches_only_its_id (i : string) (ep : Q) (now : Z) (a : Page.App) :
  map Page.id (Page.trades (Page.closeTrade i ep now a)) = map Page.id (Page.trades a) /\
  List.filter (fun t => Page.id_differs t i) (Page.trades (Page.closeTrade i ep now a))
  = List.filter (fun t => Page.id_differs t i) (Page.trades a) /\
  (ep <= 0 ->
   Page.trades (Page.closeTrade i ep now a) = Page.trades a /\
   exists msg, Page.alerts (Page.closeTrade i ep now a) = Page.alerts a ++ [msg]) /\
  (0 < ep ->
   Page.alerts (Page.closeTrade i ep now a) = Page.alerts a /\
   forall t, In t (Page.trades (Page.closeTrade i ep now a)) -> Page.id t = Some i ->
             Page.status t = closed /\ Page.exit t = ep /\
             Page.pnl t = Page.calcPnL t /\ Page.rMultiple t = Page.calcRMultiple t /\
             Page.updatedAt t = Some now).
Proof.
  split; [| split; [| split]].
  - unfold Page.closeTrade. cbv zeta. destruct (falsy ep || leb ep 0); [reflexivity |].
    cbn [Page.trades]. apply map_keeps. intros t. now destruct (Page.id_differs t i).
  - unfold Page.closeTrade. cbv zeta. destruct (falsy ep || leb ep 0); [reflexivity |].
    cbn [Page.trades]. apply filter_map_untouched.
    + intros t. destruct (Page.id_differs t i) eqn:E; [exact E |].
      unfold Page.id_differs in *. exact E.
    + intros t E. now rewrite E.
  - intros H. destruct (page_closeTrade_invalid i ep now a H) as [msg ->].
    split; [reflexivity | now exists msg].
  - intros H. unfold Page.closeTrade. cbv zeta.
    destruct (falsy_spec ep); [exfalso; lra |].
    destruct (leb_spec ep 0); [exfalso; lra |]. cbn [orb Page.trades Page.alerts].
    split; [reflexivity |].
    intros t Ht Hid. apply in_map_iff in Ht as (t0 & <- & _).
    destruct (Page.id_differs t0 i) eqn:E.
    + apply id_differs_iff in E. contradiction.
    + repeat split.
Qed.

Lemma page_closeTrade_touches_only_its_id_witness :
  Page.trades (Page.closeTrade "t1" 0 2 Samples.leveragedOpen) = Page.trades Samples.leveragedOpen /\
  Forall (fun t => Page.status t = closed /\ Page.exit t = 5) (Page.trades Samples.leveragedLoss).
Proof.
  destruct (page_closeTrade_touches_only_its_id "t1" 0 2 Samples.leveragedOpen)
    as (_ & _ & Hbad & _).
  destruct (page_closeTrade_touches_only_its_id "t1" 5 2 Samples.leveragedOpen)
    as (_ & _ & _ & Hgood).
  split.
  - apply Hbad. discriminate.
  - destruct Hgood as [_ Hgood]; [reflexivity |].
    apply List.Forall_forall. intros t Ht.
    destruct (Hgood t Ht) as (Hs & Hx & _).
    + destruct Ht as [<-|[]]. reflexivity.
    + split; assumption.
Defined.

(** X17. Deleting, once confirmed, removes exactly the trades with the
    given id and keeps the others in their order; declining changes
    nothing; deleting again changes nothing more; and, since open trades
    are not aggregated, deleting an id whose trades are all open leaves
    the KPIs as they were.  The same holds of the membership of the
    cost-aware console's log. *)
Theorem deleteTrade_removes_exactly_its_id
        (i : string) (a : Page.App) (c : Console.App) (startingEquity : Q) :
  Page.deleteTrade false i a = a /\
  (forall t, In t (Page.trades (Page.deleteTrade true i a))
             <-> In t (Page.trades a) /\ Page.id t <> Some i) /\
  Page.deleteTrade true i (Page.deleteTrade true i a) = Page.deleteTrade true i a /\
  ((forall t, In t (Page.trades a) -> Page.id t = Some i -> Page.status t = open) ->
   Page.computeKPIs (Page.trades (Page.deleteTrade true i a)) startingEquity
   = Page.computeKPIs (Page.trades a) startingEquity) /\
  Console.delTrade false i c = c /\
  (forall t, In t (Console.trades (Console.delTrade true i c))
             <-> In t (Console.trades c) /\ Console.t_id t <> i).
Proof.
  split; [reflexivity |]. split; [| split; [| split; [| split; [reflexivity |]]]].
  - intros t. cbn. rewrite filter_In, id_differs_iff. reflexivity.
  - unfold Page.deleteTrade. cbn. now rewrite filter_idem.
  - intros Hopen. unfold Page.computeKPIs, Page.closedOf. cbn [Page.deleteTrade negb Page.trades].
    rewrite filter_absorb; [reflexivity |].
    intros t Ht Hq. apply id_differs_iff. intros Hid.
    rewrite (Hopen t Ht Hid) in Hq. discriminate.
  - intros t. cbn. rewrite filter_In.
    destruct (String.eqb_spec (Console.t_id t) i); simpl; split; intros [H1 H2];
      (split; [exact H1 |]); congruence.
Qed.

Lemma deleteTrade_removes_exactly_its_id_witness :
  Page.computeKPIs (Page.trades (Page.deleteTrade true "t1" Samples.leveragedOpen)) 1000
  = Page.computeKPIs (Page.trades Samples.leveragedOpen) 1000.
Proof.
  destruct (deleteTrade_removes_exactly_its_id
              "t1" Samples.leveragedOpen Samples.consoleOpen 1000) as (_ & _ & _ & H & _).
  apply H. intros t [<-|[]] _. reflexivity.
Defined.

Section ConsoleClose.

Lemma map_idem {A : Type} (f : A -> A) (l : list A) :
  (forall x, f (f x) = f x) -> map f (map f l) = map f l.
Proof.
  intros H. rewrite map_map. apply map_ext. exact H.
Qed.

Lemma console_closeTrade_invalid (i : string) (ex : Q) (now : Z) (a : Console.App) :
  ex <= 0 -> exists msg, Console.closeTrade i (Some ex) now a = Console.alert msg a.
Proof.
  intros H. unfold Console.closeTrade. cbv zeta.
  destruct (falsy_spec ex); cbn [orb]; [eauto |].
  destruct (leb_spec ex 0); [eauto | contradiction].
Qed.

Lemma console_closeTrade_valid (i : string) (ex : Q) (now : Z) (a : Console.App) :
  0 < ex ->
  Console.closeTrade i (Some ex) now a
  = {| Console.settings := Console.settings a;
       Console.trades :=
         map (fun t =>
                if negb (String.eqb (Console.t_id t) i) then t
                else Console.closed_at t ex
                       (Console.calcPnL (Console.t_entry t) ex (Console.t_size t)
                                        (Console.t_side t) (Console.t_feePct t)
                                        (Console.t_exitFeePct t) (Console.t_slippage t))
                       (Console.calcR (Console.t_entry t) (Console.t_stop t) ex
                                      (Console.t_side t) (Console.t_feePct t)
                                      (Console.t_exitFeePct t) (Console.t_slippage t))
                       now)
             (Console.trades a);
       Console.tab := Console.tab a; Console.draft := Console.draft a;
       Console.alerts := Console.alerts a |}.
Proof.
  intros H. unfold Console.closeTrade. cbv zeta.
  destruct (falsy_spec ex); [exfalso; lra |].
  destruct (leb_spec ex 0); [exfalso; lra |]. reflexivity.
Qed.

End ConsoleClose.

(** X26. Closing a trade in the cost-aware console: a cancelled or
    empty prompt changes nothing at all; a price that is zero or negative
    changes no trade and raises an alert; a positive price keeps the ids
    and the order of the log, leaves every trade with another id as it
    was, and stores with every trade of the given id the closed status,
    the exit price, the close time and the PnL and R of that exit.
    Closing is not guarded by the status, but closing again at the same
    price and time changes nothing more. *)
Theorem console_closeTrade_touches_only_its_id
        (i : string) (ex : Q) (now : Z) (a : Console.App) :
  Console.closeTrade i None now a = a /\
  (ex <= 0 ->
   Console.trades (Console.closeTrade i (Some ex) now a) = Console.trades a /\
   exists msg, Console.alerts (Console.closeTrade i (Some ex) now a)
               = Console.alerts a ++ [msg]) /\
  (0 < ex ->
   let a' := Console.closeTrade i (Some ex) now a in
   map Console.t_id (Console.trades a') = map Console.t_id (Console.trades a) /\
   List.filter (fun t => negb (String.eqb (Console.t_id t) i)) (Console.trades a')
   = List.filter (fun t => negb (String.eqb (Console.t_id t) i)) (Console.trades a) /\
   Console.alerts a' = Console.alerts a /\
   (forall t, In t (Console.trades a') -> Console.t_id t = i ->
              Console.t_status t = closed /\ Console.t_exit t = Some ex /\
              Console.t_updatedAt t = now /\
              Console.t_pnl t
              = Some (Console.calcPnL (Console.t_entry t) ex (Console.t_size t)
                                      (Console.t_side t) (Console.t_feePct t)
                                      (Console.t_exitFeePct t) (Console.t_slippage t)) /\
              Console.t_r t
              = Some (Console.calcR (Console.t_entry t) (Console.t_stop t) ex
                                    (Console.t_side t) (Console.t_feePct t)
                                    (Console.t_exitFeePct t) (Console.t_slippage t))) /\
   Console.closeTrade i (Some ex) now a' = a').
Proof.
  split; [reflexivity |]. split.
  - intros H. destruct (console_closeTrade_invalid i ex now a H) as [msg ->].
    split; [reflexivity | now exists msg].
  - intros H a'. subst a'.
    rewrite !(console_closeTrade_valid i ex now _ H).
    cbn [Console.trades Console.alerts Console.settings Console.tab Console.draft].
    split; [| split; [| split; [reflexivity | split]]].
    + apply map_keeps. intros t. now destruct (negb (String.eqb (Console.t_id t) i)).
    + apply filter_map_untouched.
      * intros t. destruct (negb (String.eqb (Console.t_id t) i)) eqn:E; [exact E |].
        cbn [Console.closed_at Console.t_id]. exact E.
      * intros t E. now rewrite E.
    + intros t Ht Hid. apply in_map_iff in Ht as (t0 & <- & _).
      destruct (String.eqb_spec (Console.t_id t0) i) as [E|E]; cbn [negb] in *.
      * repeat split.
      * contradiction.
    + f_equal. apply map_idem. intros t.
      destruct (negb (String.eqb (Console.t_id t) i)) eqn:E; [now rewrite E |].
      cbn [Console.closed_at Console.t_id]. rewrite E. reflexivity.
Qed.

Lemma console_closeTrade_touches_only_its_id_witness :
  Console.trades (Console.closeTrade "t1" (Some 0) 2 Samples.consoleOpen)
  = Console.trades Samples.consoleOpen /\
  Console.closeTrade "t1" (Some 9) 2 Samples.consoleStopped = Samples.consoleStopped.
Proof.
  destruct (console_closeTrade_touches_only_its_id "t1" 0 2 Samples.consoleOpen)
    as (_ & Hbad & _).
  destruct (console_closeTrade_touches_only_its_id "t1" 9 2 Samples.consoleOpen)
    as (_ & _ & Hgood).
  split.
  - apply Hbad. discriminate.
  - destruct Hgood as (_ & _ & _ & _ & Hagain); [reflexivity |]. exact Hagain.
Defined.

(** ** More on the aggregates *)

Section Aggregates.

Lemma len_filter_le {A : Type} (f : A -> bool) (l : list A) : len (List.filter f l) <= len l.
Proof.
  unfold len. rewrite <- Zle_Qle. apply inj_le.
  induction l as [|x l IH]; simpl; [lia |]. destruct (f x); simpl; lia.
Qed.

Lemma len_nonneg {A : Type} (l : list A) : 0 <= len l.
Proof. unfold len. change 0 with (inject_Z 0). rewrite <- Zle_Qle. lia. Qed.

Lemma fraction_bounds (a b : Q) :
  0 <= a -> a <= b ->
  0 <= (if falsy b then 0 else a / b) /\ (if falsy b then 0 else a / b) <= 1.
Proof.
  intros Ha Hab. destruct (falsy_spec b) as [Hz|Hnz]; [split; lra |].
  assert (Hb : 0 < b) by lra.
  split; [apply Qle_shift_div_l; lra | apply Qle_shift_div_r; lra].
Qed.

Lemma closedOf_length (trades : list Page.Trade) :
  (length (Page.closedOf trades) <= length trades)%nat.
Proof.
  unfold Page.closedOf.
  rewrite (Permutation_length (Array_sort_perm (fun t => Page.stamp_or (Page.updatedAt t) 0) _)).
  apply List.filter_length_le.
Qed.



End Aggregates.

(** X18. The win rate is a fraction between 0 and 1, in both consoles,
    and no more trades are counted as closed than the log holds. *)
Theorem winRate_is_a_fraction
        (trades : list Page.Trade) (startingEquity : Q) (ctrades : list Console.Trade) :
  0 <= Page.winRate (Page.computeKPIs trades startingEquity) <= 1 /\
  (Page.closedCount (Page.computeKPIs trades startingEquity) <= length trades)%nat /\
  0 <= Console.winRate (Console.kpi ctrades) <= 1 /\
  (Console.closedCount (Console.kpi ctrades) <= length ctrades)%nat.
Proof.
  split; [| split; [| split]].
  - apply (fraction_bounds (len (Page.winsOf (Page.closedOf trades)))
                           (len (Page.closedOf trades)));
      [apply len_nonneg | apply len_filter_le].
  - apply closedOf_length.
  - unfold Console.kpi. cbv zeta. cbn [Console.winRate].
    apply fraction_bounds; [apply len_nonneg | apply len_filter_le].
  - unfold Console.kpi. cbv zeta. cbn [Console.closedCount]. apply List.filter_length_le.
Qed.


Section Curve.



Lemma walk_peak_invariant (l : list Page.Trade) (i : nat) (s : Page.Walk) (c : Q) :
  Page.w_eq s <= Page.w_peak s -> c <= Page.w_peak s ->
  Page.w_eq (forEach Page.walkStep l i s) <= Page.w_peak (forEach Page.walkStep l i s) /\
  c <= Page.w_peak (forEach Page.walkStep l i s).
Proof.
  revert i s. induction l as [|t l IH]; intros i s He Hc; [now split |].
  cbn [forEach]. apply IH; unfold Page.walkStep; cbv zeta; cbn [Page.w_eq Page.w_peak].
  - apply Q.le_max_r.
  - eapply Qle_trans; [exact Hc | apply Q.le_max_l].
Qed.

Lemma walk_no_loss (l : list Page.Trade) (i : nat) (s : Page.Walk) :
  (forall t, In t l -> 0 <= Page.pnl t) ->
  Page.w_peak s <= Page.w_eq s -> Page.w_maxDD s <= 0 ->
  Page.w_maxDD (forEach Page.walkStep l i s) <= 0.
Proof.
  revert i s. induction l as [|t l IH]; intros i s Hl Hp Hd; [exact Hd |].
  cbn [forEach]. apply IH.
  - intros t' Ht'. apply Hl. simpl. auto.
  - unfold Page.walkStep. cbv zeta. cbn [Page.w_eq Page.w_peak].
    pose proof (Hl t (or_introl eq_refl)) as Ht. pose proof (or_else_0 (Page.pnl t)) as Ep.
    unfold Math_max. apply Q.max_lub; lra.
  - unfold Page.walkStep. cbv zeta. cbn [Page.w_maxDD].
    pose proof (Hl t (or_introl eq_refl)) as Ht. pose proof (or_else_0 (Page.pnl t)) as Ep.
    set (eq := Page.w_eq s + or_else (Page.pnl t) 0).
    set (peak := Math_max (Page.w_peak s) eq).
    assert (Hpk : peak <= eq) by (unfold peak, Math_max; apply Q.max_lub; unfold eq; lra).
    unfold Math_max at 1. apply Q.max_lub; [exact Hd |].
    destruct (ltb_spec 0 peak) as [Hpos|_]; [| lra].
    apply Qle_shift_div_r; lra.
Qed.

Lemma walkStep_loss (s : Page.Walk) (t : Page.Trade) (i : nat) :
  Page.w_eq s <= Page.w_peak s -> 0 < Page.w_peak s -> Page.pnl t < 0 ->
  0 < Page.w_maxDD (Page.walkStep s t i).
Proof.
  intros He Hp Ht. unfold Page.walkStep. cbv zeta. cbn [Page.w_maxDD].
  pose proof (or_else_0 (Page.pnl t)) as Ep.
  set (eq := Page.w_eq s + or_else (Page.pnl t) 0).
  set (peak := Math_max (Page.w_peak s) eq).
  assert (Hpk : Page.w_peak s <= peak) by apply Q.le_max_l.
  destruct (ltb_spec 0 peak) as [Hpos|Hno]; [| exfalso; lra].
  assert (Hdd : 0 < (peak - eq) / peak) by (apply Qlt_shift_div_l; unfold eq; lra).
  eapply Qlt_le_trans; [exact Hdd | apply Q.le_max_r].
Qed.

End Curve.



(** X21. With no losing trade among the closed ones the maximum
    drawdown is 0; with a positive starting equity, a single losing trade
    makes it positive. *)
Theorem maxDrawdown_zero_iff_no_loss (trades : list Page.Trade) (startingEquity : Q) :
  ((forall t, In t (Page.closedOf trades) -> 0 <= Page.pnl t) ->
   Page.maxDrawdownPct (Page.computeKPIs trades startingEquity) == 0) /\
  (0 < startingEquity ->
   (exists t, In t (Page.closedOf trades) /\ Page.pnl t < 0) ->
   0 < Page.maxDrawdownPct (Page.computeKPIs trades startingEquity)).
Proof.
  unfold Page.computeKPIs. cbv zeta. cbn [Page.maxDrawdownPct]. split.
  - intros Hl.
    pose proof (walk_maxDD_mono (Page.closedOf trades) 0 (Page.walkInit startingEquity)) as H0.
    pose proof (walk_no_loss (Page.closedOf trades) 0 (Page.walkInit startingEquity) Hl) as H1.
    cbn [Page.walkInit Page.w_maxDD Page.w_peak Page.w_eq] in H0, H1.
    specialize (H1 (Qle_refl _) (Qle_refl _)). lra.
  - intros Hpos (t & Hin & Ht).
    apply in_split in Hin as (l1 & l2 & E). rewrite E, forEach_app. cbn [forEach].
    eapply Qlt_le_trans; [| apply walk_maxDD_mono].
    pose proof (or_else_0 startingEquity) as Es.
    destruct (walk_peak_invariant l1 0 (Page.walkInit startingEquity) startingEquity)
      as [He Hp]; cbn [Page.walkInit Page.w_eq Page.w_peak]; try lra.
    apply walkStep_loss; [exact He | lra | exact Ht].
Qed.

Lemma maxDrawdown_zero_iff_no_loss_witness :
  Page.maxDrawdownPct (Page.computeKPIs (Page.trades Samples.invertedClosed) 100000) == 0 /\
  0 < Page.maxDrawdownPct (Page.computeKPIs (Page.trades Samples.leveragedLoss) 1000).
Proof.
  destruct (maxDrawdown_zero_iff_no_loss (Page.trades Samples.invertedClosed) 100000)
    as [Hnone _].
  destruct (maxDrawdown_zero_iff_no_loss (Page.trades Samples.leveragedLoss) 1000)
    as [_ Hloss].
  split.
  - apply Hnone.
    assert (Hf : Forall (fun t => 0 <= Page.pnl t)
                        (Page.closedOf (Page.trades Samples.invertedClosed))).
    { vm_compute. repeat constructor; discriminate. }
    intros t Ht. revert t Ht. apply List.Forall_forall. exact Hf.
  - apply Hloss; [reflexivity |].
    assert (He : Exists (fun t => Page.pnl t < 0)
                        (Page.closedOf (Page.trades Samples.leveragedLoss))).
    { vm_compute. constructor. reflexivity. }
    apply List.Exists_exists in He. exact He.
Defined.

(** ** Normalisation, import and export *)

Section Normalisation.

Lemma strip_prefix_app (w l r : list ascii) : strip_prefix w l = Some r -> l = w ++ r.
Proof.
  revert l. induction w as [|c w IH]; intros l H.
  - now injection H as ->.
  - destruct l as [|d l]; [discriminate |]. cbn in H.
    destruct (Ascii.eqb_spec c d) as [->|]; [| discriminate].
    cbn. f_equal. now apply IH.
Qed.

Lemma strip_prefix_more (w l r v : list ascii) :
  strip_prefix w l = Some r -> strip_prefix w (l ++ v) = Some (r ++ v).
Proof.
  revert l. induction w as [|c w IH]; intros l H.
  - now injection H as ->.
  - destruct l as [|d l]; [discriminate |]. cbn in *.
    destruct (Ascii.eqb c d); [now apply IH | discriminate].
Qed.

Lemma strip_any_shorter (ws : list (list ascii)) (l r : list ascii) :
  Forall (fun w => w <> []) ws -> strip_any ws l = Some r -> (length r < length l)%nat.
Proof.
  induction 1 as [|w ws' Hw _ IH]; [discriminate |].
  cbn. destruct (strip_prefix w l) as [r'|] eqn:E; [| exact IH].
  intros [= <-]. apply strip_prefix_app in E. subst l.
  rewrite length_app. destruct w; [contradiction | cbn; lia].
Qed.

Lemma strip_any_suffix (ws : list (list ascii)) (l r : list ascii) :
  strip_any ws l = Some r -> exists p, l = p ++ r.
Proof.
  induction ws as [|w ws' IH]; [discriminate |].
  cbn. destruct (strip_prefix w l) as [r'|] eqn:E; [| exact IH].
  intros [= <-]. exists w. now apply strip_prefix_app.
Qed.

Lemma strip_any_more (ws : list (list ascii)) (l r v : list ascii) :
  strip_any ws l = Some r -> strip_any ws (l ++ v) <> None.
Proof.
  induction ws as [|w ws' IH]; [discriminate |].
  cbn. destruct (strip_prefix w (l ++ v)) eqn:E'; [discriminate |].
  destruct (strip_prefix w l) as [r'|] eqn:E; [| exact IH].
  apply (strip_prefix_more _ _ _ v) in E. congruence.
Qed.

(** With fuel for every byte, what is left starts with no character of [ws]. *)
Lemma drop_leading_done (ws : list (list ascii)) (n : nat) (l : list ascii) :
  Forall (fun w => w <> []) ws -> (length l <= n)%nat ->
  strip_any ws (drop_leading ws n l) = None.
Proof.
  intros Hws. revert l. induction n as [|n IH]; intros l Hl.
  - destruct l; [| cbn in Hl; lia]. cbn.
    destruct (strip_any ws []) eqn:E; [| reflexivity].
    apply strip_any_shorter in E; [| exact Hws]. cbn in E. lia.
  - cbn. destruct (strip_any ws l) as [r|] eqn:E; [| exact E].
    apply IH. apply strip_any_shorter in E; [| exact Hws]. lia.
Qed.

Lemma drop_leading_fixed (ws : list (list ascii)) (n : nat) (l : list ascii) :
  strip_any ws l = None -> drop_leading ws n l = l.
Proof. intros H. destruct n; [reflexivity |]. cbn. now rewrite H. Qed.

Lemma drop_leading_suffix (ws : list (list ascii)) (n : nat) (l : list ascii) :
  exists p, l = p ++ drop_leading ws n l.
Proof.
  revert l. induction n as [|n IH]; intros l; [now exists [] |].
  cbn. destruct (strip_any ws l) as [r|] eqn:E; [| now exists []].
  destruct (strip_any_suffix _ _ _ E) as [p ->]. destruct (IH r) as [p' Hp'].
  exists (p ++ p'). rewrite <- app_assoc. now rewrite <- Hp'.
Qed.

Lemma white_space_nonempty : Forall (fun w => w <> []) white_space.
Proof. unfold white_space. cbn. repeat constructor; discriminate. Qed.

Lemma white_space_rev_nonempty : Forall (fun w => w <> []) (map (@rev ascii) white_space).
Proof. unfold white_space. cbn. repeat constructor; discriminate. Qed.

Lemma trim_spec (s : string) :
  let l := list_ascii_of_string (trim s) in
  strip_any white_space l = None /\ strip_any (map (@rev ascii) white_space) (rev l) = None.
Proof.
  unfold trim, trim_end, trim_start. cbv zeta.
  rewrite !list_ascii_of_string_of_list_ascii.
  set (u := drop_leading white_space _ _).
  assert (Hu : strip_any white_space u = None).
  { apply drop_leading_done; [apply white_space_nonempty | lia]. }
  set (t := drop_leading (map (@rev ascii) white_space) _ _).
  assert (Ht : strip_any (map (@rev ascii) white_space) t = None).
  { apply drop_leading_done; [apply white_space_rev_nonempty | lia]. }
  rewrite rev_involutive. split; [| exact Ht].
  destruct (drop_leading_suffix (map (@rev ascii) white_space) (length (rev u)) (rev u)) as [p Hp].
  fold t in Hp.
  assert (Eu : u = rev t ++ rev p).
  { rewrite <- (rev_involutive u), Hp, rev_app_distr. reflexivity. }
  destruct (strip_any white_space (rev t)) as [r|] eqn:E; [| reflexivity].
  exfalso. apply (strip_any_more _ _ _ (rev p)) in E. rewrite <- Eu in E. contradiction.
Qed.

Lemma trim_fixed (s : string) :
  strip_any white_space (list_ascii_of_string s) = None ->
  strip_any (map (@rev ascii) white_space) (rev (list_ascii_of_string s)) = None ->
  trim s = s.
Proof.
  intros H1 H2. unfold trim, trim_end, trim_start. cbv zeta.
  rewrite (drop_leading_fixed _ _ _ H1), string_of_list_ascii_of_string.
  rewrite (drop_leading_fixed _ _ _ H2), rev_involutive.
  apply string_of_list_ascii_of_string.
Qed.

Lemma trim_idem (s : string) : trim (trim s) = trim s.
Proof. destruct (trim_spec s) as [H1 H2]. now apply trim_fixed. Qed.

Lemma or_else_idem (x : Q) : or_else (or_else x 0) 0 = or_else x 0.
Proof.
  unfold or_else, truthy. destruct (falsy x) eqn:E; simpl; [reflexivity | now rewrite E].
Qed.

Lemma stamp_or_idem (x : option Z) (now now' : Z) :
  now <> 0%Z \/ now' = now ->
  Page.stamp_or (Some (Page.stamp_or x now)) now' = Page.stamp_or x now.
Proof.
  intros H. unfold Page.stamp_or at 1.
  destruct (Z.eqb_spec (Page.stamp_or x now) 0) as [E|E]; [| reflexivity].
  destruct H as [H| ->].
  - exfalso. unfold Page.stamp_or in E. destruct x as [z|]; [| contradiction].
    destruct (Z.eqb_spec z 0); contradiction.
  - unfold Page.stamp_or in *. destruct x as [z|]; [| reflexivity].
    destruct (Z.eqb_spec z 0); [reflexivity | contradiction].
Qed.

Lemma normalizeTrade_fixed (now now' : Z) (t : Page.Trade) :
  now <> 0%Z \/ now' = now ->
  Page.normalizeTrade now' (Page.normalizeTrade now t) = Page.normalizeTrade now t.
Proof.
  intros H. unfold Page.normalizeTrade. cbn -[Page.stamp_or or_else trim scoreChecklist Z.eqb].
  rewrite !stamp_or_idem by exact H. rewrite !trim_idem, !or_else_idem.
  f_equal.
  destruct (Z.eqb_spec (Page.tscore t) 0) as [E|E].
  - now destruct (scoreChecklist (Page.model t) (Page.checklist t) =? 0)%Z.
  - destruct (Z.eqb_spec (Page.tscore t) 0); [contradiction | reflexivity].
Qed.

End Normalisation.

Section ImportExport.

Lemma Array_sort_fixed {A : Type} (cmp : A -> A -> Z) (l : list A) :
  Sorted (fun a b => (cmp a b <= 0)%Z) l -> Array_sort cmp l = l.
Proof.
  induction 1 as [|x l _ IH Hhd]; [reflexivity |].
  cbn [Array_sort]. rewrite IH. destruct Hhd as [|y l' Hxy]; [reflexivity |].
  cbn [sort_insert]. apply Z.leb_le in Hxy. now rewrite Hxy.
Qed.

Lemma sort_insert_perm_any {A : Type} (cmp : A -> A -> Z) (x : A) (l : list A) :
  Permutation (sort_insert cmp x l) (x :: l).
Proof.
  induction l as [|y l IH]; simpl; [reflexivity |].
  destruct (cmp x y <=? 0)%Z; [reflexivity |]. rewrite IH. apply perm_swap.
Qed.

Lemma Array_sort_perm_any {A : Type} (cmp : A -> A -> Z) (l : list A) :
  Permutation (Array_sort cmp l) l.
Proof.
  induction l as [|x l IH]; simpl; [reflexivity |].
  rewrite sort_insert_perm_any. now rewrite IH.
Qed.

(** Sorting on [key b - key a] puts the largest key first. *)
Lemma sort_insert_desc_sorted {A : Type} (sortKey : A -> Z) (x : A) (l : list A) :
  StronglySorted (fun a b => (sortKey b <= sortKey a)%Z) l ->
  StronglySorted (fun a b => (sortKey b <= sortKey a)%Z)
                 (sort_insert (fun a b => (sortKey b - sortKey a)%Z) x l).
Proof.
  induction 1 as [|y l Hs IH Hy]; simpl.
  - repeat constructor.
  - destruct (Z.leb_spec (sortKey y - sortKey x) 0) as [Hle|Hgt].
    + constructor; [now constructor |].
      constructor; [lia |].
      eapply List.Forall_impl; [| exact Hy]. simpl. intros. lia.
    + constructor; [exact IH |].
      eapply Permutation_Forall; [symmetry; apply sort_insert_perm_any |].
      constructor; [lia | exact Hy].
Qed.

Lemma Array_sort_desc_sorted {A : Type} (sortKey : A -> Z) (l : list A) :
  StronglySorted (fun a b => (sortKey b <= sortKey a)%Z)
                 (Array_sort (fun a b => (sortKey b - sortKey a)%Z) l).
Proof.
  induction l as [|x l IH]; simpl; [constructor |]. now apply sort_insert_desc_sorted.
Qed.

Lemma mergeSettings_export (a : Page.App) (sp : Page.SettingsPatch) :
  Page.data_settings (Page.exportJSON a) = Some sp ->
  Page.mergeSettings (Page.settings a) sp = Page.settings a.
Proof. intros H. injection H as <-. now destruct (Page.settings a). Qed.

Lemma map_fixed {A : Type} (f : A -> A) (l : list A) :
  Forall (fun x => f x = x) l -> map f l = l.
Proof. induction 1 as [|x l Hx _ IH]; [reflexivity |]. simpl. now rewrite Hx, IH. Qed.

Lemma page_addTrade_trade_normalized (uid : string) (now now' : Z) (a : Page.App) :
  now <> 0%Z ->
  Forall (fun t => Page.normalizeTrade now' t = t) (Page.trades a) ->
  Forall (fun t => Page.normalizeTrade now' t = t) (Page.trades (Page.addTrade uid now a)).
Proof.
  intros Hnow Hall. unfold Page.addTrade. cbv zeta.
  destruct (str_falsy _); [exact Hall |].
  destruct (falsy (Page.stop (Page.draft a)) || leb (Page.stop (Page.draft a)) 0);
    [exact Hall |].
  cbn [Page.trades]. constructor; [| exact Hall].
  unfold Page.normalizeTrade. cbn -[Page.stamp_or or_else trim scoreChecklist Z.eqb].
  rewrite !trim_idem, !or_else_idem. change (or_else 0 0) with 0.
  unfold Page.stamp_or. destruct (Z.eqb_spec now 0); [contradiction |]. f_equal.
  destruct (Z.eqb_spec (Page.tscore (Page.draft a)) 0) as [E|E].
  - now destruct (scoreChecklist (Page.model (Page.draft a))
                                 (Page.checklist (Page.draft a)) =? 0)%Z.
  - destruct (Z.eqb_spec (Page.tscore (Page.draft a)) 0); [contradiction | reflexivity].
Qed.

End ImportExport.

(** X22. Normalising is idempotent: a trade that has been normalised
    is left as it is by a second normalisation at the same clock reading,
    or at any later one when the first reading was not zero. *)
Theorem normalizeTrade_idempotent (now now' : Z) (t : Page.Trade) :
  Page.normalizeTrade now (Page.normalizeTrade now t) = Page.normalizeTrade now t /\
  (now <> 0%Z ->
   Page.normalizeTrade now' (Page.normalizeTrade now t) = Page.normalizeTrade now t).
Proof.
  split.
  - apply normalizeTrade_fixed. now right.
  - intros H. apply normalizeTrade_fixed. now left.
Qed.

Lemma normalizeTrade_idempotent_witness :
  Page.normalizeTrade 7 (Page.normalizeTrade 1 (Page.draft Samples.invertedDraft))
  = Page.normalizeTrade 1 (Page.draft Samples.invertedDraft).
Proof.
  destruct (normalizeTrade_idempotent 1 7 (Page.draft Samples.invertedDraft)) as [_ H].
  apply H. discriminate.
Defined.

(** X23. Import is all or nothing.  A file that does not parse to an
    object, or lacks [settings], or whose [trades] is not an array, leaves
    settings and trades as they were and raises an alert.  Otherwise the
    imported log holds every trade of the file, normalised, none dropped,
    newest creation first, and the file's settings are merged over the
    current ones. *)
Theorem importJSON_all_or_nothing (now : Z) (data : option Page.Payload) (a : Page.App) :
  (match data with
   | Some d => Page.data_settings d = None \/ Page.data_trades d = None
   | None => True
   end ->
   Page.trades (Page.importJSON now data a) = Page.trades a /\
   Page.settings (Page.importJSON now data a) = Page.settings a /\
   exists msg, Page.alerts (Page.importJSON now data a) = Page.alerts a ++ [msg]) /\
  (forall sp ts,
      data = Some {| Page.data_settings := Some sp; Page.data_trades := Some ts |} ->
      Permutation (Page.trades (Page.importJSON now data a)) (map (Page.normalizeTrade now) ts) /\
      StronglySorted (fun x y => (Page.stamp_or (Page.createdAt y) 0
                                  <= Page.stamp_or (Page.createdAt x) 0)%Z)
                     (Page.trades (Page.importJSON now data a)) /\
      Forall (fun t => Page.normalizeTrade now t = t) (Page.trades (Page.importJSON now data a)) /\
      Page.settings (Page.importJSON now data a) = Page.mergeSettings (Page.settings a) sp /\
      Page.draft (Page.importJSON now data a) = Page.draft a).
Proof.
  split.
  - destruct data as [[[sp|] [ts|]]|]; cbn; intros H;
      try (destruct H; discriminate); repeat split; eauto.
  - intros sp ts ->. cbn [Page.importJSON Page.data_settings Page.data_trades].
    cbn [Page.alert Page.trades Page.settings Page.draft].
    set (sorted := Array_sort _ _).
    assert (Hperm : Permutation sorted (map (Page.normalizeTrade now) ts))
      by apply Array_sort_perm_any.
    split; [exact Hperm |]. split; [| split; [| split; reflexivity]].
    + apply (Array_sort_desc_sorted (fun t => Page.stamp_or (Page.createdAt t) 0)).
    + eapply Permutation_Forall; [symmetry; exact Hperm |].
      apply List.Forall_forall. intros t Ht. apply in_map_iff in Ht as (t0 & <- & _).
      apply normalizeTrade_fixed. now right.
Qed.

Lemma importJSON_all_or_nothing_witness :
  Page.trades (Page.importJSON 9 None Samples.leveragedLoss) = Page.trades Samples.leveragedLoss /\
  Page.settings (Page.importJSON 9 None Samples.leveragedLoss)
  = Page.settings Samples.leveragedLoss.
Proof.
  destruct (importJSON_all_or_nothing 9 None Samples.leveragedLoss) as [H _].
  destruct (H I) as (Ht & Hs & _). split; assumption.
Defined.

Section RoundTrip.

Lemma Array_sort_desc_fixed {A : Type} (sortKey : A -> Z) (l : list A) :
  Sorted (fun a b => (sortKey b <= sortKey a)%Z) l ->
  Array_sort (fun a b => (sortKey b - sortKey a)%Z) l = l.
Proof.
  induction 1 as [|x l _ IH Hhd]; [reflexivity |].
  cbn [Array_sort]. rewrite IH. destruct Hhd as [|y l' Hxy]; [reflexivity |].
  cbn [sort_insert]. destruct (Z.leb_spec (sortKey y - sortKey x) 0); [reflexivity | lia].
Qed.

End RoundTrip.

(** X24. Export then import is the identity on a store whose trades
    are in normal form and listed newest creation first (as [addTrade]
    leaves them): trades, settings, draft and tab come back unchanged. *)
Theorem export_import_round_trip (now : Z) (a : Page.App) :
  Forall (fun t => Page.normalizeTrade now t = t) (Page.trades a) ->
  Sorted (fun x y => (Page.stamp_or (Page.createdAt y) 0
                      <= Page.stamp_or (Page.createdAt x) 0)%Z) (Page.trades a) ->
  Page.trades (Page.importJSON now (Some (Page.exportJSON a)) a) = Page.trades a /\
  Page.settings (Page.importJSON now (Some (Page.exportJSON a)) a) = Page.settings a /\
  Page.draft (Page.importJSON now (Some (Page.exportJSON a)) a) = Page.draft a /\
  Page.activeTab (Page.importJSON now (Some (Page.exportJSON a)) a) = Page.activeTab a.
Proof.
  intros Hnorm Hsorted.
  cbn [Page.importJSON Page.exportJSON Page.data_settings Page.data_trades].
  cbn [Page.alert Page.trades Page.settings Page.draft Page.activeTab].
  split; [| split; [| split; reflexivity]].
  - rewrite (map_fixed _ _ Hnorm).
    apply (Array_sort_desc_fixed (fun t => Page.stamp_or (Page.createdAt t) 0)), Hsorted.
  - now destruct (Page.settings a).
Qed.

Lemma export_import_round_trip_witness :
  Page.trades (Page.importJSON 9 (Some (Page.exportJSON Samples.leveragedThenWin))
                               Samples.leveragedThenWin)
  = Page.trades Samples.leveragedThenWin.
Proof.
  assert (Hnorm : Forall (fun t => Page.normalizeTrade 9 t = t)
                         (Page.trades Samples.leveragedThenWin)).
  { remember (Page.trades Samples.leveragedThenWin) as l eqn:E.
    vm_compute in E. subst l.
    repeat (constructor; [vm_compute; reflexivity |]). constructor. }
  assert (Hsorted : Sorted (fun x y => (Page.stamp_or (Page.createdAt y) 0
                                        <= Page.stamp_or (Page.createdAt x) 0)%Z)
                           (Page.trades Samples.leveragedThenWin)).
  { vm_compute. repeat constructor. discriminate. }
  destruct (export_import_round_trip 9 Samples.leveragedThenWin Hnorm Hsorted) as [H _].
  exact H.
Defined.

Section DashboardSeries.

Lemma modelPie_fold (l : list Page.Trade) (acc : nat * nat) :
  (fst (fold_left (fun acc x =>
                     match Page.model x with
                     | trend => (S (fst acc), snd acc)
                     | rebound => (fst acc, S (snd acc))
                     end) l acc)
   + snd (fold_left (fun acc x =>
                       match Page.model x with
                       | trend => (S (fst acc), snd acc)
                       | rebound => (fst acc, S (snd acc))
                       end) l acc)
   = fst acc + snd acc + length l)%nat.
Proof.
  revert acc. induction l as [|x l IH]; intros acc; simpl; [lia |].
  rewrite IH. destruct (Page.model x); simpl; lia.
Qed.

Lemma mapi_length {A B : Type} (f : A -> nat -> B) (l : list A) (i : nat) :
  length (Page.mapi f l i) = length l.
Proof. revert i. induction l as [|x l IH]; intros i; simpl; [reflexivity | now rewrite IH]. Qed.

Lemma rBars_indices (l : list Page.Trade) (i : nat) :
  map fst (Page.mapi (fun x i => ((i + 1)%nat, or_else (Page.rMultiple x) 0)) l i)
  = seq (i + 1) (length l).
Proof.
  revert i. induction l as [|x l IH]; intros i; simpl; [reflexivity |].
  now rewrite IH.
Qed.

Lemma filter_closed_weaker (trades : list Page.Trade) :
  (length (List.filter (fun t => Page.is_closed (Page.status t) && ltb 0 (Page.exit t)
                                 && ltb 0 (Page.entry t) && ltb 0 (Page.sizeShares t)) trades)
   <= length (List.filter (fun x => Page.is_closed (Page.status x)) trades))%nat.
Proof.
  induction trades as [|t l IH]; simpl; [lia |].
  destruct (Page.is_closed (Page.status t)); simpl; [| exact IH].
  destruct (_ && _ && _); simpl; lia.
Qed.

End DashboardSeries.

(** X25. The dashboard charts count every trade whose status is
    closed: the two slices of the model pie add up to the number of R
    bars, the bars are numbered 1, 2, ... in order, and the KPIs, which
    also require a positive entry, exit and size, never count more closed
    trades than the charts show. *)
Theorem dashboard_counts_closed_trades (trades : list Page.Trade) (startingEquity : Q) :
  (fst (Page.modelPie trades) + snd (Page.modelPie trades)
   = length (Page.rBars trades))%nat /\
  map fst (Page.rBars trades) = seq 1 (length (Page.rBars trades)) /\
  (Page.closedCount (Page.computeKPIs trades startingEquity)
   <= length (Page.rBars trades))%nat.
Proof.
  assert (Hlen : length (Page.rBars trades)
                 = length (List.filter (fun x => Page.is_closed (Page.status x)) trades)).
  { unfold Page.rBars. cbv zeta. rewrite mapi_length.
    apply Permutation_length, Array_sort_perm_any. }
  split; [| split].
  - rewrite Hlen. unfold Page.modelPie. cbv zeta. rewrite modelPie_fold. simpl. lia.
  - unfold Page.rBars. cbv zeta. rewrite rBars_indices, mapi_length. reflexivity.
  - rewrite Hlen. unfold Page.computeKPIs. cbv zeta. cbn [Page.closedCount].
    unfold Page.closedOf. rewrite (Permutation_length (Array_sort_perm_any _ _)).
    apply filter_closed_weaker.
Qed.
